(** * JournalEntries (AI-augmented): weekly synthesis pipeline

    A shallow embedding of [journal-entries.ts] (class [JournalEntries]):
    the entry store, the deterministic weekly aggregates, the parser of
    the text-generation reply, the validators V1, V2 and V3, and
    [summarizeWeek] around its single suspension point.

    Modelling conventions.
    - A JavaScript string is the list of its UTF-16 code units ([list N]).
    - A [Date] is its time value, the number of milliseconds since the
      epoch, as an integer; an Invalid Date is [None].  The local time
      zone is taken to have a fixed offset, so that
      [d.setDate(d.getDate() + n)] moves the time value by [n] days, and
      the dates are taken far enough from the two ends of the time values
      for the result to be one.
    - A rating, validated against [-2, -1, 0, 1, 2] before it is stored,
      is an integer; the average is computed on binary64 numbers, as the
      source does.
    - A regular expression literal is a term of [regex]; [rmatch] is a
      backtracking matcher that lists the possible ends of a match in the
      order in which the ECMAScript matcher tries them.
    - [JSON.parse] is a recursive-descent parser driven by fuel, of which
      [JSON_parse] provides more than any text can use.
    - The [Map] of entries is the list of its bindings in insertion order,
      which [getEntriesInRange] observes through the stable sort; the
      [Map] of weekly summaries, read by key only, is a finite map.
    - The entry counter is unbounded.
    - [await] is a suspension: [summarizeWeek] either throws before the
      request or hands over the request with the continuation that is run
      on the reply and on the store as it is then.
    - [console.log] output is not modelled. *)

From Stdlib Require Import ZArith NArith List Bool Lia Ascii String.
From Stdlib Require Import PrimFloat Uint63 SpecFloat FloatOps.
From Stdlib Require Import Sorted.
From stdpp Require Import gmap list strings.
Import ListNotations.

Local Open Scope Z_scope.

Set Warnings "-register-all,-inexact-float".
Set Default Proof Using "Type".

(** ** Strings *)

Abbreviation jsstring := (list N).

(** An ASCII literal as a JavaScript string. *)
Definition js (s : string) : jsstring :=
  List.map N_of_ascii (list_ascii_of_string s).

(** The same, with every apostrophe of the literal standing for a double
    quote (used to write JSON texts). *)
Definition jsq (s : string) : jsstring :=
  List.map (fun c => if (c =? 39)%N then 34%N else c) (js s).

Definition jsstring_eqb (a b : jsstring) : bool := bool_decide (a = b).

(** [Array.prototype.includes] on an array of strings. *)
Definition includes (l : list jsstring) (x : jsstring) : bool :=
  existsb (jsstring_eqb x) l.

(** ECMAScript WhiteSpace and LineTerminator code units: the class [\s],
    and what [String.prototype.trim] strips. *)
Definition is_ws (c : N) : bool :=
  ((9 <=? c) && (c <=? 13) || (c =? 32) || (c =? 160) || (c =? 5760)
   || (8192 <=? c) && (c <=? 8202) || (c =? 8232) || (c =? 8233)
   || (c =? 8239) || (c =? 8287) || (c =? 12288) || (c =? 65279))%N.

Definition is_digit (c : N) : bool := ((48 <=? c) && (c <=? 57))%N.

(** The class [\w] of a pattern without the [u] flag. *)
Definition is_word (c : N) : bool :=
  ((97 <=? c) && (c <=? 122) || (65 <=? c) && (c <=? 90)
   || is_digit c || (c =? 95))%N.

Fixpoint drop_ws (s : jsstring) : jsstring :=
  match s with
  | c :: s' => if is_ws c then drop_ws s' else s
  | [] => []
  end.

(** [String.prototype.trim]. *)
Definition trim (s : jsstring) : jsstring :=
  rev (drop_ws (rev (drop_ws s))).

(** [String.prototype.toLowerCase], code unit by code unit.  It is exact
    below 256 and on the two code units above whose lower case contains
    an ASCII letter (U+0130 and the Kelvin sign U+212A); every other code
    unit is kept: its lower case is made of code units outside [\w], which
    no pattern of this program tells apart. *)
Definition lower_unit (c : N) : jsstring :=
  (if (65 <=? c) && (c <=? 90) then [c + 32]
   else if (192 <=? c) && (c <=? 222) && negb (c =? 215) then [c + 32]
   else if c =? 304 then [105; 775]
   else if c =? 8490 then [107]
   else [c])%N.

Definition toLowerCase (s : jsstring) : jsstring := flat_map lower_unit s.

(** Decimal digits of a natural number, most significant first. *)
Fixpoint decimal_fuel (fuel : nat) (n : N) (acc : jsstring) : jsstring :=
  match fuel with
  | O => acc
  | S f =>
      let acc' := (48 + n mod 10)%N :: acc in
      if (n <? 10)%N then acc' else decimal_fuel f (n / 10)%N acc'
  end.

Definition decimal (n : N) : jsstring :=
  decimal_fuel (S (N.to_nat (N.log2 n))) n [].

(** The [k] low decimal digits of [n], zero padded. *)
Fixpoint pad_decimal (k : nat) (n : Z) : jsstring :=
  match k with
  | O => []
  | S k' => pad_decimal k' (n / 10) ++ [Z.to_N (48 + n mod 10)]
  end.

(** ** Dates *)

Definition Date := Z.

Definition msPerDay : Z := 86400000.

(** [const x = new Date(d); x.setDate(x.getDate() + n)], as long as the
    result is a time value, at most 8.64e15 milliseconds from the epoch:
    past that the Date of the source is an invalid one, which the
    statements that depend on it rule out. *)
Definition Date_addDays (d : Date) (n : Z) : Date := d + n * msPerDay.

(** Day number (days since 1970-01-01) of a proleptic Gregorian date. *)
Definition days_from_civil (y m d : Z) : Z :=
  let y' := if m <=? 2 then y - 1 else y in
  let era := y' / 400 in
  let yoe := y' - era * 400 in
  let mp := if 2 <? m then m - 3 else m + 9 in
  let doy := (153 * mp + 2) / 5 + d - 1 in
  let doe := yoe * 365 + yoe / 4 - yoe / 100 + doy in
  era * 146097 + doe - 719468.

(** Year, month and day of a day number. *)
Definition civil_from_days (z0 : Z) : Z * Z * Z :=
  let z := z0 + 719468 in
  let era := z / 146097 in
  let doe := z - era * 146097 in
  let yoe := (doe - doe / 1460 + doe / 36524 - doe / 146096) / 365 in
  let doy := doe - (365 * yoe + yoe / 4 - yoe / 100) in
  let mp := (5 * doy + 2) / 153 in
  let d := doy - (153 * mp + 2) / 5 + 1 in
  let m := if mp <? 10 then mp + 3 else mp - 9 in
  let y := yoe + era * 400 in
  (if m <=? 2 then y + 1 else y, m, d).

(** The date part of [Date.prototype.toISOString]: four digits for the
    years 0 to 9999, a sign and six digits otherwise. *)
Definition iso_year (y : Z) : jsstring :=
  if (0 <=? y) && (y <=? 9999) then pad_decimal 4 y
  else (if y <? 0 then 45%N else 43%N) :: pad_decimal 6 (Z.abs y).

(** [toISODate]: [date.toISOString().split('T')[0]]. *)
Definition toISODate (date : Date) : jsstring :=
  let '(y, m, d) := civil_from_days (date / msPerDay) in
  iso_year y ++ [45%N] ++ pad_decimal 2 m ++ [45%N] ++ pad_decimal 2 d.

(** Value of a run of decimal digits. *)
Definition digits_value (s : jsstring) : Z :=
  fold_left (fun acc c => 10 * acc + (Z.of_N c - 48)) s 0.

(** [new Date(dateStr)] for a [dateStr] of the shape dddd-dd-dd: midnight
    UTC of that day.  As in V8, a month outside 1..12 or a day outside
    1..31 gives an Invalid Date, and a day past the end of its month runs
    over into the next month. *)
Definition Date_of_iso (dateStr : jsstring) : option Date :=
  let y := digits_value (firstn 4 dateStr) in
  let m := digits_value (firstn 2 (skipn 5 dateStr)) in
  let d := digits_value (firstn 2 (skipn 8 dateStr)) in
  if (1 <=? m) && (m <=? 12) && (1 <=? d) && (d <=? 31)
  then Some (days_from_civil y m d * msPerDay)
  else None.

(** ** Regular expressions *)

(** The fragment of the pattern syntax that the program uses. *)
Inductive regex : Type :=
| REps                        (* the empty pattern *)
| RChar (c : N)               (* a literal character *)
| RClass (p : N -> bool)      (* a class: [\d], [\s], [[\s\S]] *)
| RWordB                      (* the assertion [\b] *)
| RSeq (r1 r2 : regex)
| RAlt (r1 r2 : regex)
| ROpt (r : regex)            (* greedy [r?] *)
| RStar (r : regex).          (* greedy [r*] *)

Definition RPlus (r : regex) : regex := RSeq r (RStar r).

Fixpoint RRepeat (n : nat) (r : regex) : regex :=
  match n with
  | O => REps
  | S n' => RSeq r (RRepeat n' r)
  end.

(** A literal word, character by character. *)
Fixpoint RLit (s : jsstring) : regex :=
  match s with
  | [] => REps
  | c :: s' => RSeq (RChar c) (RLit s')
  end.

(** Canonicalize of a pattern without the [u] flag, as far as a pattern
    made of ASCII literals can observe it: a code unit of 128 or more
    never canonicalizes to one below 128. *)
Definition canonicalize (c : N) : N :=
  (if (97 <=? c) && (c <=? 122) then c - 32 else c)%N.

Definition char_matches (ignoreCase : bool) (c x : N) : bool :=
  if ignoreCase then (canonicalize c =? canonicalize x)%N else (c =? x)%N.

(** A position of the matcher in the input: the character before it, if
    any, and the rest of the input. *)
Definition mstate : Type := option N * jsstring.

Definition is_word_opt (o : option N) : bool :=
  match o with
  | Some c => is_word c
  | None => false
  end.

Definition at_word_boundary (st : mstate) : bool :=
  xorb (is_word_opt (fst st)) (is_word_opt (head (snd st))).

(** [consumed st st']: the position [st'] is strictly after [st]. *)
Definition consumed (st st' : mstate) : bool :=
  (length (snd st') <? length (snd st))%nat.

(** Greedy iteration of [step]; an iteration that consumes nothing is
    rejected, as ECMAScript does. *)
Fixpoint star_iter (step : mstate -> list mstate) (fuel : nat) (st : mstate)
  : list mstate :=
  match fuel with
  | O => [st]
  | S f =>
      flat_map (fun st' => if consumed st st' then star_iter step f st' else [])
               (step st) ++ [st]
  end.

(** The positions at which a match of [r] started at [st] can end, in the
    order of the backtracking matcher. *)
Fixpoint rmatch (ignoreCase : bool) (r : regex) (st : mstate) : list mstate :=
  match r with
  | REps => [st]
  | RChar c =>
      match snd st with
      | x :: rest => if char_matches ignoreCase c x then [(Some x, rest)] else []
      | [] => []
      end
  | RClass p =>
      match snd st with
      | x :: rest => if p x then [(Some x, rest)] else []
      | [] => []
      end
  | RWordB => if at_word_boundary st then [st] else []
  | RSeq r1 r2 => flat_map (rmatch ignoreCase r2) (rmatch ignoreCase r1 st)
  | RAlt r1 r2 => rmatch ignoreCase r1 st ++ rmatch ignoreCase r2 st
  | ROpt r1 => List.filter (consumed st) (rmatch ignoreCase r1 st) ++ [st]
  | RStar r1 => star_iter (rmatch ignoreCase r1) (length (snd st)) st
  end.

(** Number of characters between a position and a later one. *)
Definition match_length (st st' : mstate) : nat :=
  (length (snd st) - length (snd st'))%nat.

(** RegExpBuiltinExec from a position: the first position at or after it
    where the pattern matches, as (characters skipped, position of the
    start, position of the end). *)
Fixpoint exec_from (ignoreCase : bool) (r : regex) (skipped : nat)
    (prev : option N) (s : jsstring) : option (nat * mstate * mstate) :=
  match rmatch ignoreCase r (prev, s) with
  | st' :: _ => Some (skipped, (prev, s), st')
  | [] =>
      match s with
      | [] => None
      | c :: s' => exec_from ignoreCase r (S skipped) (Some c) s'
      end
  end.

(** [pattern.test(s)]. *)
Definition RegExp_test (ignoreCase : bool) (r : regex) (s : jsstring) : bool :=
  match exec_from ignoreCase r 0 None s with
  | Some _ => true
  | None => false
  end.

(** [s.match(pattern)[0]] for a pattern without the [g] flag; [None] when
    [match] returns null. *)
Definition String_match (ignoreCase : bool) (r : regex) (s : jsstring)
  : option jsstring :=
  match exec_from ignoreCase r 0 None s with
  | Some (_, st, st') => Some (firstn (match_length st st') (snd st))
  | None => None
  end.

(** [s.match(pattern)] for a pattern with the [g] flag: every match, left
    to right, each search starting where the previous match ended (one
    character further after an empty match).  The empty list stands for
    null. *)
Fixpoint match_all_from (ignoreCase : bool) (r : regex) (fuel : nat)
    (prev : option N) (s : jsstring) : list jsstring :=
  match fuel with
  | O => []
  | S f =>
      match exec_from ignoreCase r 0 prev s with
      | None => []
      | Some (_, st, st') =>
          let n := match_length st st' in
          firstn n (snd st) ::
            (if (n =? 0)%nat
             then match snd st with
                  | [] => []
                  | c :: s' => match_all_from ignoreCase r f (Some c) s'
                  end
             else match_all_from ignoreCase r f (fst st') (snd st'))
      end
  end.

Definition String_match_g (ignoreCase : bool) (r : regex) (s : jsstring)
  : list jsstring :=
  match_all_from ignoreCase r (S (length s)) None s.

(** The loop of [RegExp.prototype[Symbol.split]]: [acc] holds, reversed,
    the characters between the end of the last separator and the current
    position. *)
Fixpoint split_loop (ignoreCase : bool) (r : regex) (fuel : nat)
    (prev : option N) (acc : jsstring) (s : jsstring) : list jsstring :=
  match fuel with
  | O => [rev acc ++ s]
  | S f =>
      match s with
      | [] => [rev acc]
      | c :: s' =>
          match rmatch ignoreCase r (prev, s) with
          | st' :: _ =>
              if (match_length (prev, s) st' =? 0)%nat && bool_decide (acc = [])
              then split_loop ignoreCase r f (Some c) (c :: acc) s'
              else rev acc :: split_loop ignoreCase r f (fst st') [] (snd st')
          | [] => split_loop ignoreCase r f (Some c) (c :: acc) s'
          end
      end
  end.

(** [s.split(pattern)]. *)
Definition String_split (ignoreCase : bool) (r : regex) (s : jsstring)
  : list jsstring :=
  match s with
  | [] => match rmatch ignoreCase r (None, []) with
          | [] => [[]]
          | _ :: _ => []
          end
  | _ :: _ => split_loop ignoreCase r (2 * length s + 2) None [] s
  end.

(** ** JSON *)

(** A parsed JSON value.  A number keeps its decimal value
    [mantissa * 10 ^ exponent]; an object keeps its members in source
    order. *)
Inductive json : Type :=
| JNull
| JBool (b : bool)
| JNumber (mantissa exponent : Z)
| JString (s : jsstring)
| JArray (elements : list json)
| JObject (members : list (jsstring * json)).

Definition is_json_ws (c : N) : bool :=
  ((c =? 9) || (c =? 10) || (c =? 13) || (c =? 32))%N.

Fixpoint skip_json_ws (s : jsstring) : jsstring :=
  match s with
  | c :: s' => if is_json_ws c then skip_json_ws s' else s
  | [] => []
  end.

(** The input after the character [c], when it starts with it. *)
Definition starts_with (c : N) (s : jsstring) : option jsstring :=
  match s with
  | x :: rest => if (x =? c)%N then Some rest else None
  | [] => None
  end.

(** The input after the word [w], when it starts with it. *)
Fixpoint strip_prefix (w s : jsstring) : option jsstring :=
  match w with
  | [] => Some s
  | c :: w' =>
      match starts_with c s with
      | Some rest => strip_prefix w' rest
      | None => None
      end
  end.

(** Whitespace, then the character [c]. *)
Definition expect (c : N) (s : jsstring) : option jsstring :=
  starts_with c (skip_json_ws s).

Definition hex_value (c : N) : option N :=
  (if is_digit c then Some (c - 48)
   else if (97 <=? c) && (c <=? 102) then Some (c - 87)
   else if (65 <=? c) && (c <=? 70) then Some (c - 55)
   else None)%N.

Definition hex4 (a b c d : N) : option N :=
  match hex_value a, hex_value b, hex_value c, hex_value d with
  | Some x, Some y, Some z, Some w => Some (((x * 16 + y) * 16 + z) * 16 + w)%N
  | _, _, _, _ => None
  end.

(** The character that a single-character escape stands for. *)
Definition escape_char (e : N) : option N :=
  (if e =? 34 then Some 34
   else if e =? 92 then Some 92
   else if e =? 47 then Some 47
   else if e =? 98 then Some 8
   else if e =? 102 then Some 12
   else if e =? 110 then Some 10
   else if e =? 114 then Some 13
   else if e =? 116 then Some 9
   else None)%N.

(** The characters of a JSON string, after its opening quote, up to and
    including the closing one. *)
Fixpoint parse_string_chars (s : jsstring) (acc : jsstring)
  : option (jsstring * jsstring) :=
  match s with
  | [] => None
  | c :: rest =>
      if (c =? 34)%N then Some (rev acc, rest)
      else if (c =? 92)%N then
        match rest with
        | [] => None
        | e :: rest1 =>
            if (e =? 117)%N then
              match rest1 with
              | a :: b :: c' :: d :: rest2 =>
                  match hex4 a b c' d with
                  | Some u => parse_string_chars rest2 (u :: acc)
                  | None => None
                  end
              | _ => None
              end
            else
              match escape_char e with
              | Some x => parse_string_chars rest1 (x :: acc)
              | None => None
              end
        end
      else if (c <? 32)%N then None
      else parse_string_chars rest (c :: acc)
  end.

Fixpoint span_digits (s : jsstring) : jsstring * jsstring :=
  match s with
  | c :: s' =>
      if is_digit c
      then let '(ds, rest) := span_digits s' in (c :: ds, rest)
      else ([], s)
  | [] => ([], [])
  end.

(** A run of at least one digit. *)
Definition digits1 (s : jsstring) : option (jsstring * jsstring) :=
  match span_digits s with
  | ([], _) => None
  | (ds, rest) => Some (ds, rest)
  end.

Definition parse_fraction (s : jsstring) : option (jsstring * jsstring) :=
  match starts_with 46 s with
  | Some s1 => digits1 s1
  | None => Some ([], s)
  end.

Definition parse_exponent (s : jsstring) : option (Z * jsstring) :=
  match s with
  | c :: s1 =>
      if ((c =? 101) || (c =? 69))%N then
        let '(neg, s2) :=
          match starts_with 45 s1, starts_with 43 s1 with
          | Some t, _ => (true, t)
          | None, Some t => (false, t)
          | None, None => (false, s1)
          end in
        match digits1 s2 with
        | Some (ds, rest) =>
            Some (if neg then - digits_value ds else digits_value ds, rest)
        | None => None
        end
      else Some (0, s)
  | [] => Some (0, s)
  end.

Definition parse_number (s : jsstring) : option (json * jsstring) :=
  let '(neg, s1) :=
    match starts_with 45 s with
    | Some t => (true, t)
    | None => (false, s)
    end in
  match digits1 s1 with
  | None => None
  | Some (ds, s2) =>
      if match ds with c :: _ :: _ => (c =? 48)%N | _ => false end then None
      else
        match parse_fraction s2 with
        | None => None
        | Some (fs, s3) =>
            match parse_exponent s3 with
            | None => None
            | Some (e, s4) =>
                let m := digits_value (ds ++ fs) in
                Some (JNumber (if neg then - m else m)
                              (e - Z.of_nat (length fs)), s4)
            end
        end
  end.

(** What follows a member or an element: a comma, the closing bracket
    [close], or something else. *)
Inductive separator : Type :=
| Comma (rest : jsstring)
| Close (rest : jsstring)
| NoSeparator.

Definition next_separator (close : N) (s : jsstring) : separator :=
  match skip_json_ws s with
  | x :: rest =>
      if (x =? 44)%N then Comma rest
      else if (x =? close)%N then Close rest
      else NoSeparator
  | [] => NoSeparator
  end.

(** The name of a member and its colon. *)
Definition member_key (s : jsstring) : option (jsstring * jsstring) :=
  match expect 34 s with
  | Some s1 =>
      match parse_string_chars s1 [] with
      | Some (k, s2) =>
          match expect 58 s2 with
          | Some s3 => Some (k, s3)
          | None => None
          end
      | None => None
      end
  | None => None
  end.

(** A literal name, or else a number. *)
Definition parse_literal (s : jsstring) : option (json * jsstring) :=
  match strip_prefix (js "true") s with
  | Some rest => Some (JBool true, rest)
  | None =>
      match strip_prefix (js "false") s with
      | Some rest => Some (JBool false, rest)
      | None =>
          match strip_prefix (js "null") s with
          | Some rest => Some (JNull, rest)
          | None => parse_number s
          end
      end
  end.

Fixpoint parse_value (fuel : nat) (s : jsstring) : option (json * jsstring) :=
  match fuel with
  | O => None
  | S f =>
      match skip_json_ws s with
      | [] => None
      | c :: s1 =>
          if (c =? 123)%N then
            match expect 125 s1 with
            | Some s2 => Some (JObject [], s2)
            | None =>
                match parse_members f s1 with
                | Some (kvs, s2) => Some (JObject kvs, s2)
                | None => None
                end
            end
          else if (c =? 91)%N then
            match expect 93 s1 with
            | Some s2 => Some (JArray [], s2)
            | None =>
                match parse_elements f s1 with
                | Some (vs, s2) => Some (JArray vs, s2)
                | None => None
                end
            end
          else if (c =? 34)%N then
            match parse_string_chars s1 [] with
            | Some (str, s2) => Some (JString str, s2)
            | None => None
            end
          else parse_literal (c :: s1)
      end
  end
with parse_members (fuel : nat) (s : jsstring)
  : option (list (jsstring * json) * jsstring) :=
  match fuel with
  | O => None
  | S f =>
      match member_key s with
      | None => None
      | Some (k, s3) =>
          match parse_value f s3 with
          | None => None
          | Some (v, s4) =>
              match next_separator 125 s4 with
              | Comma s5 =>
                  match parse_members f s5 with
                  | Some (kvs, s6) => Some ((k, v) :: kvs, s6)
                  | None => None
                  end
              | Close s5 => Some ([(k, v)], s5)
              | NoSeparator => None
              end
          end
      end
  end
with parse_elements (fuel : nat) (s : jsstring)
  : option (list json * jsstring) :=
  match fuel with
  | O => None
  | S f =>
      match parse_value f s with
      | None => None
      | Some (v, s1) =>
          match next_separator 93 s1 with
          | Comma s2 =>
              match parse_elements f s2 with
              | Some (vs, s3) => Some (v :: vs, s3)
              | None => None
              end
          | Close s2 => Some ([v], s2)
          | NoSeparator => None
          end
      end
  end.

(** Fuel that the three parsers never exhaust on [text]: a nesting level
    uses two units of it, and one character at least. *)
Definition JSON_fuel (text : jsstring) : nat := 2 * length text + 2.

(** [JSON.parse(text)]; [None] when it throws a SyntaxError. *)
Definition JSON_parse (text : jsstring) : option json :=
  match parse_value (JSON_fuel text) text with
  | Some (v, rest) =>
      match skip_json_ws rest with
      | [] => Some v
      | _ :: _ => None
      end
  | None => None
  end.

(** [response.key] on a parsed value: [None] is [undefined].  With
    duplicate member names the last one wins; only an object has own
    properties named [summary] or [focus]. *)
Definition get_member (response : json) (key : jsstring) : option json :=
  match response with
  | JObject members =>
      fold_left (fun acc kv => if jsstring_eqb (fst kv) key then Some (snd kv) else acc)
                members None
  | _ => None
  end.

(** A number literal that denotes zero as a binary64 number: a zero
    mantissa, or a magnitude of at most 2^-1075. *)
Definition number_is_zero (m e : Z) : bool :=
  (m =? 0) || (e <? 0) && (Z.abs m * 2 ^ 1075 <=? 10 ^ (- e)).

(** ToBoolean. *)
Definition truthy (v : option json) : bool :=
  match v with
  | None => false
  | Some JNull => false
  | Some (JBool b) => b
  | Some (JNumber m e) => negb (number_is_zero m e)
  | Some (JString s) => negb (bool_decide (s = []))
  | Some (JArray _) => true
  | Some (JObject _) => true
  end.

(** ** Errors and results *)

(** One constructor per [throw] of the source (every one of them throws a
    plain [Error] with its own message), plus the two failures that come
    from outside: a [SyntaxError] of [JSON.parse] and a rejection of
    [llm.executeLLM]. *)
Inductive Error : Type :=
| InvalidRating            (* 'Rating must be in {-2, -1, 0, 1, 2}' *)
| EntryExists              (* 'Entry already exists for user ...' *)
| EntryNotFound            (* 'Entry ... not found' *)
| NoEntries                (* 'No entries found for user ... in week ...' *)
| LLMFailure               (* executeLLM rejected *)
| NoJSONFound              (* 'No JSON found in LLM response' *)
| JSONSyntaxError          (* JSON.parse threw *)
| MissingSummaryOrFocus    (* '... missing summary or focus' *)
| NotStrings               (* '... summary and focus must be strings' *)
| V1_ExtraKeys (extraKeys : list jsstring)
| V1_EmptySummary
| V1_EmptyFocus
| V1_SummaryWords (summaryWords : nat)
| V1_FocusWords (focusWords : nat)
| V2_URL
| V2_Date (dateStr : jsstring)
| V3_NoImperative
| V3_NoTimebox.

Inductive Result (A : Type) : Type :=
| Ok (a : A)
| Throw (e : Error).

Arguments Ok {A} a.
Arguments Throw {A} e.

(** The error classes of the specification. *)
Definition is_ParseError (e : Error) : bool :=
  match e with
  | NoJSONFound | JSONSyntaxError | MissingSummaryOrFocus | NotStrings => true
  | _ => false
  end.

Definition is_ShapeError (e : Error) : bool :=
  match e with
  | V1_ExtraKeys _ | V1_EmptySummary | V1_EmptyFocus
  | V1_SummaryWords _ | V1_FocusWords _ => true
  | _ => false
  end.

Definition is_WindowError (e : Error) : bool :=
  match e with
  | V2_URL | V2_Date _ => true
  | _ => false
  end.

Definition is_ActionabilityError (e : Error) : bool :=
  match e with
  | V3_NoImperative | V3_NoTimebox => true
  | _ => false
  end.

(** ** The parser of the reply *)

(** The object literal [{ summary, focus }] that [parseLLMResponse]
    returns and the validators receive. *)
Record LLMResult : Type := mkLLMResult {
  summary : jsstring;
  focus : jsstring
}.

(** [Object.keys] of that object literal. *)
Definition Object_keys (result : LLMResult) : list jsstring :=
  [js "summary"; js "focus"].

(** [/\{[\s\S]*\}/] *)
Definition jsonPattern : regex :=
  RSeq (RChar 123) (RSeq (RStar (RClass (fun c => is_ws c || negb (is_ws c))))
                         (RChar 125)).

Definition parseLLMResponse (responseText : jsstring) : Result LLMResult :=
  match String_match false jsonPattern responseText with
  | None => Throw NoJSONFound
  | Some jsonMatch =>
      match JSON_parse jsonMatch with
      | None => Throw JSONSyntaxError
      | Some response =>
          let response_summary := get_member response (js "summary") in
          let response_focus := get_member response (js "focus") in
          if negb (truthy response_summary) || negb (truthy response_focus)
          then Throw MissingSummaryOrFocus
          else
            match response_summary, response_focus with
            | Some (JString s), Some (JString f) =>
                Ok {| summary := s; focus := f |}
            | _, _ => Throw NotStrings
            end
      end
  end.

(** ** The validators *)

(** [/\s+/] *)
Definition wsPattern : regex := RPlus (RClass is_ws).

(** [text.trim().split(/\s+/).length] *)
Definition wordCount (text : jsstring) : nat :=
  length (String_split false wsPattern (trim text)).

(** [!text || text.trim().length === 0] *)
Definition blank (text : jsstring) : bool :=
  bool_decide (text = []) || (length (trim text) =? 0)%nat.

Definition validateV1_ShapeAndLimits (result : LLMResult) : Result unit :=
  let keys := Object_keys result in
  let allowedKeys := [js "summary"; js "focus"] in
  let extraKeys := List.filter (fun k => negb (includes allowedKeys k)) keys in
  if (0 <? length extraKeys)%nat then Throw (V1_ExtraKeys extraKeys)
  else if blank (summary result) then Throw V1_EmptySummary
  else if blank (focus result) then Throw V1_EmptyFocus
  else
    let summaryWords := wordCount (summary result) in
    let focusWords := wordCount (focus result) in
    if (120 <? summaryWords)%nat then Throw (V1_SummaryWords summaryWords)
    else if (60 <? focusWords)%nat then Throw (V1_FocusWords focusWords)
    else Ok tt.

(** [/https?:\/\//i] *)
Definition urlPattern : regex :=
  RSeq (RLit (js "http")) (RSeq (ROpt (RChar 115)) (RLit (js "://"))).

(** [/\b\d{4}-\d{2}-\d{2}\b/g] *)
Definition isoDatePattern : regex :=
  RSeq RWordB
    (RSeq (RRepeat 4 (RClass is_digit))
       (RSeq (RChar 45)
          (RSeq (RRepeat 2 (RClass is_digit))
             (RSeq (RChar 45)
                (RSeq (RRepeat 2 (RClass is_digit)) RWordB))))).

(** [date < weekStart || date > weekEnd]; an Invalid Date compares false
    both ways. *)
Definition outside_window (date : option Date) (weekStart weekEnd : Date)
  : bool :=
  match date with
  | Some t => (t <? weekStart) || (weekEnd <? t)
  | None => false
  end.

Definition combinedText (result : LLMResult) : jsstring :=
  summary result ++ js " " ++ focus result.

Definition validateV2_WindowAndLinks (result : LLMResult) (weekStart : Date)
  : Result unit :=
  let weekEnd := Date_addDays weekStart 6 in
  if RegExp_test true urlPattern (combinedText result) then Throw V2_URL
  else
    let matches := String_match_g false isoDatePattern (combinedText result) in
    match List.find (fun dateStr =>
                       outside_window (Date_of_iso dateStr) weekStart weekEnd)
                    matches with
    | Some dateStr => Throw (V2_Date dateStr)
    | None => Ok tt
    end.

Definition imperativeVerbs : list jsstring :=
  [js "schedule"; js "plan"; js "block"; js "review"; js "write"; js "read";
   js "practice"; js "prepare"; js "email"; js "call"; js "draft"; js "set"].

(** [new RegExp(`\\b${verb}\\b`, 'i')] *)
Definition verbPattern (verb : jsstring) : regex :=
  RSeq RWordB (RSeq (RLit verb) RWordB).

(** [/\b\d+\s?(min|minutes?|hours?)\b|\bdaily\b|\bweekly\b|\bmorning\b|\bevening\b/i] *)
Definition timeboxPattern : regex :=
  RAlt
    (RSeq RWordB
       (RSeq (RPlus (RClass is_digit))
          (RSeq (ROpt (RClass is_ws))
             (RSeq (RAlt (RLit (js "min"))
                      (RAlt (RSeq (RLit (js "minute")) (ROpt (RChar 115)))
                            (RSeq (RLit (js "hour")) (ROpt (RChar 115)))))
                   RWordB))))
    (RAlt (RSeq RWordB (RSeq (RLit (js "daily")) RWordB))
       (RAlt (RSeq RWordB (RSeq (RLit (js "weekly")) RWordB))
          (RAlt (RSeq RWordB (RSeq (RLit (js "morning")) RWordB))
                (RSeq RWordB (RSeq (RLit (js "evening")) RWordB))))).

Definition validateV3_Actionability (result : LLMResult) : Result unit :=
  let focusLower := toLowerCase (focus result) in
  let hasImperative :=
    existsb (fun verb => RegExp_test true (verbPattern verb) focusLower)
            imperativeVerbs in
  if negb hasImperative then Throw V3_NoImperative
  else if negb (RegExp_test true timeboxPattern (focus result))
  then Throw V3_NoTimebox
  else Ok tt.

Definition validateLLMOutput (result : LLMResult) (weekStart : Date)
  : Result unit :=
  match validateV1_ShapeAndLimits result with
  | Throw e => Throw e
  | Ok _ =>
      match validateV2_WindowAndLinks result weekStart with
      | Throw e => Throw e
      | Ok _ => validateV3_Actionability result
      end
  end.

(** ** The store *)

Record JournalEntry : Type := mkJournalEntry {
  id : jsstring;
  userId : jsstring;
  date : Date;
  gratitude : jsstring;
  didToday : jsstring;
  proudOf : jsstring;
  tomorrowPlan : jsstring;
  rating : Z
}.

Record WeeklySummary : Type := mkWeeklySummary {
  ws_userId : jsstring;
  ws_weekStart : Date;
  ws_weekEnd : Date;
  ws_entryCount : nat;
  ws_avgRating : float;
  ws_missingDays : list jsstring;
  ws_summary : jsstring;
  ws_focus : jsstring;
  ws_sourceEntryIds : list jsstring;
  ws_generatedAt : Date
}.

Inductive PromptVariant : Type := base | compressed | strict | actionable.

(** A [Map] whose iteration order the program observes: the bindings in
    insertion order, at most one per key. *)
Definition Map_has {V : Type} (m : list (jsstring * V)) (k : jsstring) : bool :=
  existsb (fun kv => jsstring_eqb (fst kv) k) m.

Fixpoint Map_set {V : Type} (m : list (jsstring * V)) (k : jsstring) (v : V)
  : list (jsstring * V) :=
  match m with
  | [] => [(k, v)]
  | kv :: m' =>
      if jsstring_eqb (fst kv) k then (k, v) :: m' else kv :: Map_set m' k v
  end.

Definition Map_delete {V : Type} (m : list (jsstring * V)) (k : jsstring)
  : list (jsstring * V) :=
  List.filter (fun kv => negb (jsstring_eqb (fst kv) k)) m.

Definition Map_values {V : Type} (m : list (jsstring * V)) : list V :=
  List.map snd m.

(** The private state of the class. *)
Record JournalEntries : Type := mkJournalEntries {
  entries : list (jsstring * JournalEntry);
  weeklySummaries : gmap jsstring WeeklySummary;
  nextId : N
}.

(** [new JournalEntries()] *)
Definition new_JournalEntries : JournalEntries :=
  {| entries := []; weeklySummaries := ∅; nextId := 1 |}.

Definition getDateKey (userId : jsstring) (date : Date) : jsstring :=
  userId ++ js ":" ++ toISODate date.

Definition getWeeklySummaryKey (userId : jsstring) (weekStart : Date)
  : jsstring :=
  userId ++ js ":" ++ toISODate weekStart.

(** [[-2, -1, 0, 1, 2].includes(rating)] *)
Definition valid_rating (rating : Z) : bool :=
  existsb (Z.eqb rating) [-2; -1; 0; 1; 2].

Definition createEntry (this : JournalEntries) (userId : jsstring)
    (date : Date) (gratitude didToday proudOf tomorrowPlan : jsstring)
    (rating : Z) : Result JournalEntry * JournalEntries :=
  if negb (valid_rating rating) then (Throw InvalidRating, this)
  else
    let dateKey := getDateKey userId date in
    if Map_has (entries this) dateKey then (Throw EntryExists, this)
    else
      let entry :=
        {| id := js "entry-" ++ decimal (nextId this);
           userId := userId;
           date := date;
           gratitude := gratitude;
           didToday := didToday;
           proudOf := proudOf;
           tomorrowPlan := tomorrowPlan;
           rating := rating |} in
      (Ok entry,
       {| entries := Map_set (entries this) dateKey entry;
          weeklySummaries := weeklySummaries this;
          nextId := (nextId this + 1)%N |}).

Definition findEntryById (this : JournalEntries) (entryId : jsstring)
  : option JournalEntry :=
  List.find (fun e => jsstring_eqb (id e) entryId) (Map_values (entries this)).

(** The [updates] argument of [editEntry]; [None] is [undefined]. *)
Record EntryUpdates : Type := mkEntryUpdates {
  u_gratitude : option jsstring;
  u_didToday : option jsstring;
  u_proudOf : option jsstring;
  u_tomorrowPlan : option jsstring;
  u_rating : option Z
}.

(** The five conditional assignments of [editEntry]. *)
Definition apply_updates (updates : EntryUpdates) (entry : JournalEntry)
  : JournalEntry :=
  {| id := id entry;
     userId := userId entry;
     date := date entry;
     gratitude := default (gratitude entry) (u_gratitude updates);
     didToday := default (didToday entry) (u_didToday updates);
     proudOf := default (proudOf entry) (u_proudOf updates);
     tomorrowPlan := default (tomorrowPlan entry) (u_tomorrowPlan updates);
     rating := default (rating entry) (u_rating updates) |}.

(** Assignment to the fields of the object that [findEntryById] returned:
    the first value of the map, in iteration order, with that id. *)
Fixpoint mutate_first (entryId : jsstring) (f : JournalEntry -> JournalEntry)
    (m : list (jsstring * JournalEntry)) : list (jsstring * JournalEntry) :=
  match m with
  | [] => []
  | kv :: m' =>
      if jsstring_eqb (id (snd kv)) entryId then (fst kv, f (snd kv)) :: m'
      else kv :: mutate_first entryId f m'
  end.

Definition editEntry (this : JournalEntries) (entryId : jsstring)
    (updates : EntryUpdates) : Result JournalEntry * JournalEntries :=
  match findEntryById this entryId with
  | None => (Throw EntryNotFound, this)
  | Some entry =>
      if match u_rating updates with
         | Some r => negb (valid_rating r)
         | None => false
         end
      then (Throw InvalidRating, this)
      else
        (Ok (apply_updates updates entry),
         {| entries := mutate_first entryId (apply_updates updates) (entries this);
            weeklySummaries := weeklySummaries this;
            nextId := nextId this |})
  end.

Definition deleteEntry (this : JournalEntries) (entryId : jsstring)
  : Result unit * JournalEntries :=
  match findEntryById this entryId with
  | None => (Throw EntryNotFound, this)
  | Some entry =>
      let dateKey := getDateKey (userId entry) (date entry) in
      (Ok tt,
       {| entries := Map_delete (entries this) dateKey;
          weeklySummaries := weeklySummaries this;
          nextId := nextId this |})
  end.

(** [Array.prototype.sort] with the comparator
    [(a, b) => a.date.getTime() - b.date.getTime()]: a stable sort. *)
Fixpoint insert_by_date (e : JournalEntry) (l : list JournalEntry)
  : list JournalEntry :=
  match l with
  | [] => [e]
  | x :: l' =>
      if date e <=? date x then e :: x :: l' else x :: insert_by_date e l'
  end.

Definition sort_by_date (l : list JournalEntry) : list JournalEntry :=
  fold_right insert_by_date [] l.

Definition getEntriesForUser (this : JournalEntries) (user : jsstring)
  : list JournalEntry :=
  sort_by_date
    (List.filter (fun e => jsstring_eqb (userId e) user)
                 (Map_values (entries this))).

Definition getEntriesInRange (this : JournalEntries) (user : jsstring)
    (startDate endDate : Date) : list JournalEntry :=
  sort_by_date
    (List.filter (fun e => jsstring_eqb (userId e) user
                           && (startDate <=? date e) && (date e <=? endDate))
                 (Map_values (entries this))).

Definition getWeeklySummary (this : JournalEntries) (user : jsstring)
    (weekStart : Date) : option WeeklySummary :=
  weeklySummaries this !! getWeeklySummaryKey user weekStart.

(** ** The weekly aggregates *)

(** The Number of an integer (exact below 2^53 in magnitude). *)
Definition Z2F (z : Z) : float :=
  if z <? 0 then PrimFloat.opp (PrimFloat.of_uint63 (Uint63.of_Z (- z)))
  else PrimFloat.of_uint63 (Uint63.of_Z z).

(** [Math.round]: the nearest integer, a tie going up; computed exactly
    on the mantissa and exponent of the argument. *)
Definition Math_round (x : float) : float :=
  match Prim2SF x with
  | S754_finite s m e =>
      if 0 <=? e then x
      else
        let twice := if s then - (2 * Z.pos m) else 2 * Z.pos m in
        let n := (twice + 2 ^ (- e)) / 2 ^ (1 - e) in
        if n =? 0 then (if s then (-0)%float else 0%float) else Z2F n
  | _ => x
  end.

Definition entryCount (weekEntries : list JournalEntry) : nat :=
  length weekEntries.

(** [weekEntries.filter(e => e.rating !== undefined).map(e => e.rating)];
    a stored rating is never undefined. *)
Definition ratings (weekEntries : list JournalEntry) : list Z :=
  List.map rating (List.filter (fun e => true) weekEntries).

Definition avgRating (weekEntries : list JournalEntry) : float :=
  let rs := ratings weekEntries in
  if (0 <? length rs)%nat
  then
    PrimFloat.div
      (Math_round
         (PrimFloat.mul
            (PrimFloat.div
               (fold_left (fun sum r => PrimFloat.add sum (Z2F r)) rs 0%float)
               (Z2F (Z.of_nat (length rs))))
            100%float))
      100%float
  else 0%float.

(** The loop [for (let i = 0; i < 7; i++)] over the days of the window. *)
Definition missingDays (weekEntries : list JournalEntry) (weekStart : Date)
  : list jsstring :=
  let entryDates := List.map (fun e => toISODate (date e)) weekEntries in
  fold_left
    (fun missing i =>
       let checkDate := Date_addDays weekStart (Z.of_nat i) in
       let isoDate := toISODate checkDate in
       if negb (includes entryDates isoDate) then missing ++ [isoDate]
       else missing)
    (seq 0 7) [].

Definition sourceEntryIds (weekEntries : list JournalEntry) : list jsstring :=
  List.map id weekEntries.

(** ** The synthesis *)

(** The request sent to the text-generation service.  Its text is a
    function of the six arguments of [createWeeklySummaryPrompt]; the
    model keeps the arguments rather than their rendering. *)
Record Prompt : Type := createWeeklySummaryPrompt {
  p_entries : list JournalEntry;
  p_entryCount : nat;
  p_avgRating : float;
  p_missingDays : list jsstring;
  p_weekStart : Date;
  p_variant : PromptVariant
}.

(** What [await llm.executeLLM(prompt)] resumes with. *)
Inductive LLMReply : Type :=
| Replied (responseText : jsstring)
| Rejected.

(** An asynchronous method with at most one suspension point: either it
    throws before suspending, or it sends a prompt and continues from the
    reply, the clock and the store as they are when it resumes. *)
Inductive Async (A : Type) : Type :=
| ThrowsBefore (e : Error)
| AwaitLLM (prompt : Prompt)
           (resume : LLMReply -> Date -> JournalEntries
                     -> Result A * JournalEntries).

Arguments ThrowsBefore {A} e.
Arguments AwaitLLM {A} prompt resume.

(** [summarizeWeek] from the reply on (lines 175 to 203). *)
Definition summarizeWeek_resume (userId : jsstring) (weekStart weekEnd : Date)
    (weekEntries : list JournalEntry) (reply : LLMReply) (now : Date)
    (this : JournalEntries) : Result WeeklySummary * JournalEntries :=
  match reply with
  | Rejected => (Throw LLMFailure, this)
  | Replied responseText =>
      match parseLLMResponse responseText with
      | Throw e => (Throw e, this)
      | Ok llmResult =>
          match validateLLMOutput llmResult weekStart with
          | Throw e => (Throw e, this)
          | Ok _ =>
              let summaryKey := getWeeklySummaryKey userId weekStart in
              let weeklySummary :=
                {| ws_userId := userId;
                   ws_weekStart := weekStart;
                   ws_weekEnd := weekEnd;
                   ws_entryCount := entryCount weekEntries;
                   ws_avgRating := avgRating weekEntries;
                   ws_missingDays := missingDays weekEntries weekStart;
                   ws_summary := summary llmResult;
                   ws_focus := focus llmResult;
                   ws_sourceEntryIds := sourceEntryIds weekEntries;
                   ws_generatedAt := now |} in
              (Ok weeklySummary,
               {| entries := entries this;
                  weeklySummaries :=
                    <[summaryKey := weeklySummary]> (weeklySummaries this);
                  nextId := nextId this |})
          end
      end
  end.

Definition summarizeWeek (this : JournalEntries) (userId : jsstring)
    (weekStart : Date) (promptVariant : PromptVariant) : Async WeeklySummary :=
  let weekEnd := Date_addDays weekStart 6 in
  let weekEntries := getEntriesInRange this userId weekStart weekEnd in
  if (length weekEntries =? 0)%nat then ThrowsBefore NoEntries
  else
    let prompt :=
      createWeeklySummaryPrompt weekEntries (entryCount weekEntries)
        (avgRating weekEntries) (missingDays weekEntries weekStart)
        weekStart promptVariant in
    AwaitLLM prompt (summarizeWeek_resume userId weekStart weekEnd weekEntries).

(** A call run to completion against a given service, with nothing else
    touching the store while it is suspended: the result, the store
    afterwards, and the prompts that were sent. *)
Definition run_summarizeWeek (llm : Prompt -> LLMReply) (now : Date)
    (this : JournalEntries) (userId : jsstring) (weekStart : Date)
    (promptVariant : PromptVariant)
  : Result WeeklySummary * JournalEntries * list Prompt :=
  match summarizeWeek this userId weekStart promptVariant with
  | ThrowsBefore e => (Throw e, this, [])
  | AwaitLLM prompt resume => (resume (llm prompt) now this, [prompt])
  end.

(** ** Stores that the public methods can produce *)

(** The stores reachable from [new JournalEntries()] by the public
    methods.  A [summarizeWeek] call may start in one reachable store and
    resume in another: other methods can run while it is suspended. *)
Inductive reachable : JournalEntries -> Prop :=
| reach_new : reachable new_JournalEntries
| reach_createEntry this u d g dt p t r :
    reachable this -> reachable (snd (createEntry this u d g dt p t r))
| reach_editEntry this entryId updates :
    reachable this -> reachable (snd (editEntry this entryId updates))
| reach_deleteEntry this entryId :
    reachable this -> reachable (snd (deleteEntry this entryId))
| reach_summarizeWeek this0 this u w v prompt resume reply now :
    reachable this0 -> reachable this ->
    summarizeWeek this0 u w v = AwaitLLM prompt resume ->
    reachable (snd (resume reply now this)).

(** Every binding of [entries] sits under the key of its entry, keys are
    not repeated, and ratings are valid. *)
Definition entries_ok (this : JournalEntries) : Prop :=
  List.NoDup (List.map fst (entries this))
  /\ Forall (fun kv => fst kv = getDateKey (userId (snd kv)) (date (snd kv))
                       /\ valid_rating (rating (snd kv)) = true)
            (entries this).

(** At most one JournalEntry per (user, date). *)
Definition one_entry_per_day (this : JournalEntries) : Prop :=
  List.NoDup (List.map (fun e => (userId e, toISODate (date e)))
                       (Map_values (entries this))).

(** Every stored summary sits under the key of its user and week. *)
Definition summaries_ok (this : JournalEntries) : Prop :=
  forall k s, weeklySummaries this !! k = Some s ->
              k = getWeeklySummaryKey (ws_userId s) (ws_weekStart s).

(** The stored summaries of a user for a week. *)
Definition summaries_for (this : JournalEntries) (user : jsstring)
    (weekStart : Date) : gmap jsstring WeeklySummary :=
  filter (fun ks => ws_userId (snd ks) = user
                    /\ toISODate (ws_weekStart (snd ks)) = toISODate weekStart)
         (weeklySummaries this).

(** What [editEntry] may change in an entry: nothing but the fields that
    [updates] provides. *)
Definition edited_by (updates : EntryUpdates) (e e' : JournalEntry) : Prop :=
  id e' = id e /\ userId e' = userId e /\ date e' = date e
  /\ gratitude e' = default (gratitude e) (u_gratitude updates)
  /\ didToday e' = default (didToday e) (u_didToday updates)
  /\ proudOf e' = default (proudOf e) (u_proudOf updates)
  /\ tomorrowPlan e' = default (tomorrowPlan e) (u_tomorrowPlan updates)
  /\ rating e' = default (rating e) (u_rating updates).

(** ** A scenario

    Experiment 1 of the scenarios runner, on a machine whose time zone is
    UTC: two entries, on Monday 2025-10-06 and on the Thursday after, and
    the replies of the two mock services. *)

Definition monday : Date := 1759708800000.

Definition exp1_store : JournalEntries :=
  snd (createEntry
         (snd (createEntry new_JournalEntries (js "user-exp1") monday
                 (js "Grateful for a fresh start")
                 (js "Started new project, went for a walk")
                 (js "Took initiative on new work")
                 (js "Continue building momentum") 1))
         (js "user-exp1") (Date_addDays monday 3)
         (js "Thankful for progress")
         (js "Made good headway on project")
         (js "Stayed focused despite challenges")
         (js "Keep pushing forward") 1).

Definition exp1_failing_reply : jsstring :=
  jsq "{'summary':'This week showed steady progress on a new project. Check out https://example.com for more tips. The user maintained focus and initiative despite having only two entries.','focus':'Continue the momentum by scheduling dedicated project time daily.'}".

Definition exp1_passing_reply : jsstring :=
  jsq "{'summary':'This week showed steady progress on a new project with two recorded entries. The user maintained focus and initiative, starting fresh on Monday and making good headway by Thursday despite challenges.','focus':'Schedule 30 minutes daily for focused project work to maintain momentum and continue building on current progress.'}".

(** A second accepted reply, and one that carries a key besides
    [summary] and [focus]. *)
Definition other_passing_reply : jsstring :=
  jsq "{'summary':'Two entries, both rated 1.','focus':'Plan a 10 minutes review every morning.'}".

Definition extra_key_reply : jsstring :=
  jsq "{'summary':'Two entries, both rated 1.','focus':'Plan a 10 minutes review every morning.','confidence':0.9}".

(** The store of the error-handling test: one entry of another user. *)
Definition store_ex : JournalEntries :=
  snd (createEntry new_JournalEntries (js "user-error") 1759708800000
         (js "Test") (js "Test") (js "Test") (js "Test") 1).

(** The summary that a synthesis for the scenario returns on a reply. *)
Definition exp1_summary (reply : jsstring) (now : Date) : WeeklySummary :=
  match fst (fst (run_summarizeWeek (fun _ => Replied reply) now exp1_store
                    (js "user-exp1") monday strict)) with
  | Ok s => s
  | Throw _ => mkWeeklySummary [] 0 0 0 0%float [] [] [] [] 0
  end.

(** ** The aggregates, as the specification words them *)

(** The seven calendar dates of the window, in order. *)
Definition window_days (weekStart : Date) : list jsstring :=
  List.map (fun i => toISODate (Date_addDays weekStart (Z.of_nat i))) (seq 0 7).

Definition sum_Z (l : list Z) : Z := fold_right Z.add 0 l.

(** [k] hundredths is the mean of [rs] rounded to two decimal places:
    [k] is an integer nearest to a hundred times the mean. *)
Definition rounded_mean (rs : list Z) (k : Z) : Prop :=
  2 * Z.abs (100 * sum_Z rs - k * Z.of_nat (length rs)) <= Z.of_nat (length rs).

Definition year_of (d : Date) : Z := fst (fst (civil_from_days (d / msPerDay))).

(** The shape YYYY-MM-DD. *)
Definition iso_date_shape (s : jsstring) : bool :=
  match s with
  | [y1; y2; y3; y4; h1; m1; m2; h2; d1; d2] =>
      forallb is_digit [y1; y2; y3; y4; m1; m2; d1; d2]
      && (h1 =? 45)%N && (h2 =? 45)%N
  | _ => false
  end.

(** The entries of a user in a window, in the order of the map. *)
Definition entries_in_window (this : JournalEntries) (user : jsstring)
    (weekStart : Date) : list JournalEntry :=
  List.filter (fun e => jsstring_eqb (userId e) user
                        && (weekStart <=? date e)
                        && (date e <=? Date_addDays weekStart 6))
              (Map_values (entries this)).

(** ** The texts, as the specification words them *)

(** The last character of [m], or [p] when [m] is empty: the character
    before a position that comes after [m]. *)
Definition last_or (p : option N) (m : jsstring) : option N :=
  fold_left (fun _ c => Some c) m p.

(** [m] is the word [w] up to the case of ASCII letters. *)
Definition same_word (w m : jsstring) : Prop :=
  Forall2 (fun c x => canonicalize c = canonicalize x) w m.

(** Between [pre] and [post] stands a whole word: the character before
    it, if any, and the character after it, if any, are not word
    characters. *)
Definition delimited (pre post : jsstring) : Prop :=
  is_word_opt (last_or None pre) = false /\ is_word_opt (head post) = false.


Definition has_whole_word (w text : jsstring) : Prop :=
  exists pre mid post,
    text = pre ++ mid ++ post /\ same_word w mid /\ delimited pre post.


(** [tok] is an ISO calendar-date token of the text. *)
Definition has_date_token (tok text : jsstring) : Prop :=
  exists pre post,
    text = pre ++ tok ++ post /\ iso_date_shape tok = true /\ delimited pre post.

(** Number of maximal runs of characters that satisfy [p]. *)
Fixpoint count_runs (p : N -> bool) (inside : bool) (s : jsstring) : nat :=
  match s with
  | [] => O
  | c :: s' =>
      if p c then (if inside then O else 1%nat) + count_runs p true s'
      else count_runs p false s'
  end.

(** Number of whitespace-delimited words. *)
Definition count_words (s : jsstring) : nat :=
  count_runs (fun c => negb (is_ws c)) false s.

(** Empty after trimming whitespace: made of whitespace only. *)
Definition all_ws (s : jsstring) : Prop := Forall (fun c => is_ws c = true) s.

(** A numeric duration: digits, at most one whitespace character, and a
    unit of [units], as a whole word. *)
Definition has_duration (units : list jsstring) (text : jsstring) : Prop :=
  exists pre digits gap unit post,
    text = pre ++ digits ++ gap ++ unit ++ post
    /\ digits <> [] /\ Forall (fun c => is_digit c = true) digits
    /\ (gap = [] \/ exists c, gap = [c] /\ is_ws c = true)
    /\ (exists u, In u units /\ same_word u unit)
    /\ delimited pre post.

Definition frequencyWords : list jsstring :=
  [js "daily"; js "weekly"; js "morning"; js "evening"].

Definition has_timebox (units : list jsstring) (text : jsstring) : Prop :=
  has_duration units text
  \/ exists w, In w frequencyWords /\ has_whole_word w text.

(** The units that the specification lists, and those that the pattern of
    the source accepts. *)
Definition claimed_units : list jsstring :=
  [js "min"; js "minutes"; js "hour"; js "hours"].

Definition accepted_units : list jsstring :=
  [js "min"; js "minute"; js "minutes"; js "hour"; js "hours"].

(** A whole-word verb of the vocabulary, letter case apart. *)
Definition has_imperative (text : jsstring) : Prop :=
  exists verb, In verb imperativeVerbs /\ has_whole_word verb (toLowerCase text).

(** The text from the first occurrence of [c] on. *)
Fixpoint from_first (c : N) (s : jsstring) : option jsstring :=
  match s with
  | [] => None
  | x :: s' => if (x =? c)%N then Some s else from_first c s'
  end.

(** The text up to the last occurrence of [c]. *)
Definition upto_last (c : N) (s : jsstring) : option jsstring :=
  option_map (@rev N) (from_first c (rev s)).

(** The substring from the first opening brace to the last closing one. *)
Definition brace_span (text : jsstring) : option jsstring :=
  match from_first 123 text with
  | Some (_ :: rest) =>
      match upto_last 125 rest with
      | Some mid => Some (123%N :: mid)
      | None => None
      end
  | _ => None
  end.

(** The states that a greedy iteration of a class goes through, the
    longest run first. *)
Fixpoint run_positions (f : N -> bool) (p : option N) (s : jsstring)
  : list mstate :=
  match s with
  | c :: s' => if f c then run_positions f (Some c) s' ++ [(p, s)] else [(p, s)]
  | [] => [(p, s)]
  end.

(** The state after a literal word, when the input starts with it. *)
Fixpoint strip_lit (ignoreCase : bool) (w : jsstring) (p : option N)
    (s : jsstring) : option mstate :=
  match w with
  | [] => Some (p, s)
  | c :: w' =>
      match s with
      | x :: s' =>
          if char_matches ignoreCase c x
          then strip_lit ignoreCase w' (Some x) s'
          else None
      | [] => None
      end
  end.

(** A text of [n] words. *)
Definition words (n : nat) : jsstring := concat (repeat (js "word ") n).

(** The date pattern at a position: ten characters of the shape
    dddd-dd-dd between two word boundaries. *)
Definition date_here (p : option N) (s : jsstring) : bool :=
  match s with
  | y1 :: y2 :: y3 :: y4 :: h1 :: m1 :: m2 :: h2 :: d1 :: d2 :: rest =>
      xorb (is_word_opt p) (is_word y1)
      && is_digit y1 && is_digit y2 && is_digit y3 && is_digit y4
      && (45 =? h1)%N && is_digit m1 && is_digit m2 && (45 =? h2)%N
      && is_digit d1 && is_digit d2
      && xorb (is_word d2) (is_word_opt (head rest))
  | _ => false
  end.

(** One of the words of a list. *)
Fixpoint ROneOf (l : list jsstring) : regex :=
  match l with
  | [] => RClass (fun _ => false)
  | u :: l' => RAlt (RLit u) (ROneOf l')
  end.

(** A time-box pattern in the shape of the one of the source, for a unit
    pattern [ru]. *)
Definition timeboxPatternOf (ru : regex) : regex :=
  RAlt
    (RSeq RWordB
       (RSeq (RPlus (RClass is_digit))
          (RSeq (ROpt (RClass is_ws)) (RSeq ru RWordB))))
    (RAlt (RSeq RWordB (RSeq (RLit (js "daily")) RWordB))
       (RAlt (RSeq RWordB (RSeq (RLit (js "weekly")) RWordB))
          (RAlt (RSeq RWordB (RSeq (RLit (js "morning")) RWordB))
                (RSeq RWordB (RSeq (RLit (js "evening")) RWordB))))).

(** The unit pattern of the source: [(min|minutes?|hours?)]. *)
Definition unitPattern : regex :=
  RAlt (RLit (js "min"))
    (RAlt (RSeq (RLit (js "minute")) (ROpt (RChar 115)))
          (RSeq (RLit (js "hour")) (ROpt (RChar 115)))).

(** A word of lower-case ASCII letters. *)
Definition lower_word (w : jsstring) : Prop :=
  w <> [] /\ Forall (fun c => (97 <= c <= 122)%N) w.

(** A unit pattern [ru] stands for the words of [units]. *)
Definition stands_for (ru : regex) (units : list jsstring) : Prop :=
  forall st st',
    In st' (rmatch true ru st)
    <-> exists u m, In u units /\ same_word u m
                    /\ snd st = m ++ snd st' /\ fst st' = last_or (fst st) m.

(** ** The reply, as the specification words it *)

(** A value that the parser cannot use: no such key, not a string, or the
    empty string. *)
Definition unusable (v : option json) : Prop :=
  v = None \/ (exists j, v = Some j /\ forall s, j <> JString s)
  \/ v = Some (JString []).

(** The reply holds a JSON object between its first opening and its last
    closing brace, with the strings [s] and [f] under [summary] and
    [focus]. *)
Definition reply_holds (text s f : jsstring) : Prop :=
  exists sub response,
    brace_span text = Some sub /\ JSON_parse sub = Some response
    /\ get_member response (js "summary") = Some (JString s)
    /\ get_member response (js "focus") = Some (JString f).

(** The ends of the matches of the JSON pattern, once its opening brace
    is consumed. *)
Definition closing (p : option N) (rest : jsstring) : list mstate :=
  flat_map (rmatch false (RChar 125))
           (run_positions (fun c => is_ws c || negb (is_ws c)) p rest).

(** Replies with an empty summary, and with a key besides the two. *)
Definition empty_summary_reply : jsstring :=
  jsq "{'summary':'','focus':'x'}".

(** The edit of the first test: a new plan and a new rating. *)
Definition test_updates : EntryUpdates :=
  {| u_gratitude := None;
     u_didToday := None;
     u_proudOf := None;
     u_tomorrowPlan := Some (js "Start presentation and review code");
     u_rating := Some 1 |}.

(** ** Calendar arithmetic within an era *)

(** Year of the era, month and day of a day of the era (an era is 400
    years, 146097 days), as [civil_from_days] computes them. *)
Definition era_civil (doe : Z) : Z * Z * Z :=
  let yoe := (doe - doe / 1460 + doe / 36524 - doe / 146096) / 365 in
  let doy := doe - (365 * yoe + yoe / 4 - yoe / 100) in
  let mp := (5 * doy + 2) / 153 in
  let d := doy - (153 * mp + 2) / 5 + 1 in
  let m := if mp <? 10 then mp + 3 else mp - 9 in
  (yoe, m, d).

(** Day of the era of a year of the era, a month and a day, as
    [days_from_civil] computes it. *)
Definition era_days (yoe m d : Z) : Z :=
  let mp := if 2 <? m then m - 3 else m + 9 in
  let doy := (153 * mp + 2) / 5 + d - 1 in
  yoe * 365 + yoe / 4 - yoe / 100 + doy.

(** The two agree on a day of the era, and the date is a calendar date. *)
Definition era_check (doe : Z) : bool :=
  let '(yoe, m, d) := era_civil doe in
  (0 <=? yoe) && (yoe <=? 399) && (1 <=? m) && (m <=? 12)
  && (1 <=? d) && (d <=? 31) && (era_days yoe m d =? doe).

(** [era_check] on the first [n] days of the era. *)
Definition era_scan (n : positive) : Z * bool :=
  Pos.iter (fun st : Z * bool => (fst st + 1, snd st && era_check (fst st)))
           (0, true) n.

(** The time values of a Date that is not invalid: at most 8.64e15
    milliseconds from the epoch. *)
Definition time_value (d : Date) : Prop :=
  -8640000000000000 <= d <= 8640000000000000.

(** The day number of a time value. *)
Definition day_number (d : Date) : Z := d / msPerDay.

(** ** The store, as a user of the class sees it *)

(** The id of the entry that [createEntry] numbers [k]. *)
Definition entry_id (k : N) : jsstring := js "entry-" ++ decimal k.

(** The entries that the store holds. *)
Definition stored (this : JournalEntries) (e : JournalEntry) : Prop :=
  In e (Map_values (entries this)).

(** The user has an entry whose date prints as the one of [d]. *)
Definition has_entry_on (this : JournalEntries) (user : jsstring) (d : Date)
  : Prop :=
  exists e, stored this e /\ userId e = user
            /\ toISODate (date e) = toISODate d.

(** The ids of the store are ids of entries numbered below the counter,
    and no two entries share one. *)
Definition ids_ok (this : JournalEntries) : Prop :=
  (1 <= nextId this)%N
  /\ List.NoDup (List.map id (Map_values (entries this)))
  /\ Forall (fun e => exists k, (1 <= k < nextId this)%N /\ id e = entry_id k)
            (Map_values (entries this)).

(** The orders of the sorted lists: not later than, and earlier than. *)
Definition by_date (a b : JournalEntry) : Prop := date a <= date b.

Definition earlier (a b : JournalEntry) : Prop := date a < date b.

(** The test of [getEntriesInRange] on the date. *)
Definition in_range (startDate endDate : Date) (e : JournalEntry) : bool :=
  (startDate <=? date e) && (date e <=? endDate).

(** ** The stored summaries *)

(** What [summarizeWeek] stores: a summary of a window of seven days
    whose two texts pass the three validators for that week, with the
    number of its entries, their ids, and the days of the window that
    have no entry. *)
Definition validated_summary (s : WeeklySummary) : Prop :=
  ws_weekEnd s = Date_addDays (ws_weekStart s) 6
  /\ validateLLMOutput {| summary := ws_summary s; focus := ws_focus s |}
       (ws_weekStart s) = Ok tt
  /\ (1 <= ws_entryCount s <= 7)%nat
  /\ length (ws_sourceEntryIds s) = ws_entryCount s
  /\ List.NoDup (ws_sourceEntryIds s)
  /\ incl (ws_missingDays s) (window_days (ws_weekStart s))
  /\ (time_value (ws_weekStart s) -> time_value (ws_weekEnd s) ->
      (ws_entryCount s + length (ws_missingDays s) = 7)%nat).

(** ** The scenario, continued *)

(** The continuation of the synthesis of the scenario, and the store
    after the reply that passes. *)
Definition exp1_resume
  : LLMReply -> Date -> JournalEntries -> Result WeeklySummary * JournalEntries :=
  summarizeWeek_resume (js "user-exp1") monday (Date_addDays monday 6)
    (getEntriesInRange exp1_store (js "user-exp1") monday
       (Date_addDays monday 6)).

Definition exp1_prompt : Prompt :=
  createWeeklySummaryPrompt
    (getEntriesInRange exp1_store (js "user-exp1") monday
       (Date_addDays monday 6))
    2 1%float
    [js "2025-10-07"; js "2025-10-08"; js "2025-10-10"; js "2025-10-11";
     js "2025-10-12"]
    monday strict.

Definition exp1_summarized : JournalEntries :=
  snd (exp1_resume (Replied exp1_passing_reply) 1 exp1_store).

(** An [updates] object without any field. *)
Definition no_updates : EntryUpdates :=
  {| u_gratitude := None;
     u_didToday := None;
     u_proudOf := None;
     u_tomorrowPlan := None;
     u_rating := None |}.

(** * Properties *)

(** ** Strings and maps *)

Lemma jsstring_eqb_eq (a b : jsstring) : jsstring_eqb a b = true <-> a = b.
Proof. unfold jsstring_eqb. apply bool_decide_eq_true. Qed.

Lemma jsstring_eqb_neq (a b : jsstring) : jsstring_eqb a b = false <-> a <> b.
Proof. unfold jsstring_eqb. apply bool_decide_eq_false. Qed.

Lemma jsstring_eqb_refl (a : jsstring) : jsstring_eqb a a = true.
Proof. now apply jsstring_eqb_eq. Qed.

Lemma includes_In (l : list jsstring) (x : jsstring) :
  includes l x = true <-> In x l.
Proof.
  unfold includes. rewrite existsb_exists. split.
  - intros (y & Hy & Heq). apply jsstring_eqb_eq in Heq. now subst.
  - intros H. exists x. split; [assumption | apply jsstring_eqb_refl].
Qed.

(** ** editEntry *)

Lemma mutate_first_split entryId f m e :
  List.find (fun e => jsstring_eqb (id e) entryId) (Map_values m) = Some e ->
  exists pre k post,
    m = pre ++ (k, e) :: post
    /\ mutate_first entryId f m = pre ++ (k, f e) :: post
    /\ id e = entryId.
Proof.
  induction m as [| [k x] m IH]; simpl; [discriminate |].
  destruct (jsstring_eqb (id x) entryId) eqn:Hid.
  - intros [= ->]. exists [], k, m. apply jsstring_eqb_eq in Hid. now simpl.
  - intros H. destruct (IH H) as (pre & k' & post & -> & Hm & Hi).
    exists ((k, x) :: pre), k', post. simpl. now rewrite Hm.
Qed.

Lemma apply_updates_edited updates e : edited_by updates e (apply_updates updates e).
Proof. unfold edited_by. now simpl. Qed.

Lemma editEntry_cases this entryId updates :
  (exists err, editEntry this entryId updates = (Throw err, this))
  \/ (exists pre k e post,
        entries this = pre ++ (k, e) :: post
        /\ id e = entryId
        /\ editEntry this entryId updates
           = (Ok (apply_updates updates e),
              {| entries := pre ++ (k, apply_updates updates e) :: post;
                 weeklySummaries := weeklySummaries this;
                 nextId := nextId this |})).
Proof.
  unfold editEntry, findEntryById.
  destruct (List.find _ _) as [e |] eqn:Hfind; [| left; eauto].
  destruct (match u_rating updates with Some r => _ | None => _ end);
    [left; eauto |].
  right.
  destruct (mutate_first_split entryId (apply_updates updates) _ _ Hfind)
    as (pre & k & post & Hm & Hmut & Hi).
  exists pre, k, e, post. rewrite Hmut. auto.
Qed.

(** C10. [editEntry] changes nothing but the provided fields of the one
    entry it edits: either it throws and the store is the same, or the
    store differs in exactly one binding, whose entry keeps its id, user
    and date and every field that [updates] leaves undefined; no other
    entry, no stored summary and no key changes, and the store still has
    at most one entry per (user, date). *)
Theorem editEntry_frame (this : JournalEntries) (entryId : jsstring)
    (updates : EntryUpdates) :
  let this' := snd (editEntry this entryId updates) in
  weeklySummaries this' = weeklySummaries this
  /\ (this' = this
      \/ exists pre k e e' post,
           entries this = pre ++ (k, e) :: post
           /\ entries this' = pre ++ (k, e') :: post
           /\ fst (editEntry this entryId updates) = Ok e'
           /\ id e = entryId
           /\ edited_by updates e e')
  /\ (one_entry_per_day this -> one_entry_per_day this').
Proof.
  destruct (editEntry_cases this entryId updates)
    as [(err & ->) | (pre & k & e & post & Hent & Hid & ->)]; simpl.
  - auto.
  - split; [reflexivity |]. split.
    + right. exists pre, k, e, (apply_updates updates e), post.
      repeat split; auto.
    + unfold one_entry_per_day, Map_values. simpl. rewrite Hent.
      now rewrite !List.map_app.
Qed.

(** ** summarizeWeek: the failures *)

Lemma sort_by_date_nil_inv l : sort_by_date l = [] -> l = [].
Proof.
  destruct l as [| e l]; [reflexivity |]. unfold sort_by_date. simpl.
  destruct (fold_right insert_by_date [] l) as [| x l']; simpl; [discriminate |].
  destruct (date e <=? date x); discriminate.
Qed.

(** The entries of a user in a window, as the filter of
    [getEntriesInRange] selects them. *)
Lemma in_range_filter this user startDate endDate e :
  In e (List.filter (fun e => jsstring_eqb (userId e) user
                              && (startDate <=? date e) && (date e <=? endDate))
                    (Map_values (entries this)))
  <-> In e (Map_values (entries this))
      /\ userId e = user /\ startDate <= date e <= endDate.
Proof.
  rewrite filter_In, !andb_true_iff, jsstring_eqb_eq, !Z.leb_le. tauto.
Qed.

(** C4. When no entry of the user has its date in the window
    [weekStart, weekStart + 6 days], [summarizeWeek] throws the no-entries
    error before it suspends: no prompt is sent to the text-generation
    service and the store is the one it started from. *)
Theorem summarizeWeek_no_entries (this : JournalEntries) (user : jsstring)
    (weekStart : Date) (variant : PromptVariant) :
  (forall e, In e (Map_values (entries this)) -> userId e = user ->
             ~ (weekStart <= date e <= Date_addDays weekStart 6)) ->
  summarizeWeek this user weekStart variant = ThrowsBefore NoEntries
  /\ forall llm now,
       run_summarizeWeek llm now this user weekStart variant
       = (Throw NoEntries, this, []).
Proof.
  intros Hnone.
  assert (Hsw : summarizeWeek this user weekStart variant = ThrowsBefore NoEntries).
  { unfold summarizeWeek, getEntriesInRange.
    replace (List.filter _ _) with (@nil JournalEntry); [reflexivity |].
    symmetry. destruct (List.filter _ _) as [| e l] eqn:Hf; [reflexivity |].
    exfalso.
    assert (Hin : In e (e :: l)) by now left.
    rewrite <- Hf in Hin. apply in_range_filter in Hin.
    destruct Hin as (Hin & Hu & Hd). exact (Hnone e Hin Hu Hd). }
  split; [exact Hsw |].
  intros llm now. unfold run_summarizeWeek. now rewrite Hsw.
Qed.

Lemma summarizeWeek_no_entries_witness :
  summarizeWeek store_ex (js "nonexistent-user") 1759708800000 base
  = ThrowsBefore NoEntries.
Proof.
  apply (summarizeWeek_no_entries store_ex (js "nonexistent-user")
           1759708800000 base).
  intros e Hin Hu. vm_compute in Hin. destruct Hin as [<- | []].
  vm_compute in Hu. discriminate Hu.
Defined.

Lemma resume_failure_cases user weekStart weekEnd weekEntries reply now store e :
  fst (summarizeWeek_resume user weekStart weekEnd weekEntries reply now store)
  = Throw e ->
  snd (summarizeWeek_resume user weekStart weekEnd weekEntries reply now store)
  = store
  /\ (e = LLMFailure
      \/ (exists text, reply = Replied text /\ parseLLMResponse text = Throw e)
      \/ (exists text result,
            reply = Replied text /\ parseLLMResponse text = Ok result
            /\ validateLLMOutput result weekStart = Throw e)).
Proof.
  unfold summarizeWeek_resume. destruct reply as [text |]; simpl.
  - destruct (parseLLMResponse text) as [result | e1] eqn:Hp; simpl.
    + destruct (validateLLMOutput result weekStart) as [[] | e2] eqn:Hv; simpl.
      * discriminate.
      * intros [= ->]. split; [reflexivity |]. right. right. eauto.
    + intros [= ->]. split; [reflexivity |]. right. left. eauto.
  - intros [= <-]. auto.
Qed.

Lemma parseLLMResponse_error text e :
  parseLLMResponse text = Throw e -> is_ParseError e = true.
Proof.
  unfold parseLLMResponse.
  destruct (String_match _ _ _); [| now intros [= <-]].
  destruct (JSON_parse _); [| now intros [= <-]].
  destruct (negb _ || negb _); [now intros [= <-] |].
  destruct (get_member _ (js "summary")) as [[] |];
    try (now intros [= <-]);
    destruct (get_member _ (js "focus")) as [[] |];
    (now intros [= <-]) || discriminate.
Qed.

Lemma validateV1_error result e :
  validateV1_ShapeAndLimits result = Throw e -> is_ShapeError e = true.
Proof.
  unfold validateV1_ShapeAndLimits.
  repeat (match goal with |- context [if ?c then _ else _] => destruct c end;
          try (now intros [= <-])).
Qed.

Lemma validateV2_error result weekStart e :
  validateV2_WindowAndLinks result weekStart = Throw e -> is_WindowError e = true.
Proof.
  unfold validateV2_WindowAndLinks.
  destruct (RegExp_test _ _ _); [now intros [= <-] |].
  destruct (List.find _ _); [now intros [= <-] | discriminate].
Qed.

Lemma validateV3_error result e :
  validateV3_Actionability result = Throw e -> is_ActionabilityError e = true.
Proof.
  unfold validateV3_Actionability.
  destruct (negb _); [now intros [= <-] |].
  destruct (negb _); [now intros [= <-] | discriminate].
Qed.

Lemma validateLLMOutput_error result weekStart e :
  validateLLMOutput result weekStart = Throw e ->
  (validateV1_ShapeAndLimits result = Throw e /\ is_ShapeError e = true)
  \/ (validateV2_WindowAndLinks result weekStart = Throw e
      /\ is_WindowError e = true)
  \/ (validateV3_Actionability result = Throw e
      /\ is_ActionabilityError e = true).
Proof.
  unfold validateLLMOutput.
  destruct (validateV1_ShapeAndLimits result) as [[] | e1] eqn:H1.
  - destruct (validateV2_WindowAndLinks result weekStart) as [[] | e2] eqn:H2.
    + intros H3. right. right. split; [exact H3 |]. now apply validateV3_error in H3.
    + intros [= ->]. right. left. split; [reflexivity |].
      now apply validateV2_error in H2.
  - intros [= ->]. left. split; [reflexivity |]. now apply validateV1_error in H1.
Qed.

(** C1. A [summarizeWeek] call that fails after the external call, be it
    because the call itself was rejected, at parsing, or at V1, V2 or V3,
    leaves the store as it was when the call resumed: no summary is
    written, and [getWeeklySummary] answers for every key, the key of the
    call included, what it answered before. *)
Theorem summarizeWeek_failure_keeps_store (this : JournalEntries)
    (user : jsstring) (weekStart : Date) (variant : PromptVariant)
    (prompt : Prompt)
    (resume : LLMReply -> Date -> JournalEntries
              -> Result WeeklySummary * JournalEntries)
    (reply : LLMReply) (now : Date) (store : JournalEntries) (e : Error) :
  summarizeWeek this user weekStart variant = AwaitLLM prompt resume ->
  fst (resume reply now store) = Throw e ->
  snd (resume reply now store) = store
  /\ (forall u w, getWeeklySummary (snd (resume reply now store)) u w
                  = getWeeklySummary store u w)
  /\ (e = LLMFailure \/ is_ParseError e = true \/ is_ShapeError e = true
      \/ is_WindowError e = true \/ is_ActionabilityError e = true).
Proof.
  unfold summarizeWeek.
  destruct (length _ =? 0)%nat; [discriminate |].
  intros [= _ <-] Hfail.
  destruct (resume_failure_cases _ _ _ _ _ _ _ _ Hfail)
    as (Hstore & [-> | [(text & _ & Hp) | (text & result & _ & _ & Hv)]]).
  - rewrite Hstore. tauto.
  - rewrite Hstore. apply parseLLMResponse_error in Hp. tauto.
  - rewrite Hstore.
    destruct (validateLLMOutput_error _ _ _ Hv) as [[_ H] | [[_ H] | [_ H]]];
      tauto.
Qed.

Lemma summarizeWeek_failure_keeps_store_witness :
  let resume :=
    summarizeWeek_resume (js "user-exp1") monday (Date_addDays monday 6)
      (getEntriesInRange exp1_store (js "user-exp1") monday
         (Date_addDays monday 6)) in
  snd (resume (Replied exp1_failing_reply) 0 exp1_store) = exp1_store
  /\ (forall u w,
        getWeeklySummary (snd (resume (Replied exp1_failing_reply) 0 exp1_store))
          u w = getWeeklySummary exp1_store u w)
  /\ (V2_URL = LLMFailure \/ is_ParseError V2_URL = true
      \/ is_ShapeError V2_URL = true \/ is_WindowError V2_URL = true
      \/ is_ActionabilityError V2_URL = true).
Proof.
  intros resume.
  apply (summarizeWeek_failure_keeps_store exp1_store (js "user-exp1") monday
           base
           (createWeeklySummaryPrompt
              (getEntriesInRange exp1_store (js "user-exp1") monday
                 (Date_addDays monday 6))
              2 1%float
              [js "2025-10-07"; js "2025-10-08"; js "2025-10-10";
               js "2025-10-11"; js "2025-10-12"]
              monday base)
           resume (Replied exp1_failing_reply) 0 exp1_store V2_URL).
  - reflexivity.
  - vm_compute. reflexivity.
Defined.

(** ** Invariants of the reachable stores *)

Lemma Map_has_In {V : Type} (m : list (jsstring * V)) k :
  Map_has m k = true <-> In k (List.map fst m).
Proof.
  unfold Map_has. rewrite existsb_exists, in_map_iff. split.
  - intros (kv & Hin & Heq). apply jsstring_eqb_eq in Heq. eauto.
  - intros (kv & Heq & Hin). exists kv. now rewrite jsstring_eqb_eq.
Qed.

Lemma Map_set_fresh {V : Type} (m : list (jsstring * V)) k v :
  Map_has m k = false -> Map_set m k v = m ++ [(k, v)].
Proof.
  induction m as [| kv m IH]; simpl; [reflexivity |].
  destruct (jsstring_eqb (fst kv) k); simpl; [discriminate |].
  intros H. now rewrite IH.
Qed.

Lemma Map_delete_keys {V : Type} (m : list (jsstring * V)) k :
  List.map fst (Map_delete m k)
  = List.filter (fun k' => negb (jsstring_eqb k' k)) (List.map fst m).
Proof.
  unfold Map_delete. induction m as [| kv m IH]; simpl; [reflexivity |].
  destruct (negb _); simpl; now rewrite IH.
Qed.

Lemma createEntry_cases this u d g dt p t r :
  (exists err, createEntry this u d g dt p t r = (Throw err, this))
  \/ (valid_rating r = true
      /\ Map_has (entries this) (getDateKey u d) = false
      /\ exists e,
           userId e = u /\ date e = d /\ rating e = r
           /\ createEntry this u d g dt p t r
              = (Ok e, {| entries := entries this ++ [(getDateKey u d, e)];
                          weeklySummaries := weeklySummaries this;
                          nextId := (nextId this + 1)%N |})).
Proof.
  unfold createEntry.
  destruct (valid_rating r) eqn:Hr; simpl; [| left; eauto].
  destruct (Map_has _ _) eqn:Hhas; [left; eauto |].
  right. repeat split; auto.
  eexists. rewrite (Map_set_fresh _ _ _ Hhas). repeat split; reflexivity.
Qed.

Lemma editEntry_rating this entryId updates e this' :
  editEntry this entryId updates = (Ok e, this') ->
  forall r, u_rating updates = Some r -> valid_rating r = true.
Proof.
  unfold editEntry. destruct (findEntryById _ _); [| discriminate].
  intros H r Hr. rewrite Hr in H.
  destruct (valid_rating r); [reflexivity | discriminate].
Qed.

Lemma entries_ok_createEntry this u d g dt p t r :
  entries_ok this -> entries_ok (snd (createEntry this u d g dt p t r)).
Proof.
  intros [Hnd Hall].
  destruct (createEntry_cases this u d g dt p t r)
    as [(err & ->) | (Hr & Hhas & e & Hu & Hd & Hrt & ->)]; simpl;
    [now split |].
  split; simpl.
  - rewrite List.map_app. simpl. apply List.NoDup_app; auto.
    + repeat constructor. intros [].
    + intros k Hin [<- | []].
      apply Map_has_In in Hin. congruence.
  - apply Forall_app. split; [assumption |].
    repeat constructor; simpl; congruence.
Qed.

Lemma entries_ok_editEntry this entryId updates :
  entries_ok this -> entries_ok (snd (editEntry this entryId updates)).
Proof.
  intros [Hnd Hall].
  destruct (editEntry_cases this entryId updates)
    as [(err & ->) | (pre & k & e & post & Hent & Hid & Heq)]; simpl;
    [now split |].
  pose proof (editEntry_rating _ _ _ _ _ Heq) as Hr.
  rewrite Heq. simpl. rewrite Hent in Hnd, Hall.
  split; simpl.
  - now rewrite List.map_app in *.
  - apply Forall_app in Hall. destruct Hall as [Hpre Hpost].
    apply Forall_app. split; [assumption |].
    inversion Hpost as [| ? ? [Hk Hv] Hpost']; subst.
    constructor; [| assumption]. simpl in *. split; [assumption |].
    destruct (u_rating updates) as [r |]; simpl; auto.
Qed.

Lemma entries_ok_deleteEntry this entryId :
  entries_ok this -> entries_ok (snd (deleteEntry this entryId)).
Proof.
  intros [Hnd Hall]. unfold deleteEntry.
  destruct (findEntryById this entryId); simpl; [| now split].
  split; simpl.
  - rewrite Map_delete_keys. now apply List.NoDup_filter.
  - unfold Map_delete. rewrite List.Forall_forall in *.
    intros kv Hin. apply filter_In in Hin. now apply Hall.
Qed.

Lemma resume_entries user weekStart weekEnd weekEntries reply now store :
  entries (snd (summarizeWeek_resume user weekStart weekEnd weekEntries
                  reply now store)) = entries store.
Proof.
  unfold summarizeWeek_resume. destruct reply; [| reflexivity].
  destruct (parseLLMResponse _); [| reflexivity].
  destruct (validateLLMOutput _ _); reflexivity.
Qed.

Lemma summarizeWeek_await this user weekStart variant prompt resume :
  summarizeWeek this user weekStart variant = AwaitLLM prompt resume ->
  resume = summarizeWeek_resume user weekStart (Date_addDays weekStart 6)
             (getEntriesInRange this user weekStart (Date_addDays weekStart 6))
  /\ getEntriesInRange this user weekStart (Date_addDays weekStart 6) <> [].
Proof.
  unfold summarizeWeek.
  destruct (getEntriesInRange _ _ _ _) eqn:Hg; simpl; [discriminate |].
  intros [= _ <-]. split; [reflexivity | discriminate].
Qed.

(** What a successful resumption returns and stores. *)
Lemma resume_success user weekStart weekEnd weekEntries reply now store s store' :
  summarizeWeek_resume user weekStart weekEnd weekEntries reply now store
  = (Ok s, store') ->
  exists text result,
    reply = Replied text
    /\ parseLLMResponse text = Ok result
    /\ validateLLMOutput result weekStart = Ok tt
    /\ s = {| ws_userId := user;
              ws_weekStart := weekStart;
              ws_weekEnd := weekEnd;
              ws_entryCount := entryCount weekEntries;
              ws_avgRating := avgRating weekEntries;
              ws_missingDays := missingDays weekEntries weekStart;
              ws_summary := summary result;
              ws_focus := focus result;
              ws_sourceEntryIds := sourceEntryIds weekEntries;
              ws_generatedAt := now |}
    /\ store' = {| entries := entries store;
                   weeklySummaries :=
                     <[getWeeklySummaryKey user weekStart := s]>
                       (weeklySummaries store);
                   nextId := nextId store |}.
Proof.
  unfold summarizeWeek_resume. destruct reply as [text |]; [| discriminate].
  destruct (parseLLMResponse text) as [result |] eqn:Hp; [| discriminate].
  destruct (validateLLMOutput result weekStart) as [[] |] eqn:Hv; [| discriminate].
  intros [= <- <-]. exists text, result. repeat split; auto.
Qed.

Lemma summaries_ok_resume user weekStart weekEnd weekEntries reply now store :
  summaries_ok store ->
  summaries_ok (snd (summarizeWeek_resume user weekStart weekEnd weekEntries
                       reply now store)).
Proof.
  intros Hok.
  destruct (summarizeWeek_resume _ _ _ _ _ _ _) as [[s | e] store'] eqn:Hres.
  - apply resume_success in Hres.
    destruct Hres as (text & result & _ & _ & _ & Hs & ->). simpl.
    intros k s'. simpl. rewrite lookup_insert. case_decide as Hk.
    + intros [= <-]. subst k. now rewrite Hs.
    + apply Hok.
  - assert (Hf : fst (summarizeWeek_resume user weekStart weekEnd weekEntries
                        reply now store) = Throw e) by now rewrite Hres.
    apply resume_failure_cases in Hf. destruct Hf as [Hf _].
    rewrite Hres in Hf. simpl in *. now subst.
Qed.

Lemma reachable_ok this :
  reachable this -> entries_ok this /\ summaries_ok this.
Proof.
  induction 1 as [| this u d g dt p t r _ [He Hs]
                  | this entryId updates _ [He Hs]
                  | this entryId _ [He Hs]
                  | this0 this u w v prompt resume reply now _ _ _ [He Hs] Hsw].
  - split; [split; constructor | intros k s; simpl; now rewrite lookup_empty].
  - split; [now apply entries_ok_createEntry |].
    destruct (createEntry_cases this u d g dt p t r)
      as [(err & ->) | (_ & _ & e & _ & _ & _ & ->)]; assumption.
  - split; [now apply entries_ok_editEntry |].
    destruct (editEntry_cases this entryId updates)
      as [(err & ->) | (pre & k & e & post & _ & _ & ->)]; assumption.
  - split; [now apply entries_ok_deleteEntry |].
    unfold deleteEntry. destruct (findEntryById _ _); assumption.
  - apply summarizeWeek_await in Hsw. destruct Hsw as [-> _]. split.
    + destruct He as [Hnd Hall]. unfold entries_ok.
      now rewrite resume_entries.
    + now apply summaries_ok_resume.
Qed.

(** At most one entry per (user, date) in a reachable store. *)
Lemma reachable_one_entry_per_day this :
  reachable this -> one_entry_per_day this.
Proof.
  intros Hr. destruct (reachable_ok _ Hr) as [[Hnd Hall] _].
  unfold one_entry_per_day, Map_values. rewrite List.map_map.
  revert Hnd Hall. induction (entries this) as [| kv m IH]; simpl;
    [constructor |].
  intros Hnd Hall. inversion Hnd as [| ? ? Hnotin Hnd']; subst.
  inversion Hall as [| ? ? [Hk _] Hall']; subst.
  constructor; [| now apply IH].
  intros Hin. apply Hnotin. apply in_map_iff in Hin.
  destruct Hin as (kv' & Heq & Hin'). apply in_map_iff. exists kv'.
  split; [| assumption].
  rewrite List.Forall_forall in Hall'. destruct (Hall' _ Hin') as [Hk' _].
  rewrite Hk, Hk'. unfold getDateKey. now injection Heq as -> ->.
Qed.

(** ** summarizeWeek: the slot of a week *)

Lemma run_success llm now this user weekStart variant s store calls :
  run_summarizeWeek llm now this user weekStart variant = (Ok s, store, calls) ->
  exists prompt weekEntries,
    calls = [prompt]
    /\ summarizeWeek_resume user weekStart (Date_addDays weekStart 6)
         weekEntries (llm prompt) now this = (Ok s, store).
Proof.
  unfold run_summarizeWeek.
  destruct (summarizeWeek this user weekStart variant) as [e | prompt resume]
    eqn:Hsw; [discriminate |].
  apply summarizeWeek_await in Hsw. destruct Hsw as [-> _].
  intros [= H <-]. eauto.
Qed.

Lemma summaries_for_after_insert this user weekStart s :
  summaries_ok this ->
  ws_userId s = user -> ws_weekStart s = weekStart ->
  summaries_for
    {| entries := entries this;
       weeklySummaries :=
         <[getWeeklySummaryKey user weekStart := s]> (weeklySummaries this);
       nextId := nextId this |} user weekStart
  = {[getWeeklySummaryKey user weekStart := s]}.
Proof.
  intros Hok Hu Hw. unfold summaries_for. simpl.
  apply map_eq. intros k.
  destruct (decide (k = getWeeklySummaryKey user weekStart)) as [-> | Hne].
  - rewrite lookup_singleton_eq. apply map_lookup_filter_Some. split.
    + apply lookup_insert_eq.
    + simpl. now rewrite Hu, Hw.
  - rewrite lookup_singleton_ne by congruence.
    apply map_lookup_filter_None. right. intros s'.
    rewrite lookup_insert_ne by congruence.
    intros Hs' [Hu' Hw']. simpl in *. apply Hne.
    rewrite (Hok _ _ Hs'). unfold getWeeklySummaryKey. now rewrite Hu', Hw'.
Qed.

(** In a store where every summary sits under its own key, a user has
    at most one stored summary for a week. *)
Lemma summaries_for_at_most_one this user weekStart :
  summaries_ok this -> (size (summaries_for this user weekStart) <= 1)%nat.
Proof.
  intros Hok. unfold summaries_for.
  assert (Hkey : forall k s,
             filter (fun ks => ws_userId (snd ks) = user
                               /\ toISODate (ws_weekStart (snd ks))
                                  = toISODate weekStart)
                    (weeklySummaries this) !! k = Some s ->
             weeklySummaries this !! k = Some s
             /\ k = getWeeklySummaryKey user weekStart).
  { intros k s Hf. apply map_lookup_filter_Some in Hf.
    destruct Hf as [Hm [Hu Hw]]. simpl in *. split; [assumption |].
    rewrite (Hok _ _ Hm). unfold getWeeklySummaryKey. now rewrite Hu, Hw. }
  destruct (weeklySummaries this !! getWeeklySummaryKey user weekStart)
    as [s0 |] eqn:H0.
  - rewrite <- (map_size_singleton (M := gmap jsstring)
                  (getWeeklySummaryKey user weekStart) s0).
    apply map_subseteq_size, map_subseteq_spec. intros k s Hf.
    destruct (Hkey k s Hf) as [Hm ->]. rewrite lookup_singleton_eq. congruence.
  - replace (filter _ (weeklySummaries this)) with (∅ : gmap jsstring WeeklySummary);
      [rewrite map_size_empty; lia |].
    symmetry. apply map_empty. intros k.
    destruct (filter _ (weeklySummaries this) !! k) as [s |] eqn:Hf;
      [| reflexivity].
    destruct (Hkey k s Hf) as [Hm ->]. congruence.
Qed.

(** C5. Two successful syntheses in a row for the same user and week, in
    a store that the public methods can produce, leave exactly one stored
    summary for that user and week: the one the second call returned,
    built from the second reply, which [getWeeklySummary] then answers.
    The second call adds no slot, and touches no other key.  Before,
    between and after the two calls, no user has more than one stored
    summary for a week. *)
Theorem two_syntheses_one_slot (this store1 store2 : JournalEntries)
    (llm1 llm2 : Prompt -> LLMReply) (now1 now2 : Date) (user : jsstring)
    (weekStart : Date) (v1 v2 : PromptVariant) (s1 s2 : WeeklySummary)
    (calls1 calls2 : list Prompt) :
  reachable this ->
  run_summarizeWeek llm1 now1 this user weekStart v1 = (Ok s1, store1, calls1) ->
  run_summarizeWeek llm2 now2 store1 user weekStart v2 = (Ok s2, store2, calls2) ->
  getWeeklySummary store1 user weekStart = Some s1
  /\ getWeeklySummary store2 user weekStart = Some s2
  /\ summaries_for store2 user weekStart
     = {[getWeeklySummaryKey user weekStart := s2]}
  /\ size (summaries_for store2 user weekStart) = 1%nat
  /\ size (weeklySummaries store2) = size (weeklySummaries store1)
  /\ (forall k, k <> getWeeklySummaryKey user weekStart ->
                weeklySummaries store2 !! k = weeklySummaries store1 !! k)
  /\ (exists prompt text result,
        calls2 = [prompt] /\ llm2 prompt = Replied text
        /\ parseLLMResponse text = Ok result
        /\ ws_summary s2 = summary result /\ ws_focus s2 = focus result
        /\ ws_generatedAt s2 = now2)
  /\ (forall store u w, In store [this; store1; store2] ->
                        (size (summaries_for store u w) <= 1)%nat).
Proof.
  intros Hreach Hrun1 Hrun2.
  destruct (run_success _ _ _ _ _ _ _ _ _ Hrun1) as (p1 & we1 & _ & Hres1).
  destruct (run_success _ _ _ _ _ _ _ _ _ Hrun2) as (p2 & we2 & Hc2 & Hres2).
  assert (Hok1 : summaries_ok store1).
  { replace store1 with (snd (summarizeWeek_resume user weekStart
      (Date_addDays weekStart 6) we1 (llm1 p1) now1 this)) by now rewrite Hres1.
    apply summaries_ok_resume. now apply reachable_ok. }
  apply resume_success in Hres1, Hres2.
  destruct Hres1 as (t1 & r1 & _ & _ & _ & Hs1 & Hst1).
  destruct Hres2 as (t2 & r2 & Hl2 & Hp2 & _ & Hs2 & Hst2).
  assert (Hu2 : ws_userId s2 = user) by now rewrite Hs2.
  assert (Hw2 : ws_weekStart s2 = weekStart) by now rewrite Hs2.
  assert (Hget1 : getWeeklySummary store1 user weekStart = Some s1).
  { unfold getWeeklySummary. rewrite Hst1. simpl. apply lookup_insert_eq. }
  assert (Hfor : summaries_for store2 user weekStart
                 = {[getWeeklySummaryKey user weekStart := s2]}).
  { rewrite Hst2. now apply summaries_for_after_insert. }
  split; [exact Hget1 |]. split.
  { unfold getWeeklySummary. rewrite Hst2. simpl. apply lookup_insert_eq. }
  split; [exact Hfor |]. split.
  { rewrite Hfor. apply map_size_singleton. }
  split.
  { rewrite Hst2. simpl. unfold getWeeklySummary in Hget1.
    rewrite <- (insert_id _ _ _ Hget1) at 2.
    rewrite <- (insert_delete_eq (weeklySummaries store1)).
    rewrite <- (insert_delete_eq (weeklySummaries store1) _ s1).
    rewrite !map_size_insert_None by apply lookup_delete_eq. reflexivity. }
  split.
  { intros k Hk. rewrite Hst2. simpl. now rewrite lookup_insert_ne. }
  split.
  { exists p2, t2, r2. rewrite Hs2. simpl. auto 10. }
  assert (Hok2 : summaries_ok store2).
  { rewrite Hst2. intros k s. simpl. rewrite lookup_insert. case_decide as Hk.
    - intros [= <-]. subst k. now rewrite Hu2, Hw2.
    - apply Hok1. }
  intros store u w [<- | [<- | [<- | []]]];
    apply summaries_for_at_most_one; auto.
  now apply reachable_ok.
Qed.

Lemma two_syntheses_one_slot_witness :
  let store1 :=
    snd (fst (run_summarizeWeek (fun _ => Replied exp1_passing_reply) 1
                exp1_store (js "user-exp1") monday strict)) in
  let store2 :=
    snd (fst (run_summarizeWeek (fun _ => Replied other_passing_reply) 2
                store1 (js "user-exp1") monday strict)) in
  getWeeklySummary store2 (js "user-exp1") monday
  = Some (exp1_summary other_passing_reply 2)
  /\ size (summaries_for store2 (js "user-exp1") monday) = 1%nat.
Proof.
  intros store1 store2.
  pose proof (two_syntheses_one_slot exp1_store store1 store2
                (fun _ => Replied exp1_passing_reply)
                (fun _ => Replied other_passing_reply) 1 2 (js "user-exp1")
                monday strict strict
                (exp1_summary exp1_passing_reply 1)
                (exp1_summary other_passing_reply 2)
                (snd (run_summarizeWeek (fun _ => Replied exp1_passing_reply) 1
                        exp1_store (js "user-exp1") monday strict))
                (snd (run_summarizeWeek (fun _ => Replied other_passing_reply) 2
                        store1 (js "user-exp1") monday strict))) as H.
  destruct H as (_ & Hget & _ & Hsize & _).
  - unfold exp1_store. repeat constructor.
  - vm_compute. reflexivity.
  - vm_compute. reflexivity.
  - split; assumption.
Defined.

Lemma editEntry_frame_witness :
  weeklySummaries (snd (editEntry exp1_store (js "entry-1") test_updates))
  = weeklySummaries exp1_store
  /\ one_entry_per_day (snd (editEntry exp1_store (js "entry-1") test_updates)).
Proof.
  destruct (editEntry_frame exp1_store (js "entry-1") test_updates)
    as (Hsum & _ & Hinv).
  split; [exact Hsum |]. apply Hinv.
  apply reachable_one_entry_per_day. unfold exp1_store. repeat constructor.
Defined.

(** ** The weekly aggregates *)

Lemma insert_by_date_perm e l : Permutation (insert_by_date e l) (e :: l).
Proof.
  induction l as [| x l IH]; simpl; [reflexivity |].
  destruct (date e <=? date x); [reflexivity |].
  rewrite IH. apply perm_swap.
Qed.

Lemma sort_by_date_perm l : Permutation (sort_by_date l) l.
Proof.
  induction l as [| e l IH]; simpl; [reflexivity |].
  unfold sort_by_date in *. simpl. rewrite insert_by_date_perm.
  now constructor.
Qed.

Lemma getEntriesInRange_perm this user weekStart :
  Permutation (getEntriesInRange this user weekStart (Date_addDays weekStart 6))
              (entries_in_window this user weekStart).
Proof. apply sort_by_date_perm. Qed.

Lemma NoDup_map_filter {A B : Type} (f : A -> B) (p : A -> bool) (l : list A) :
  List.NoDup (List.map f l) -> List.NoDup (List.map f (List.filter p l)).
Proof.
  induction l as [| x l IH]; simpl; [auto |].
  intros Hnd. inversion Hnd as [| ? ? Hnotin Hnd']; subst.
  destruct (p x); simpl; [| auto].
  constructor; [| auto].
  intros Hin. apply Hnotin. apply in_map_iff in Hin.
  destruct Hin as (y & Hy & Hin). apply filter_In in Hin.
  apply in_map_iff. exists y. tauto.
Qed.

Lemma toISODate_day d1 d2 :
  d1 / msPerDay = d2 / msPerDay -> toISODate d1 = toISODate d2.
Proof. unfold toISODate. now intros ->. Qed.

(** The entries of a window fall on distinct days among seven. *)
Lemma window_at_most_seven this user weekStart :
  reachable this ->
  (length (entries_in_window this user weekStart) <= 7)%nat.
Proof.
  intros Hr. apply reachable_one_entry_per_day in Hr.
  unfold one_entry_per_day in Hr.
  set (F := entries_in_window this user weekStart).
  assert (HF : forall e, In e F ->
             userId e = user /\ weekStart <= date e <= Date_addDays weekStart 6).
  { intros e Hin. apply in_range_filter in Hin. tauto. }
  assert (Hnd : List.NoDup (List.map (fun e => date e / msPerDay) F)).
  { apply (NoDup_map_inv
             (fun z => (user, toISODate (z * msPerDay)))).
    rewrite List.map_map.
    rewrite (map_ext_in _ (fun e => (userId e, toISODate (date e)))).
    - now apply NoDup_map_filter.
    - intros e Hin. destruct (HF e Hin) as [-> _]. f_equal.
      apply toISODate_day. now rewrite Z.div_mul. }
  rewrite <- (length_map (fun e => date e / msPerDay)).
  transitivity (length (List.map (fun i => weekStart / msPerDay + Z.of_nat i)
                                 (seq 0 7))); [| reflexivity].
  apply NoDup_incl_length; [exact Hnd |].
  intros z Hz. apply in_map_iff in Hz. destruct Hz as (e & <- & Hin).
  destruct (HF e Hin) as [_ [Hlo Hhi]].
  apply in_map_iff.
  exists (Z.to_nat (date e / msPerDay - weekStart / msPerDay)).
  assert (Hd1 : weekStart / msPerDay <= date e / msPerDay)
    by (apply Z.div_le_mono; [reflexivity | assumption]).
  assert (Hd2 : date e / msPerDay <= weekStart / msPerDay + 6).
  { unfold Date_addDays in Hhi.
    rewrite <- (Z.div_add weekStart 6 msPerDay) by discriminate.
    apply Z.div_le_mono; [reflexivity | assumption]. }
  split; [lia |]. apply in_seq. lia.
Qed.

Lemma Z_range_cases (P : Z -> Prop) (lo : Z) (n : nat) :
  (forall i, (i < n)%nat -> P (lo + Z.of_nat i)) ->
  forall z, lo <= z < lo + Z.of_nat n -> P z.
Proof.
  intros H z Hz. replace z with (lo + Z.of_nat (Z.to_nat (z - lo))) by lia.
  apply H. lia.
Qed.

(** Sums of few ratings are exact in binary64. *)
Lemma float_add_small s r :
  -14 <= s <= 14 -> -2 <= r <= 2 ->
  PrimFloat.add (Z2F s) (Z2F r) = Z2F (s + r).
Proof.
  intros Hs Hr. revert r Hr.
  apply (Z_range_cases
           (fun s => forall r, -2 <= r <= 2 ->
                               PrimFloat.add (Z2F s) (Z2F r) = Z2F (s + r))
           (-14) 29); [| lia].
  intros i Hi r Hr.
  apply (Z_range_cases
           (fun r => PrimFloat.add (Z2F (-14 + Z.of_nat i)) (Z2F r)
                     = Z2F (-14 + Z.of_nat i + r))
           (-2) 5); [| lia].
  intros j Hj.
  do 29 (destruct i as [| i];
         [do 5 (destruct j as [| j]; [vm_compute; reflexivity |]); lia |]).
  lia.
Qed.

Lemma float_sum_small rs s :
  Forall (fun r => -2 <= r <= 2) rs ->
  Z.abs s + 2 * Z.of_nat (length rs) <= 14 ->
  fold_left (fun sum r => PrimFloat.add sum (Z2F r)) rs (Z2F s)
  = Z2F (s + sum_Z rs).
Proof.
  revert s. induction rs as [| r rs IH]; simpl; intros s Hall Hlen.
  - now rewrite Z.add_0_r.
  - inversion Hall as [| ? ? Hr Hall']; subst.
    rewrite float_add_small by lia.
    rewrite IH by (auto; lia). f_equal. lia.
Qed.

Lemma sum_Z_bound rs :
  Forall (fun r => -2 <= r <= 2) rs ->
  Z.abs (sum_Z rs) <= 2 * Z.of_nat (length rs).
Proof.
  induction 1 as [| r rs Hr _ IH]; simpl; lia.
Qed.

(** The rounding of the source on a sum of at most seven ratings. *)
Lemma float_round_small s n :
  -14 <= s <= 14 -> 1 <= n <= 7 ->
  PrimFloat.div
    (Math_round (PrimFloat.mul (PrimFloat.div (Z2F s) (Z2F n)) 100%float))
    100%float
  = PrimFloat.div (Z2F ((200 * s + n) / (2 * n))) 100%float.
Proof.
  intros Hs Hn. revert n Hn.
  apply (Z_range_cases
           (fun s => forall n, 1 <= n <= 7 ->
              PrimFloat.div
                (Math_round (PrimFloat.mul (PrimFloat.div (Z2F s) (Z2F n))
                                           100%float)) 100%float
              = PrimFloat.div (Z2F ((200 * s + n) / (2 * n))) 100%float)
           (-14) 29); [| lia].
  intros i Hi n Hn.
  apply (Z_range_cases
           (fun n =>
              PrimFloat.div
                (Math_round (PrimFloat.mul
                               (PrimFloat.div (Z2F (-14 + Z.of_nat i)) (Z2F n))
                               100%float)) 100%float
              = PrimFloat.div
                  (Z2F ((200 * (-14 + Z.of_nat i) + n) / (2 * n))) 100%float)
           1 7); [| lia].
  intros j Hj.
  do 29 (destruct i as [| i];
         [do 7 (destruct j as [| j]; [vm_compute; reflexivity |]); lia |]).
  lia.
Qed.

Lemma rounded_mean_half_up rs :
  rs <> [] ->
  rounded_mean rs ((200 * sum_Z rs + Z.of_nat (length rs))
                   / (2 * Z.of_nat (length rs))).
Proof.
  intros Hne. unfold rounded_mean.
  assert (Hn : 0 < Z.of_nat (length rs)) by (destruct rs; simpl; [easy | lia]).
  set (n := Z.of_nat (length rs)) in *. set (a := sum_Z rs).
  pose proof (Z.div_mod (200 * a + n) (2 * n) ltac:(lia)) as Hdm.
  pose proof (Z.mod_pos_bound (200 * a + n) (2 * n) ltac:(lia)) as Hb.
  set (k := (200 * a + n) / (2 * n)) in *. nia.
Qed.

Lemma filter_true {A : Type} (l : list A) : List.filter (fun _ => true) l = l.
Proof. induction l as [| x l IH]; simpl; now rewrite ?IH. Qed.

Lemma avgRating_small weekEntries :
  weekEntries <> [] ->
  (length weekEntries <= 7)%nat ->
  Forall (fun e => -2 <= rating e <= 2) weekEntries ->
  exists k,
    rounded_mean (List.map rating weekEntries) k
    /\ avgRating weekEntries = PrimFloat.div (Z2F k) 100%float.
Proof.
  intros Hne Hlen Hall.
  set (rs := List.map rating weekEntries).
  assert (Hrs : Forall (fun r => -2 <= r <= 2) rs).
  { unfold rs. rewrite List.Forall_forall in *. intros r Hin.
    apply in_map_iff in Hin. destruct Hin as (e & <- & Hin). now apply Hall. }
  assert (Hl : length rs = length weekEntries) by apply length_map.
  assert (Hpos : (0 < length rs)%nat)
    by (rewrite Hl; destruct weekEntries; simpl; [easy | lia]).
  exists ((200 * sum_Z rs + Z.of_nat (length rs)) / (2 * Z.of_nat (length rs))).
  split.
  - apply rounded_mean_half_up. intros ->. simpl in Hpos. lia.
  - unfold avgRating, ratings. rewrite filter_true. fold rs.
    destruct (0 <? length rs)%nat eqn:H0; [| apply Nat.ltb_ge in H0; lia].
    change 0%float with (Z2F 0).
    rewrite float_sum_small by (auto; simpl; lia). simpl.
    pose proof (sum_Z_bound rs Hrs).
    apply float_round_small; lia.
Qed.

Lemma missingDays_loop {A : Type} (p : A -> bool) (f : A -> jsstring)
    (l : list A) (missing : list jsstring) :
  fold_left (fun missing i => if p i then missing ++ [f i] else missing)
            l missing
  = missing ++ List.map f (List.filter p l).
Proof.
  revert missing. induction l as [| i l IH]; simpl; intros missing.
  - now rewrite app_nil_r.
  - rewrite IH. destruct (p i); simpl; [| reflexivity].
    now rewrite <- app_assoc.
Qed.

Lemma filter_map_comm {A B : Type} (q : B -> bool) (f : A -> B) (l : list A) :
  List.filter q (List.map f l) = List.map f (List.filter (fun x => q (f x)) l).
Proof.
  induction l as [| x l IH]; simpl; [reflexivity |].
  destruct (q (f x)); simpl; now rewrite IH.
Qed.

(** The loop collects, in order, the days of the window that are the date
    of no entry. *)
Lemma missingDays_filter weekEntries weekStart :
  missingDays weekEntries weekStart
  = List.filter
      (fun d => negb (includes (List.map (fun e => toISODate (date e))
                                         weekEntries) d))
      (window_days weekStart).
Proof.
  unfold missingDays, window_days.
  rewrite (missingDays_loop
             (fun i => negb (includes
                               (List.map (fun e => toISODate (date e)) weekEntries)
                               (toISODate (Date_addDays weekStart (Z.of_nat i)))))
             (fun i => toISODate (Date_addDays weekStart (Z.of_nat i)))).
  simpl app. now rewrite filter_map_comm.
Qed.

Lemma pad_decimal_digit (n : Z) : is_digit (Z.to_N (48 + n mod 10)) = true.
Proof.
  pose proof (Z.mod_pos_bound n 10 ltac:(lia)).
  unfold is_digit. apply andb_true_iff. split; apply N.leb_le; lia.
Qed.

Lemma toISODate_shape d :
  0 <= year_of d <= 9999 -> iso_date_shape (toISODate d) = true.
Proof.
  unfold year_of, toISODate.
  destruct (civil_from_days (d / msPerDay)) as [[y m] dd]. simpl fst.
  intros Hy. unfold iso_year.
  replace ((0 <=? y) && (y <=? 9999)) with true
    by (symmetry; apply andb_true_iff; split; apply Z.leb_le; lia).
  cbn [pad_decimal app iso_date_shape forallb].
  rewrite !pad_decimal_digit. reflexivity.
Qed.

(** C6. For the entries of a user in a window, as [summarizeWeek] reads
    them from a store that the public methods can produce, when there is
    at least one: [entryCount] is their number; [avgRating] is the Number
    nearest to k/100, where k/100 is the arithmetic mean of their ratings
    rounded to two decimal places (1.5 for the ratings 2 and 1), and it is
    0 for no entry; [missingDays] lists, in the order of the window, the
    seven dates of the window that are the date of no entry, each printed
    as YYYY-MM-DD. *)
Theorem weekly_aggregates (this : JournalEntries) (user : jsstring)
    (weekStart : Date) :
  reachable this ->
  let weekEntries :=
    getEntriesInRange this user weekStart (Date_addDays weekStart 6) in
  weekEntries <> [] ->
  entryCount weekEntries = length (entries_in_window this user weekStart)
  /\ (exists k,
        rounded_mean (List.map rating weekEntries) k
        /\ avgRating weekEntries = PrimFloat.div (Z2F k) 100%float)
  /\ (List.map rating weekEntries = [2; 1] -> avgRating weekEntries = 1.5%float)
  /\ avgRating [] = 0%float
  /\ missingDays weekEntries weekStart
     = List.filter
         (fun d => negb (includes (List.map (fun e => toISODate (date e))
                                            weekEntries) d))
         (window_days weekStart)
  /\ (forall d, In d (missingDays weekEntries weekStart)
                <-> In d (window_days weekStart)
                    /\ ~ exists e, In e weekEntries /\ toISODate (date e) = d)
  /\ (forall i, 0 <= i < 7 ->
                0 <= year_of (Date_addDays weekStart i) <= 9999 ->
                iso_date_shape (toISODate (Date_addDays weekStart i)) = true).
Proof.
  intros Hr weekEntries Hne.
  pose proof (getEntriesInRange_perm this user weekStart) as Hperm.
  fold weekEntries in Hperm.
  assert (Hlen : length weekEntries = length (entries_in_window this user weekStart))
    by now apply Permutation_length.
  split; [exact Hlen |]. split.
  { apply avgRating_small; [exact Hne | |].
    - rewrite Hlen. now apply window_at_most_seven.
    - destruct (reachable_ok _ Hr) as [[_ Hall] _].
      rewrite List.Forall_forall in *. intros e Hin.
      apply (Permutation_in _ Hperm) in Hin. apply in_range_filter in Hin.
      destruct Hin as [Hin _]. apply in_map_iff in Hin.
      destruct Hin as (kv & <- & Hin). destruct (Hall kv Hin) as [_ Hv].
      unfold valid_rating in Hv. simpl in Hv.
      rewrite !orb_true_iff, !Z.eqb_eq in Hv. lia. }
  split.
  { intros Hrs. unfold avgRating, ratings. rewrite filter_true, Hrs.
    vm_compute. reflexivity. }
  split; [reflexivity |]. split; [apply missingDays_filter |]. split.
  { intros d. rewrite missingDays_filter, filter_In, negb_true_iff.
    rewrite <- not_true_iff_false, includes_In, in_map_iff.
    split; intros [Hw Hno]; (split; [exact Hw |]);
      intros (e & H1 & H2); apply Hno; eauto. }
  intros i _. apply toISODate_shape.
Qed.

Lemma weekly_aggregates_witness :
  let weekEntries :=
    getEntriesInRange exp1_store (js "user-exp1") monday (Date_addDays monday 6) in
  entryCount weekEntries = 2%nat
  /\ avgRating weekEntries = 1%float
  /\ missingDays weekEntries monday
     = [js "2025-10-07"; js "2025-10-08"; js "2025-10-10"; js "2025-10-11";
        js "2025-10-12"].
Proof.
  intros weekEntries.
  pose proof (weekly_aggregates exp1_store (js "user-exp1") monday) as H.
  destruct H as (Hc & _ & _ & _ & Hm & _).
  - unfold exp1_store. repeat constructor.
  - vm_compute. discriminate.
  - split; [exact Hc |]. split; [vm_compute; reflexivity |].
    fold weekEntries in Hm. rewrite Hm. vm_compute. reflexivity.
Defined.

(** ** The matcher *)

Lemma last_or_app p m1 m2 : last_or p (m1 ++ m2) = last_or (last_or p m1) m2.
Proof. unfold last_or. apply fold_left_app. Qed.

Lemma last_or_cons p c m : last_or p (c :: m) = last_or (Some c) m.
Proof. reflexivity. Qed.

Lemma last_or_snoc p m c : last_or p (m ++ [c]) = Some c.
Proof. now rewrite last_or_app. Qed.

(** A search succeeds exactly when the pattern matches at some position
    of the text. *)
Lemma exec_from_Some ic r k prev s :
  (exists res, exec_from ic r k prev s = Some res)
  <-> exists pre post,
        s = pre ++ post /\ rmatch ic r (last_or prev pre, post) <> [].
Proof.
  revert k prev. induction s as [| c s IH]; intros k prev; simpl.
  - destruct (rmatch ic r (prev, [])) as [| st' l] eqn:Hm.
    + split; [intros [res [=]] |].
      intros (pre & post & Heq & Hne). symmetry in Heq.
      apply app_eq_nil in Heq. destruct Heq as [-> ->]. simpl in Hne.
      now rewrite Hm in Hne.
    + split; [| eauto]. intros _. exists [], []. simpl. now rewrite Hm.
  - destruct (rmatch ic r (prev, c :: s)) as [| st' l] eqn:Hm.
    + rewrite IH. split.
      * intros (pre & post & -> & Hne). exists (c :: pre), post. auto.
      * intros (pre & post & Heq & Hne). destruct pre as [| x pre].
        -- simpl in *. subst post. now rewrite Hm in Hne.
        -- injection Heq as -> ->. exists pre, post. auto.
    + split; [| eauto]. intros _. exists [], (c :: s). simpl. now rewrite Hm.
Qed.

Lemma RegExp_test_true ic r s :
  RegExp_test ic r s = true
  <-> exists pre post,
        s = pre ++ post /\ rmatch ic r (last_or None pre, post) <> [].
Proof.
  unfold RegExp_test. rewrite <- (exec_from_Some ic r 0 None s).
  destruct (exec_from ic r 0 None s); split; eauto; try discriminate.
  intros [res [=]].
Qed.

(** A greedy iteration of a class. *)
Lemma star_iter_class ic f fuel p s :
  (length s <= fuel)%nat ->
  star_iter (rmatch ic (RClass f)) fuel (p, s) = run_positions f p s.
Proof.
  revert p s. induction fuel as [| fuel IH]; intros p s Hlen.
  - destruct s; [reflexivity | simpl in Hlen; lia].
  - destruct s as [| c s]; [reflexivity |]. cbn [star_iter run_positions].
    change (rmatch ic (RClass f) (p, c :: s))
      with (if f c then [(Some c, s)] else []).
    destruct (f c); [| reflexivity]. cbn [flat_map].
    unfold consumed. cbn [snd length].
    replace (length s <? S (length s))%nat with true
      by (symmetry; apply Nat.ltb_lt; lia).
    rewrite app_nil_r. simpl in Hlen.
    rewrite (IH (Some c) s) by lia. reflexivity.
Qed.

Lemma rmatch_star_class ic f p s :
  rmatch ic (RStar (RClass f)) (p, s) = run_positions f p s.
Proof. exact (star_iter_class ic f (length s) p s (le_n _)). Qed.

Lemma in_run_positions f p s st' :
  In st' (run_positions f p s)
  <-> exists m, s = m ++ snd st' /\ Forall (fun c => f c = true) m
                /\ fst st' = last_or p m.
Proof.
  revert p. induction s as [| c s IH]; intros p; simpl.
  - split.
    + intros [<- | []]. exists []. auto.
    + intros (m & Heq & _ & Hp). symmetry in Heq.
      apply app_eq_nil in Heq. destruct Heq as [-> Hs]. left.
      destruct st'; simpl in *; now subst.
  - destruct (f c) eqn:Hf.
    + rewrite in_app_iff, IH. split.
      * intros [(m & Heq & Hall & Hp) | [<- | []]].
        -- exists (c :: m). simpl. rewrite Heq at 1. auto.
        -- exists []. auto.
      * intros (m & Heq & Hall & Hp). destruct m as [| x m].
        -- right. left. destruct st'; simpl in *; now subst.
        -- left. injection Heq as <- Heq. inversion Hall; subst.
           exists m. auto.
    + split.
      * intros [<- | []]. exists []. auto.
      * intros (m & Heq & Hall & Hp). destruct m as [| x m].
        -- left. destruct st'; simpl in *; now subst.
        -- injection Heq as <- Heq. inversion Hall; subst. congruence.
Qed.

(** A literal word. *)
Lemma rmatch_lit ic w p s :
  rmatch ic (RLit w) (p, s)
  = match strip_lit ic w p s with
    | Some st' => [st']
    | None => []
    end.
Proof.
  revert p s. induction w as [| c w IH]; intros p s; simpl; [reflexivity |].
  destruct s as [| x s]; simpl; [reflexivity |].
  destruct (char_matches ic c x); simpl; [| reflexivity].
  rewrite IH. now rewrite app_nil_r.
Qed.

Lemma char_matches_ci c x :
  char_matches true c x = true <-> canonicalize c = canonicalize x.
Proof. unfold char_matches. apply N.eqb_eq. Qed.

Lemma strip_lit_ci w p s st' :
  strip_lit true w p s = Some st'
  <-> exists m, s = m ++ snd st' /\ same_word w m /\ fst st' = last_or p m.
Proof.
  revert p s. induction w as [| c w IH]; intros p s; cbn [strip_lit].
  - split.
    + intros [= <-]. exists []. repeat split. constructor.
    + intros (m & -> & Hw & Hp). inversion Hw; subst. simpl in *.
      destruct st'; simpl in *; now subst.
  - destruct s as [| x s].
    + split; [discriminate |]. intros (m & Heq & Hw & _).
      inversion Hw; subst. discriminate.
    + destruct (char_matches true c x) eqn:Hc.
      * rewrite IH. apply char_matches_ci in Hc. split.
        -- intros (m & -> & Hw & Hp). exists (x :: m). repeat split; auto.
           now constructor.
        -- intros (m & Heq & Hw & Hp). inversion Hw as [| ? y ? m' ? Hw']; subst.
           injection Heq as <- ->. exists m'. auto.
      * split; [discriminate |]. intros (m & Heq & Hw & _).
        inversion Hw as [| ? y ? m' Hcy Hw']; subst. injection Heq as <- ->.
        apply char_matches_ci in Hcy. congruence.
Qed.

Lemma same_word_length w m : same_word w m -> length m = length w.
Proof. intros H. symmetry. exact (Forall2_length _ _ _ H). Qed.

Lemma rmatch_seq ic r1 r2 st :
  rmatch ic (RSeq r1 r2) st = flat_map (rmatch ic r2) (rmatch ic r1 st).
Proof. reflexivity. Qed.

Lemma rmatch_alt ic r1 r2 st :
  rmatch ic (RAlt r1 r2) st = rmatch ic r1 st ++ rmatch ic r2 st.
Proof. reflexivity. Qed.

Lemma rmatch_opt ic r st :
  rmatch ic (ROpt r) st = List.filter (consumed st) (rmatch ic r st) ++ [st].
Proof. reflexivity. Qed.

Lemma rmatch_class ic f p s :
  rmatch ic (RClass f) (p, s)
  = match s with
    | c :: rest => if f c then [(Some c, rest)] else []
    | [] => []
    end.
Proof. reflexivity. Qed.

Lemma rmatch_char ic c p s :
  rmatch ic (RChar c) (p, s)
  = match s with
    | x :: rest => if char_matches ic c x then [(Some x, rest)] else []
    | [] => []
    end.
Proof. reflexivity. Qed.

(** ** The JSON parser never runs out of fuel *)

Lemma skip_json_ws_length (s : jsstring) :
  (length (skip_json_ws s) <= length s)%nat.
Proof.
  induction s as [|c s IH]; cbn; [lia|].
  destruct (is_json_ws c); cbn; lia.
Qed.

Lemma starts_with_length (c : N) (s rest : jsstring) :
  starts_with c s = Some rest -> length s = S (length rest).
Proof.
  destruct s as [|x s]; cbn; [discriminate|].
  destruct (x =? c)%N; [|discriminate]. now intros [= ->].
Qed.

Lemma strip_prefix_length (w s rest : jsstring) :
  strip_prefix w s = Some rest -> (length s = length w + length rest)%nat.
Proof.
  revert s. induction w as [|c w IH]; intros s; cbn.
  - now intros [= ->].
  - destruct (starts_with c s) as [t|] eqn:E; [|discriminate].
    intros H. apply IH in H. apply starts_with_length in E. lia.
Qed.

Lemma expect_length (c : N) (s rest : jsstring) :
  expect c s = Some rest -> (length rest < length s)%nat.
Proof.
  unfold expect. intros H. apply starts_with_length in H.
  pose proof (skip_json_ws_length s). lia.
Qed.

Lemma parse_string_chars_length (s acc str rest : jsstring) :
  parse_string_chars s acc = Some (str, rest) -> (length rest < length s)%nat.
Proof.
  remember (length s) as n eqn:En. revert s acc En.
  induction n as [n IH] using lt_wf_ind. intros s acc ->.
  destruct s as [|c s]; cbn [parse_string_chars]; [discriminate|].
  destruct (c =? 34)%N.
  { intros [= _ ->]. cbn. lia. }
  destruct (c =? 92)%N.
  - destruct s as [|e s1]; [discriminate|].
    destruct (e =? 117)%N.
    + destruct s1 as [|a [|b [|c' [|d s2]]]]; try discriminate.
      destruct (hex4 a b c' d); [|discriminate].
      intros H. eapply IH in H; [| |reflexivity]; cbn in *; lia.
    + destruct (escape_char e); [|discriminate].
      intros H. eapply IH in H; [| |reflexivity]; cbn in *; lia.
  - destruct (c <? 32)%N; [discriminate|].
    intros H. eapply IH in H; [| |reflexivity]; cbn in *; lia.
Qed.

Lemma span_digits_length (s ds rest : jsstring) :
  span_digits s = (ds, rest) -> (length s = length ds + length rest)%nat.
Proof.
  revert ds rest. induction s as [|c s IH]; intros ds rest; cbn.
  - now intros [= <- <-].
  - destruct (is_digit c).
    + destruct (span_digits s) as [ds' rest'].
      intros [= <- <-]. cbn. now rewrite (IH _ _ eq_refl).
    + now intros [= <- <-].
Qed.

Lemma digits1_length (s ds rest : jsstring) :
  digits1 s = Some (ds, rest) -> (length rest < length s)%nat.
Proof.
  unfold digits1. destruct (span_digits s) as [[|d ds'] rest'] eqn:E;
    [discriminate|].
  intros [= <- <-]. apply span_digits_length in E. cbn in E. lia.
Qed.

Lemma parse_fraction_length (s fs rest : jsstring) :
  parse_fraction s = Some (fs, rest) -> (length rest <= length s)%nat.
Proof.
  unfold parse_fraction. destruct (starts_with 46 s) as [s1|] eqn:E.
  - intros H. apply digits1_length in H. apply starts_with_length in E. lia.
  - now intros [= _ ->].
Qed.

Lemma parse_exponent_length (s rest : jsstring) (e : Z) :
  parse_exponent s = Some (e, rest) -> (length rest <= length s)%nat.
Proof.
  unfold parse_exponent. destruct s as [|c s1]; [now intros [= _ <-]|].
  destruct ((c =? 101) || (c =? 69))%N; [|now intros [= _ <-]].
  assert (Hsign : forall neg s2,
    match starts_with 45 s1, starts_with 43 s1 with
    | Some t, _ => (true, t)
    | None, Some t => (false, t)
    | None, None => (false, s1)
    end = (neg, s2) -> (length s2 <= length s1)%nat).
  { intros neg s2.
    destruct (starts_with 45 s1) as [t|] eqn:E1.
    - intros [= _ <-]. apply starts_with_length in E1. lia.
    - destruct (starts_with 43 s1) as [t|] eqn:E2.
      + intros [= _ <-]. apply starts_with_length in E2. lia.
      + now intros [= _ <-]. }
  destruct (match starts_with 45 s1, starts_with 43 s1 with
    | Some t, _ => (true, t)
    | None, Some t => (false, t)
    | None, None => (false, s1)
    end) as [neg s2].
  specialize (Hsign _ _ eq_refl).
  destruct (digits1 s2) as [[ds r]|] eqn:Ed; [|discriminate].
  intros [= _ <-]. apply digits1_length in Ed. cbn. lia.
Qed.

Lemma parse_number_length (s rest : jsstring) (v : json) :
  parse_number s = Some (v, rest) -> (length rest < length s)%nat.
Proof.
  unfold parse_number.
  destruct (match starts_with 45 s with
            | Some t => (true, t)
            | None => (false, s)
            end) as [neg s1] eqn:E.
  assert (Hs1 : (length s1 <= length s)%nat).
  { destruct (starts_with 45 s) as [t|] eqn:E1.
    - injection E as _ <-. apply starts_with_length in E1. lia.
    - now injection E as _ <-. }
  destruct (digits1 s1) as [[ds s2]|] eqn:Ed; [|discriminate].
  apply digits1_length in Ed.
  destruct (match ds with c :: _ :: _ => (c =? 48)%N | _ => false end);
    [discriminate|].
  destruct (parse_fraction s2) as [[fs s3]|] eqn:Ef; [|discriminate].
  apply parse_fraction_length in Ef.
  destruct (parse_exponent s3) as [[e s4]|] eqn:Ee; [|discriminate].
  apply parse_exponent_length in Ee.
  intros [= _ <-]. lia.
Qed.

Lemma parse_literal_length (s rest : jsstring) (v : json) :
  parse_literal s = Some (v, rest) -> (length rest < length s)%nat.
Proof.
  unfold parse_literal.
  destruct (strip_prefix (js "true") s) as [r|] eqn:E1.
  { intros [= _ <-]. apply strip_prefix_length in E1. cbn in E1. lia. }
  destruct (strip_prefix (js "false") s) as [r|] eqn:E2.
  { intros [= _ <-]. apply strip_prefix_length in E2. cbn in E2. lia. }
  destruct (strip_prefix (js "null") s) as [r|] eqn:E3.
  { intros [= _ <-]. apply strip_prefix_length in E3. cbn in E3. lia. }
  apply parse_number_length.
Qed.

Lemma next_separator_length (close : N) (s : jsstring) :
  match next_separator close s with
  | Comma rest | Close rest => (length rest < length s)%nat
  | NoSeparator => True
  end.
Proof.
  unfold next_separator. pose proof (skip_json_ws_length s) as H.
  destruct (skip_json_ws s) as [|x rest]; [exact I|].
  cbn in H. destruct (x =? 44)%N; [lia|].
  destruct (x =? close)%N; [lia|exact I].
Qed.

Lemma member_key_length (s k rest : jsstring) :
  member_key s = Some (k, rest) -> (length rest < length s)%nat.
Proof.
  unfold member_key.
  destruct (expect 34 s) as [s1|] eqn:E1; [|discriminate].
  destruct (parse_string_chars s1 []) as [[k' s2]|] eqn:E2; [|discriminate].
  destruct (expect 58 s2) as [s3|] eqn:E3; [|discriminate].
  intros [= _ <-].
  apply expect_length in E1, E3. apply parse_string_chars_length in E2. lia.
Qed.

(** Each of the three parsers consumes a character at least. *)
Lemma parsers_length (n : nat) :
  (forall s v rest,
     parse_value n s = Some (v, rest) -> (length rest < length s)%nat) /\
  (forall s kvs rest,
     parse_members n s = Some (kvs, rest) -> (length rest < length s)%nat) /\
  (forall s vs rest,
     parse_elements n s = Some (vs, rest) -> (length rest < length s)%nat).
Proof.
  induction n as [|n (IHv & IHm & IHe)];
    [repeat split; intros; discriminate|].
  repeat split.
  - intros s v rest. cbn [parse_value].
    pose proof (skip_json_ws_length s) as Hws.
    destruct (skip_json_ws s) as [|c s1] eqn:Es; [discriminate|].
    cbn [length] in Hws.
    destruct (c =? 123)%N.
    { destruct (expect 125 s1) as [s2|] eqn:E.
      - intros [= _ <-]. apply expect_length in E. lia.
      - destruct (parse_members n s1) as [[kvs s2]|] eqn:Em; [|discriminate].
        intros [= _ <-]. apply IHm in Em. lia. }
    destruct (c =? 91)%N.
    { destruct (expect 93 s1) as [s2|] eqn:E.
      - intros [= _ <-]. apply expect_length in E. lia.
      - destruct (parse_elements n s1) as [[vs s2]|] eqn:Ee; [|discriminate].
        intros [= _ <-]. apply IHe in Ee. lia. }
    destruct (c =? 34)%N.
    { destruct (parse_string_chars s1 []) as [[str s2]|] eqn:E;
        [|discriminate].
      intros [= _ <-]. apply parse_string_chars_length in E. lia. }
    intros H. apply parse_literal_length in H. cbn [length] in H. lia.
  - intros s kvs rest. cbn [parse_members].
    destruct (member_key s) as [[k s3]|] eqn:Ek; [|discriminate].
    apply member_key_length in Ek.
    destruct (parse_value n s3) as [[v s4]|] eqn:Ev; [|discriminate].
    apply IHv in Ev.
    pose proof (next_separator_length 125 s4) as Hsep.
    destruct (next_separator 125 s4) as [s5|s5|]; [| |discriminate].
    + destruct (parse_members n s5) as [[kvs' s6]|] eqn:Em; [|discriminate].
      intros [= _ <-]. apply IHm in Em. lia.
    + intros [= _ <-]. lia.
  - intros s vs rest. cbn [parse_elements].
    destruct (parse_value n s) as [[v s1]|] eqn:Ev; [|discriminate].
    apply IHv in Ev.
    pose proof (next_separator_length 93 s1) as Hsep.
    destruct (next_separator 93 s1) as [s2|s2|]; [| |discriminate].
    + destruct (parse_elements n s2) as [[vs' s3]|] eqn:Ee; [|discriminate].
      intros [= _ <-]. apply IHe in Ee. lia.
    + intros [= _ <-]. lia.
Qed.

(** With more fuel than twice the length of the input, the amount of fuel
    does not matter. *)
Lemma parsers_stable (n : nat) : forall m : nat,
  (forall s, (2 * length s < n)%nat -> (2 * length s < m)%nat ->
     parse_value n s = parse_value m s) /\
  (forall s, (2 * length s < n)%nat -> (2 * length s < m)%nat ->
     parse_members n s = parse_members m s) /\
  (forall s, (2 * length s + 1 < n)%nat -> (2 * length s + 1 < m)%nat ->
     parse_elements n s = parse_elements m s).
Proof.
  induction n as [|n IH]; intros m; [repeat split; intros; lia|].
  destruct m as [|m]; [repeat split; intros; lia|].
  destruct (IH m) as (IHv & IHm & IHe).
  repeat split; intros s Hn Hm.
  - cbn [parse_value].
    pose proof (skip_json_ws_length s) as Hws.
    destruct (skip_json_ws s) as [|c s1] eqn:Es; [reflexivity|].
    cbn [length] in Hws.
    destruct (c =? 123)%N.
    { destruct (expect 125 s1); [reflexivity|].
      rewrite (IHm s1) by lia. reflexivity. }
    destruct (c =? 91)%N; [|reflexivity].
    destruct (expect 93 s1); [reflexivity|].
    rewrite (IHe s1) by lia. reflexivity.
  - cbn [parse_members].
    destruct (member_key s) as [[k s3]|] eqn:Ek; [|reflexivity].
    apply member_key_length in Ek.
    rewrite <- (IHv s3) by lia.
    destruct (parse_value n s3) as [[v s4]|] eqn:Ev; [|reflexivity].
    apply (proj1 (parsers_length n)) in Ev.
    pose proof (next_separator_length 125 s4) as Hsep.
    destruct (next_separator 125 s4) as [s5|s5|]; try reflexivity.
    rewrite (IHm s5) by lia. reflexivity.
  - cbn [parse_elements].
    rewrite <- (IHv s) by lia.
    destruct (parse_value n s) as [[v s1]|] eqn:Ev; [|reflexivity].
    apply (proj1 (parsers_length n)) in Ev.
    pose proof (next_separator_length 93 s1) as Hsep.
    destruct (next_separator 93 s1) as [s2|s2|]; try reflexivity.
    rewrite (IHe s2) by lia. reflexivity.
Qed.

(** [JSON_parse] gives its parser enough fuel: any larger amount yields
    the same result, so that [None] always stands for a syntax error. *)
Lemma JSON_fuel_adequate (text : jsstring) (n : nat) :
  (JSON_fuel text <= n)%nat ->
  parse_value n text = parse_value (JSON_fuel text) text.
Proof.
  unfold JSON_fuel. intros Hn.
  apply (proj1 (parsers_stable n (2 * length text + 2))); lia.
Qed.

(** ** V1: shape and limits *)

Lemma drop_ws_split s :
  exists l, s = l ++ drop_ws s /\ all_ws l.
Proof.
  induction s as [| c s (l & Heq & Hl)]; simpl.
  - exists []. split; [reflexivity | constructor].
  - destruct (is_ws c) eqn:Hc.
    + exists (c :: l). simpl. rewrite <- Heq. split; [reflexivity |].
      now constructor.
    + exists []. split; [reflexivity | constructor].
Qed.

Lemma drop_ws_head s :
  drop_ws s = [] \/ exists c t, drop_ws s = c :: t /\ is_ws c = false.
Proof.
  induction s as [| c s IH]; simpl; [now left |].
  destruct (is_ws c) eqn:Hc; [exact IH | right; eauto].
Qed.

Lemma drop_ws_all_ws s : all_ws s -> drop_ws s = [].
Proof.
  induction 1 as [| c s Hc _ IH]; simpl; [reflexivity |]. now rewrite Hc.
Qed.

Lemma drop_ws_nil s : drop_ws s = [] -> all_ws s.
Proof.
  intros H. destruct (drop_ws_split s) as (l & Heq & Hl).
  rewrite H, app_nil_r in Heq. now subst.
Qed.

Lemma all_ws_rev s : all_ws (rev s) <-> all_ws s.
Proof.
  unfold all_ws. rewrite !List.Forall_forall.
  split; intros H c Hin; apply H; [now apply in_rev in Hin | now apply in_rev].
Qed.

(** What [trim] leaves: the text between a whitespace prefix and a
    whitespace suffix, empty or with a non-space character at both ends. *)
Lemma trim_split s :
  exists l r,
    s = l ++ trim s ++ r /\ all_ws l /\ all_ws r
    /\ (trim s = []
        \/ exists a t b u,
             trim s = a :: t /\ trim s = u ++ [b]
             /\ is_ws a = false /\ is_ws b = false).
Proof.
  destruct (drop_ws_split s) as (l & Hs & Hl).
  destruct (drop_ws_split (rev (drop_ws s))) as (l' & Hd & Hl').
  assert (Hd' : drop_ws s = trim s ++ rev l').
  { unfold trim. rewrite <- rev_app_distr, <- Hd. now rewrite rev_involutive. }
  exists l, (rev l'). split; [now rewrite <- Hd' |].
  split; [assumption |]. split; [now apply all_ws_rev |].
  unfold trim in *.
  destruct (drop_ws_head (rev (drop_ws s))) as [-> | (b & u & Hu & Hb)];
    [now left |].
  right. rewrite Hu in *. simpl in *.
  destruct (drop_ws_head s) as [Hnil | (a & t & Ht & Ha)].
  - rewrite Hnil in Hd'. symmetry in Hd'. apply app_eq_nil in Hd'.
    destruct Hd' as [Hd' _]. now apply app_eq_nil in Hd' as [_ [=]].
  - rewrite Ht in Hd'. destruct (rev u) as [| a' t'] eqn:Hru; simpl in *.
    + injection Hd' as Hab _. subst a. exists b, [], b, []. auto.
    + injection Hd' as Hab _. subst a'. exists a, (t' ++ [b]), b, (a :: t').
      auto.
Qed.

Lemma trim_nil_iff s : trim s = [] <-> all_ws s.
Proof.
  split.
  - intros Ht. destruct (trim_split s) as (l & r & Hs & Hl & Hr & _).
    rewrite Ht in Hs. simpl in Hs. subst s. now apply Forall_app.
  - intros Hs. unfold trim. now rewrite (drop_ws_all_ws s Hs).
Qed.

Lemma blank_iff s : blank s = true <-> all_ws s.
Proof.
  unfold blank. rewrite orb_true_iff, bool_decide_eq_true, Nat.eqb_eq.
  rewrite length_zero_iff_nil, trim_nil_iff. split; [| auto].
  intros [-> | H]; [constructor | exact H].
Qed.

Lemma count_words_ws_right b x r :
  all_ws r ->
  count_runs (fun c => negb (is_ws c)) b (x ++ r)
  = count_runs (fun c => negb (is_ws c)) b x.
Proof.
  intros Hr. revert b. induction x as [| c x IH]; intros b; simpl.
  - revert b. induction Hr as [| c r Hc _ IH]; intros b; simpl;
      [reflexivity |]. rewrite Hc. simpl. apply IH.
  - now rewrite !IH.
Qed.

Lemma count_words_ws_left l x :
  all_ws l ->
  count_runs (fun c => negb (is_ws c)) false (l ++ x)
  = count_runs (fun c => negb (is_ws c)) false x.
Proof.
  induction 1 as [| c l Hc _ IH]; simpl; [reflexivity |]. now rewrite Hc.
Qed.

Lemma count_words_trim s : count_words (trim s) = count_words s.
Proof.
  destruct (trim_split s) as (l & r & Hs & Hl & Hr & _). unfold count_words.
  rewrite Hs at 2.
  now rewrite count_words_ws_left, count_words_ws_right.
Qed.

(** Words and gaps alternate. *)
Lemma words_and_gaps b s :
  fold_left (fun _ c => negb (is_ws c)) s b = true ->
  (count_runs (fun c => negb (is_ws c)) b s + (if b then 1 else 0)
   = count_runs is_ws (negb b) s + 1)%nat.
Proof.
  revert b. induction s as [| c s IH]; intros b; simpl.
  - intros ->. reflexivity.
  - intros H. specialize (IH _ H).
    destruct (is_ws c), b; simpl in *; lia.
Qed.

Lemma words_of_trimmed a t b u :
  is_ws a = false -> is_ws b = false -> a :: t = u ++ [b] ->
  count_words (a :: t) = (1 + count_runs is_ws false (a :: t))%nat.
Proof.
  intros Ha Hb Heq.
  pose proof (words_and_gaps false (a :: t)) as H.
  rewrite Heq, fold_left_app in H. simpl in H. rewrite Hb in H.
  specialize (H eq_refl). rewrite <- Heq in H. unfold count_words.
  simpl in *. rewrite Ha in *. simpl in *. lia.
Qed.

(** The separator [/\s+/] at a position: the longest run of whitespace. *)
Lemma rmatch_wsPattern p s :
  rmatch false wsPattern (p, s)
  = match s with
    | c :: s' => if is_ws c then run_positions is_ws (Some c) s' else []
    | [] => []
    end.
Proof.
  unfold wsPattern, RPlus. cbn [rmatch snd].
  destruct s as [| c s]; [reflexivity |].
  destruct (is_ws c); [| reflexivity]. cbn [flat_map].
  rewrite app_nil_r. apply (rmatch_star_class false is_ws (Some c) s).
Qed.

Lemma run_positions_head p s :
  exists q l, run_positions is_ws p s = (q, drop_ws s) :: l.
Proof.
  revert p. induction s as [| c s IH]; intros p; simpl; [eauto |].
  destruct (is_ws c); [| eauto].
  destruct (IH (Some c)) as (q & l & ->). simpl. eauto.
Qed.

Lemma drop_ws_length s : (length (drop_ws s) <= length s)%nat.
Proof.
  induction s as [| c s IH]; simpl; [lia |]. destruct (is_ws c); simpl; lia.
Qed.

Lemma count_gaps_drop s :
  count_runs is_ws true s = count_runs is_ws false (drop_ws s).
Proof.
  induction s as [| c s IH]; simpl; [reflexivity |].
  destruct (is_ws c) eqn:Hc; simpl; [exact IH | now rewrite Hc].
Qed.

Lemma split_loop_ws fuel p acc s :
  (length s < fuel)%nat ->
  length (split_loop false wsPattern fuel p acc s)
  = (1 + count_runs is_ws false s)%nat.
Proof.
  revert p acc s. induction fuel as [| fuel IH]; intros p acc s Hlen; [lia |].
  destruct s as [| c s]; [reflexivity |]. cbn [split_loop].
  rewrite rmatch_wsPattern. cbn [count_runs]. destruct (is_ws c) eqn:Hc.
  - destruct (run_positions_head (Some c) s) as (q & l & ->).
    unfold match_length. cbn [snd fst].
    pose proof (drop_ws_length s) as Hd. simpl in Hlen.
    replace (length (c :: s) - length (drop_ws s) =? 0)%nat with false
      by (symmetry; apply Nat.eqb_neq; simpl; lia).
    cbn [andb length]. rewrite IH by lia.
    now rewrite count_gaps_drop.
  - simpl in Hlen. rewrite IH by lia. reflexivity.
Qed.

(** The word count of the source is the number of words. *)
Lemma wordCount_words s : ~ all_ws s -> wordCount s = count_words s.
Proof.
  intros Hs. unfold wordCount. rewrite <- count_words_trim.
  destruct (trim_split s) as (_ & _ & _ & _ & _ & [Hnil | Ht]).
  - exfalso. apply Hs. now apply trim_nil_iff.
  - destruct Ht as (a & t & b & u & Ht & Hu & Ha & Hb). rewrite Ht.
    rewrite (words_of_trimmed a t b u Ha Hb) by congruence.
    unfold String_split. apply split_loop_ws. simpl. lia.
Qed.

Lemma all_ws_dec s : all_ws s \/ ~ all_ws s.
Proof.
  destruct (blank s) eqn:Hb.
  - left. now apply blank_iff.
  - right. intros H. apply blank_iff in H. congruence.
Qed.

(** C7. V1 rejects a parsed result exactly when its summary or its focus
    is empty after trimming whitespace, or the summary has more than 120
    whitespace-delimited words, or the focus more than 60.  So a summary
    of 121 words is rejected, and one of exactly 120 words passes when the
    focus is valid. *)
Theorem validateV1_rejects_iff (result : LLMResult) :
  ((exists e, validateV1_ShapeAndLimits result = Throw e)
   <-> all_ws (summary result) \/ all_ws (focus result)
       \/ (120 < count_words (summary result))%nat
       \/ (60 < count_words (focus result))%nat)
  /\ (count_words (summary result) = 121%nat ->
      exists e, validateV1_ShapeAndLimits result = Throw e)
  /\ (count_words (summary result) = 120%nat ->
      ~ all_ws (focus result) -> (count_words (focus result) <= 60)%nat ->
      validateV1_ShapeAndLimits result = Ok tt).
Proof.
  assert (Hiff : (exists e, validateV1_ShapeAndLimits result = Throw e)
                 <-> all_ws (summary result) \/ all_ws (focus result)
                     \/ (120 < count_words (summary result))%nat
                     \/ (60 < count_words (focus result))%nat).
  { unfold validateV1_ShapeAndLimits. cbn [Object_keys List.filter].
    replace (includes [js "summary"; js "focus"] (js "summary")) with true
      by (vm_compute; reflexivity).
    replace (includes [js "summary"; js "focus"] (js "focus")) with true
      by (vm_compute; reflexivity).
    cbn [negb length]. change (0 <? 0)%nat with false. cbv iota.
    destruct (blank (summary result)) eqn:Hbs.
    { apply blank_iff in Hbs.
      split; [intros _; left; exact Hbs | intros _; eexists; reflexivity]. }
    destruct (blank (focus result)) eqn:Hbf.
    { apply blank_iff in Hbf.
      split; [intros _; right; left; exact Hbf | intros _; eexists; reflexivity]. }
    assert (Hs : ~ all_ws (summary result))
      by (intros H; apply blank_iff in H; congruence).
    assert (Hf : ~ all_ws (focus result))
      by (intros H; apply blank_iff in H; congruence).
    rewrite (wordCount_words _ Hs), (wordCount_words _ Hf).
    destruct (120 <? count_words (summary result))%nat eqn:H120.
    { apply Nat.ltb_lt in H120.
      split; [intros _; tauto | intros _; eexists; reflexivity]. }
    destruct (60 <? count_words (focus result))%nat eqn:H60.
    { apply Nat.ltb_lt in H60.
      split; [intros _; tauto | intros _; eexists; reflexivity]. }
    apply Nat.ltb_ge in H120, H60. split.
    - intros [e [=]].
    - intros [H | [H | [H | H]]]; [tauto | tauto | lia | lia]. }
  split; [exact Hiff |]. split.
  - intros H121. apply Hiff. right. right. left. lia.
  - intros H120 Hf H60.
    destruct (validateV1_ShapeAndLimits result) as [[] | e] eqn:Hv;
      [reflexivity |].
    exfalso.
    destruct (proj1 Hiff (ex_intro _ e eq_refl)) as [H | [H | [H | H]]];
      try tauto; try lia.
    assert (Hz : count_words (summary result) = 0%nat); [| lia].
    unfold count_words.
    rewrite <- (app_nil_l (summary result)).
    now rewrite (count_words_ws_right false [] _ H).
Qed.

Lemma validateV1_rejects_iff_witness :
  validateV1_ShapeAndLimits
    (mkLLMResult (words 120) (js "Plan 5 minutes daily.")) = Ok tt
  /\ exists e,
       validateV1_ShapeAndLimits
         (mkLLMResult (words 121) (js "Plan 5 minutes daily.")) = Throw e.
Proof.
  split.
  - apply (proj2 (proj2 (validateV1_rejects_iff
                           (mkLLMResult (words 120) (js "Plan 5 minutes daily."))))).
    + vm_compute. reflexivity.
    + intros H. apply blank_iff in H. vm_compute in H. discriminate H.
    + vm_compute. lia.
  - apply (proj1 (proj2 (validateV1_rejects_iff
                           (mkLLMResult (words 121) (js "Plan 5 minutes daily."))))).
    vm_compute. reflexivity.
Defined.

(** ** V2: window and links *)

#[local] Arguments is_digit : simpl never.
#[local] Arguments is_word : simpl never.
#[local] Arguments is_ws : simpl never.
#[local] Arguments canonicalize : simpl never.
#[local] Arguments char_matches : simpl never.

Lemma In_not_nil {A : Type} (x : A) (l : list A) : In x l -> l <> [].
Proof. intros Hin ->. destruct Hin. Qed.

Lemma same_word_app w1 w2 m1 m2 :
  same_word w1 m1 -> same_word w2 m2 -> same_word (w1 ++ w2) (m1 ++ m2).
Proof. apply Forall2_app. Qed.

Lemma same_word_app_inv w1 w2 m :
  same_word (w1 ++ w2) m ->
  exists m1 m2, m = m1 ++ m2 /\ same_word w1 m1 /\ same_word w2 m2.
Proof.
  intros H. apply Forall2_app_inv_l in H.
  destruct H as (m1 & m2 & H1 & H2 & ->). eauto.
Qed.

Lemma rmatch_lit_ci_nonempty w p s :
  rmatch true (RLit w) (p, s) <> []
  <-> exists m post, s = m ++ post /\ same_word w m.
Proof.
  rewrite rmatch_lit. destruct (strip_lit true w p s) as [st' |] eqn:Hs.
  - apply strip_lit_ci in Hs. destruct Hs as (m & Heq & Hw & _).
    split; [eauto | discriminate].
  - split; [congruence |]. intros (m & post & Heq & Hw). exfalso.
    assert (H : strip_lit true w p s = Some (last_or p m, post))
      by (apply strip_lit_ci; exists m; auto).
    congruence.
Qed.



Ltac split_ifs :=
  repeat (match goal with
          | |- context [if ?c then _ else _] =>
              lazymatch c with
              | andb _ _ => fail
              | _ => destruct c eqn:?
              end
          end;
          cbn [flat_map app rmatch RRepeat fst snd head andb is_word_opt
               firstn skipn fold_left];
          try reflexivity).

(** The date pattern at a position. *)
Lemma rmatch_isoDatePattern p s :
  rmatch false isoDatePattern (p, s)
  = if date_here p s then [(last_or p (firstn 10 s), skipn 10 s)] else [].
Proof.
  unfold isoDatePattern.
  do 10 (destruct s as [| ? s];
         [cbn [rmatch RRepeat flat_map app fst snd head date_here];
          unfold at_word_boundary; cbn [fst snd head is_word_opt]; split_ifs |]).
  cbn [rmatch RRepeat flat_map app fst snd head date_here firstn skipn
       last_or fold_left].
  unfold at_word_boundary, char_matches. cbn [fst snd head is_word_opt].
  split_ifs.
Qed.

Lemma is_digit_word c : is_digit c = true -> is_word c = true.
Proof. intros H. unfold is_word. rewrite H. now rewrite !orb_true_r. Qed.

Lemma xorb_word_left p c :
  is_word c = true -> xorb (is_word_opt p) (is_word c) = negb (is_word_opt p).
Proof. intros ->. now destruct (is_word_opt p). Qed.

Lemma xorb_word_right c o :
  is_word c = true -> xorb (is_word c) (is_word_opt o) = negb (is_word_opt o).
Proof. intros ->. reflexivity. Qed.

(** A date token between two non-word characters, and the pattern. *)
Lemma date_here_token p tok post :
  iso_date_shape tok = true ->
  date_here p (tok ++ post)
  = negb (is_word_opt p) && negb (is_word_opt (head post)).
Proof.
  do 10 (destruct tok as [| ? tok]; [discriminate |]).
  destruct tok; [| discriminate].
  cbn [iso_date_shape forallb app date_here].
  rewrite !andb_true_iff, !N.eqb_eq.
  intros [[(D1 & D2 & D3 & D4 & D5 & D6 & D7 & D8 & _) ->] ->].
  rewrite D1, D2, D3, D4, D5, D6, D7, D8. cbn [N.eqb Pos.eqb andb].
  rewrite (xorb_word_left _ _ (is_digit_word _ D1)).
  rewrite (xorb_word_right _ _ (is_digit_word _ D8)).
  now rewrite !andb_true_r.
Qed.

Lemma date_here_inv p s :
  date_here p s = true ->
  exists tok post,
    s = tok ++ post /\ length tok = 10%nat /\ iso_date_shape tok = true
    /\ is_word_opt p = false /\ is_word_opt (head post) = false.
Proof.
  do 10 (destruct s as [| ? s]; [discriminate |]).
  cbn [date_here]. rewrite !andb_true_iff, !N.eqb_eq.
  intros (((((((((((B1 & D1) & D2) & D3) & D4) & <-) & D5) & D6) & <-) & D7)
           & D8) & B2).
  rewrite (xorb_word_left _ _ (is_digit_word _ D1)) in B1.
  rewrite (xorb_word_right _ _ (is_digit_word _ D8)) in B2.
  apply negb_true_iff in B1, B2.
  eexists [_; _; _; _; _; _; _; _; _; _], s.
  split; [reflexivity |]. split; [reflexivity |].
  cbn [iso_date_shape forallb]. rewrite D1, D2, D3, D4, D5, D6, D7, D8.
  auto.
Qed.

Lemma has_date_token_here tok text :
  has_date_token tok text
  <-> exists pre post,
        text = pre ++ tok ++ post /\ length tok = 10%nat
        /\ date_here (last_or None pre) (tok ++ post) = true.
Proof.
  unfold has_date_token, delimited. split.
  - intros (pre & post & -> & Hs & Hl & Hr). exists pre, post.
    split; [reflexivity |]. split.
    + do 10 (destruct tok as [| ? tok]; [discriminate |]).
      destruct tok; [reflexivity | discriminate].
    + rewrite (date_here_token _ _ _ Hs), Hl, Hr. reflexivity.
  - intros (pre & post & -> & Hlen & Hd). exists pre, post.
    split; [reflexivity |].
    destruct (date_here_inv _ _ Hd) as (tok' & post' & Heq & Hlen' & Hs & Hl & Hr).
    assert (tok' = tok /\ post' = post) as [-> ->].
    { apply app_inj_1 in Heq; [destruct Heq; split; congruence | congruence]. }
    auto.
Qed.

Ltac date_atoms H :=
  cbn [date_here head] in H;
  repeat (let H' := fresh "A" in
          apply andb_true_iff in H; destruct H as [H H']).

Ltac date_clash :=
  try (match goal with
       | H1 : (45 =? ?c)%N = true, H2 : is_digit ?c = true |- _ =>
           apply N.eqb_eq in H1; subst c; vm_compute in H2; discriminate H2
       end);
  cbn [is_word_opt head] in *;
  repeat match goal with
         | H : is_digit ?c = true |- _ =>
             apply is_digit_word in H; try rewrite H in *
         end;
  cbn [xorb] in *; congruence.

(** Two matches of the date pattern do not overlap. *)
Lemma date_tokens_apart q s pre2 rest2 :
  date_here q s = true ->
  s = pre2 ++ rest2 -> pre2 <> [] ->
  date_here (last_or q pre2) rest2 = true ->
  (10 <= length pre2)%nat.
Proof.
  intros H1 Heq Hne H2.
  do 10 (destruct s as [| ? s]; [discriminate H1 |]).
  date_atoms H1.
  destruct pre2 as [| a1 pre2]; [congruence |].
  do 9 (destruct pre2 as [| ? pre2];
        [exfalso; cbn [app] in Heq; injection Heq as; subst;
         cbn [last_or fold_left] in H2;
         do 10 (try (destruct s as [| ? s]; [discriminate H2 |]));
         date_atoms H2; date_clash |]).
  simpl. lia.
Qed.

Lemma app_split_le {A : Type} (l1 r1 l2 r2 : list A) :
  l1 ++ r1 = l2 ++ r2 -> (length l1 <= length l2)%nat ->
  exists m, l2 = l1 ++ m /\ r1 = m ++ r2.
Proof.
  revert l2. induction l1 as [| x l1 IH]; intros l2 Heq Hlen.
  - exists l2. auto.
  - destruct l2 as [| y l2]; [simpl in Hlen; lia |].
    injection Heq as <- Heq. simpl in Hlen.
    destruct (IH l2 Heq ltac:(lia)) as (m & -> & ->). exists m. auto.
Qed.

(** A search stops at the first position where the pattern matches. *)
Lemma exec_from_first ic r k prev s k' st st' :
  exec_from ic r k prev s = Some (k', st, st') ->
  exists pre l,
    s = pre ++ snd st /\ fst st = last_or prev pre
    /\ rmatch ic r st = st' :: l
    /\ forall pre1 post1,
         s = pre1 ++ post1 -> (length pre1 < length pre)%nat ->
         rmatch ic r (last_or prev pre1, post1) = [].
Proof.
  revert k prev. induction s as [| c s IH]; intros k prev; cbn [exec_from].
  - destruct (rmatch ic r (prev, [])) as [| st0 l] eqn:Hm; [discriminate |].
    intros [= <- <- <-]. exists [], l. repeat split; auto.
    intros pre1 post1 _ Hlen. simpl in Hlen. lia.
  - destruct (rmatch ic r (prev, c :: s)) as [| st0 l] eqn:Hm.
    + intros H. destruct (IH _ _ H) as (pre & l & Heq & Hp & Hr & Hmin).
      exists (c :: pre), l. repeat split; auto.
      * simpl. now rewrite <- Heq.
      * intros pre1 post1 Heq1 Hlen. destruct pre1 as [| x pre1].
        -- simpl in *. now subst post1.
        -- injection Heq1 as <- Heq1. simpl in Hlen.
           apply (Hmin pre1 post1 Heq1). lia.
    + intros [= <- <- <-]. exists [], l. repeat split; auto.
      intros pre1 post1 _ Hlen. simpl in Hlen. lia.
Qed.

Lemma date_match_step st st' l :
  rmatch false isoDatePattern st = st' :: l ->
  exists tok post,
    snd st = tok ++ post /\ length tok = 10%nat
    /\ date_here (fst st) (tok ++ post) = true
    /\ st' = (last_or (fst st) tok, post)
    /\ firstn (match_length st st') (snd st) = tok
    /\ match_length st st' = 10%nat.
Proof.
  destruct st as [p s]. rewrite rmatch_isoDatePattern.
  destruct (date_here p s) eqn:Hd; [| discriminate].
  intros [= <- <-].
  destruct (date_here_inv _ _ Hd) as (tok & post & -> & Hlen & _).
  exists tok, post. cbn [fst snd].
  assert (H10 : firstn 10 (tok ++ post) = tok)
    by (rewrite <- Hlen; apply take_app_length).
  assert (Hs10 : skipn 10 (tok ++ post) = post)
    by (rewrite <- Hlen; apply drop_app_length).
  rewrite H10, Hs10. unfold match_length. cbn [snd].
  rewrite length_app, Hlen.
  replace (10 + length post - length post)%nat with 10%nat by lia.
  auto 10.
Qed.

(** The global match finds every date token of the text... *)
Lemma match_all_finds fuel prev pre tok post :
  (length (pre ++ tok ++ post) < fuel)%nat ->
  length tok = 10%nat ->
  date_here (last_or prev pre) (tok ++ post) = true ->
  In tok (match_all_from false isoDatePattern fuel prev (pre ++ tok ++ post)).
Proof.
  revert prev pre. induction fuel as [| fuel IH]; intros prev pre Hfuel Hlen Hd;
    [lia |].
  cbn [match_all_from].
  destruct (exec_from false isoDatePattern 0 prev (pre ++ tok ++ post))
    as [[[k st] st'] |] eqn:Hex.
  2:{ exfalso.
      assert (Hsome : exists res,
                exec_from false isoDatePattern 0 prev (pre ++ tok ++ post)
                = Some res).
      { apply exec_from_Some. exists pre, (tok ++ post).
        split; [reflexivity |]. rewrite rmatch_isoDatePattern, Hd. discriminate. }
      destruct Hsome as [res Hres]. congruence. }
  destruct (exec_from_first _ _ _ _ _ _ _ _ Hex)
    as (pre1 & l & Heq & Hp & Hr & Hmin).
  destruct (date_match_step _ _ _ Hr)
    as (tok1 & post1 & Hst & Hlen1 & Hd1 & -> & Hfirst & Hn).
  rewrite Hfirst, Hn. cbn [Nat.eqb fst snd].
  destruct (Nat.lt_trichotomy (length pre1) (length pre)) as [Hlt | [Heql | Hgt]].
  - right. rewrite Hst in Heq.
    destruct (app_split_le pre1 (tok1 ++ post1) pre (tok ++ post)
                (eq_sym Heq) ltac:(lia)) as (pre2 & -> & Heq2).
    assert (Hne : pre2 <> []).
    { intros ->. rewrite app_nil_r in Hlt. lia. }
    rewrite last_or_app, <- Hp in Hd.
    pose proof (date_tokens_apart _ _ pre2 (tok ++ post) Hd1 Heq2 Hne Hd)
      as Hapart.
    destruct (app_split_le tok1 post1 pre2 (tok ++ post) Heq2 ltac:(lia))
      as (pre3 & -> & ->).
    apply IH; [| assumption |].
    + rewrite !length_app in *. lia.
    + now rewrite last_or_app in Hd.
  - left. rewrite Hst in Heq.
    apply app_inj_1 in Heq; [| congruence]. destruct Heq as [_ Heq].
    apply app_inj_1 in Heq; [| congruence]. now destruct Heq.
  - exfalso.
    assert (Hnil : rmatch false isoDatePattern (last_or prev pre, tok ++ post) = [])
      by now apply (Hmin pre (tok ++ post)).
    rewrite rmatch_isoDatePattern, Hd in Hnil. discriminate.
Qed.

(** ... and nothing else. *)
Lemma match_all_sound fuel prev s tok :
  In tok (match_all_from false isoDatePattern fuel prev s) ->
  exists pre post,
    s = pre ++ tok ++ post /\ length tok = 10%nat
    /\ date_here (last_or prev pre) (tok ++ post) = true.
Proof.
  revert prev s. induction fuel as [| fuel IH]; intros prev s; [intros [] |].
  cbn [match_all_from].
  destruct (exec_from false isoDatePattern 0 prev s) as [[[k st] st'] |] eqn:Hex;
    [| intros []].
  destruct (exec_from_first _ _ _ _ _ _ _ _ Hex)
    as (pre1 & l & Heq & Hp & Hr & _).
  destruct (date_match_step _ _ _ Hr)
    as (tok1 & post1 & Hst & Hlen1 & Hd1 & -> & Hfirst & Hn).
  rewrite Hfirst, Hn. cbn [Nat.eqb fst snd]. intros [<- | Hin].
  - exists pre1, post1. rewrite Heq, Hst, <- Hp. auto.
  - destruct (IH _ _ Hin) as (pre & post & -> & Hlen & Hd).
    exists (pre1 ++ tok1 ++ pre), post. split.
    + rewrite Heq, Hst. now rewrite <- !app_assoc.
    + split; [assumption |]. now rewrite !last_or_app, <- Hp.
Qed.

Lemma String_match_g_dates text tok :
  In tok (String_match_g false isoDatePattern text) <-> has_date_token tok text.
Proof.
  rewrite has_date_token_here. unfold String_match_g. split.
  - apply match_all_sound.
  - intros (pre & post & -> & Hlen & Hd). apply match_all_finds; auto.
Qed.

Lemma outside_window_true d weekStart weekEnd :
  outside_window d weekStart weekEnd = true
  <-> exists t, d = Some t /\ (t < weekStart \/ weekEnd < t).
Proof.
  unfold outside_window. destruct d as [t |].
  - rewrite orb_true_iff, !Z.ltb_lt. split; [eauto |].
    now intros (t' & [= <-] & H).
  - split; [discriminate | now intros (t & [=] & _)].
Qed.





(** ** V3: actionability *)

Lemma timeboxPattern_shape : timeboxPattern = timeboxPatternOf unitPattern.
Proof. reflexivity. Qed.

Lemma letter_is_word c x :
  (97 <= c <= 122)%N -> canonicalize c = canonicalize x -> is_word x = true.
Proof.
  intros Hc. unfold canonicalize, is_word.
  replace ((97 <=? c) && (c <=? 122))%N with true
    by (symmetry; apply andb_true_iff; split; apply N.leb_le; lia).
  destruct ((97 <=? x) && (x <=? 122))%N eqn:Hx; [reflexivity |].
  intros <-.
  replace ((65 <=? c - 32) && (c - 32 <=? 90))%N with true
    by (symmetry; apply andb_true_iff; split; apply N.leb_le; lia).
  now rewrite orb_true_r.
Qed.

(** What stands for a lower-case word is made of letters. *)
Lemma same_word_letters w m :
  lower_word w -> same_word w m ->
  exists x m' y m'',
    m = x :: m' /\ m = m'' ++ [y] /\ is_word x = true /\ is_word y = true.
Proof.
  intros [Hne Hall] Hw.
  assert (Hm : Forall (fun x => is_word x = true) m).
  { clear Hne. induction Hw as [| c x w m Hcx _ IH]; [constructor |].
    inversion Hall; subst. constructor; [| auto].
    now apply (letter_is_word c). }
  destruct m as [| x m']; [inversion Hw; subst; congruence |].
  destruct (exists_last (l := x :: m') ltac:(discriminate)) as (m'' & y & Heq).
  exists x, m', y, m''. split; [reflexivity |]. split; [assumption |].
  rewrite List.Forall_forall in Hm. split; apply Hm.
  - now left.
  - rewrite Heq. apply in_or_app. right. now left.
Qed.

Lemma last_or_word p w m :
  lower_word w -> same_word w m -> is_word_opt (last_or p m) = true.
Proof.
  intros Hl Hw.
  destruct (same_word_letters _ _ Hl Hw) as (x & m' & y & m'' & _ & -> & _ & Hy).
  now rewrite last_or_snoc.
Qed.

Lemma head_word w m post :
  lower_word w -> same_word w m -> is_word_opt (head (m ++ post)) = true.
Proof.
  intros Hl Hw.
  destruct (same_word_letters _ _ Hl Hw) as (x & m' & y & m'' & -> & _ & Hx & _).
  exact Hx.
Qed.

Lemma in_rmatch_wordb st st' :
  In st' (rmatch true RWordB st) <-> st' = st /\ at_word_boundary st = true.
Proof.
  cbn [rmatch]. destruct (at_word_boundary st).
  - split; [intros [<- | []]; auto | intros [-> _]; now left].
  - split; [intros [] | intros [_ [=]]].
Qed.

Lemma in_rmatch_lit w st st' :
  In st' (rmatch true (RLit w) st)
  <-> exists m, snd st = m ++ snd st' /\ same_word w m
                /\ fst st' = last_or (fst st) m.
Proof.
  destruct st as [p s]. rewrite rmatch_lit, <- strip_lit_ci. cbn [fst snd].
  destruct (strip_lit true w p s) as [st0 |].
  - split; [intros [<- | []]; reflexivity | intros [= ->]; now left].
  - split; [intros [] | discriminate].
Qed.

(** A whole word at a position. *)
Lemma rmatch_whole_word w p s :
  lower_word w ->
  rmatch true (RSeq RWordB (RSeq (RLit w) RWordB)) (p, s) <> []
  <-> exists mid post,
        s = mid ++ post /\ same_word w mid
        /\ is_word_opt p = false /\ is_word_opt (head post) = false.
Proof.
  intros Hl. split.
  - intros Hne.
    destruct (rmatch _ _ _) as [| st' l] eqn:Hm; [congruence |].
    assert (Hin : In st' (st' :: l)) by now left.
    rewrite <- Hm in Hin. cbn [rmatch] in Hin. apply in_flat_map in Hin.
    destruct Hin as (st1 & H1 & Hin). apply in_flat_map in Hin.
    destruct Hin as (st2 & H2 & H3).
    apply in_rmatch_wordb in H1, H3. destruct H1 as [-> Hb1].
    destruct H3 as [-> Hb3]. apply in_rmatch_lit in H2.
    destruct H2 as (mid & Hs & Hw & Hp). cbn [fst snd] in *.
    exists mid, (snd st2). split; [assumption |]. split; [assumption |].
    unfold at_word_boundary in *. cbn [fst snd] in *.
    rewrite Hs, (head_word _ _ _ Hl Hw) in Hb1.
    rewrite Hp, (last_or_word _ _ _ Hl Hw) in Hb3.
    destruct (is_word_opt p), (is_word_opt (head (snd st2)));
      simpl in *; auto; congruence.
  - intros (mid & post & -> & Hw & Hp & Hpost).
    apply (In_not_nil (last_or p mid, post)). cbn [rmatch].
    apply in_flat_map. exists (p, mid ++ post). split.
    + apply in_rmatch_wordb. split; [reflexivity |].
      unfold at_word_boundary. cbn [fst snd].
      now rewrite (head_word _ _ _ Hl Hw), Hp.
    + apply in_flat_map. exists (last_or p mid, post). split.
      * apply in_rmatch_lit. exists mid. auto.
      * apply in_rmatch_wordb. split; [reflexivity |].
        unfold at_word_boundary. cbn [fst snd].
        now rewrite (last_or_word _ _ _ Hl Hw), Hpost.
Qed.

Lemma test_whole_word w text :
  lower_word w ->
  RegExp_test true (RSeq RWordB (RSeq (RLit w) RWordB)) text = true
  <-> has_whole_word w text.
Proof.
  intros Hl. rewrite RegExp_test_true. unfold has_whole_word, delimited. split.
  - intros (pre & post & -> & Hne). apply (rmatch_whole_word w _ _ Hl) in Hne.
    destruct Hne as (mid & post' & -> & Hw & Hp & Hpost).
    exists pre, mid, post'. auto.
  - intros (pre & mid & post & -> & Hw & Hp & Hpost).
    exists pre, (mid ++ post). split; [reflexivity |].
    apply (rmatch_whole_word w _ _ Hl). exists mid, post. auto.
Qed.

Lemma in_rmatch_plus f st st' :
  In st' (rmatch true (RPlus (RClass f)) st)
  <-> exists m, m <> [] /\ Forall (fun c => f c = true) m
                /\ snd st = m ++ snd st' /\ fst st' = last_or (fst st) m.
Proof.
  destruct st as [p s]. unfold RPlus. rewrite rmatch_seq, rmatch_class.
  cbn [fst snd]. rewrite in_flat_map. split.
  - intros (st1 & H1 & H2). destruct s as [| c s]; [destruct H1 |].
    destruct (f c) eqn:Hc; [| destruct H1]. destruct H1 as [<- | []].
    rewrite rmatch_star_class in H2. apply in_run_positions in H2.
    destruct H2 as (m & -> & Hall & Hp). exists (c :: m).
    split; [discriminate |]. split; [now constructor |]. auto.
  - intros (m & Hne & Hall & -> & Hp). destruct m as [| c m]; [congruence |].
    inversion Hall as [| ? ? Hc Hall']; subst. exists (Some c, m ++ snd st').
    cbn [app]. rewrite Hc. split; [now left |].
    rewrite rmatch_star_class. apply in_run_positions. exists m. auto.
Qed.

Lemma in_rmatch_opt_class f st st' :
  In st' (rmatch true (ROpt (RClass f)) st)
  <-> st' = st
      \/ exists c, f c = true /\ snd st = c :: snd st' /\ fst st' = Some c.
Proof.
  destruct st as [p s]. rewrite rmatch_opt, rmatch_class. cbn [fst snd].
  rewrite in_app_iff, filter_In. split.
  - intros [[H _] | [<- | []]]; [| now left]. right.
    destruct s as [| c s]; [destruct H |].
    destruct (f c) eqn:Hc; [| destruct H]. destruct H as [<- | []]. eauto.
  - intros [-> | (c & Hc & -> & Hp)]; [right; now left |]. left.
    rewrite Hc. split.
    + left. destruct st'; simpl in *; now subst.
    + unfold consumed. cbn [snd length]. apply Nat.ltb_lt. lia.
Qed.

Lemma in_rmatch_opt_char c0 st st' :
  In st' (rmatch true (ROpt (RChar c0)) st)
  <-> st' = st
      \/ exists x, canonicalize c0 = canonicalize x
                   /\ snd st = x :: snd st' /\ fst st' = Some x.
Proof.
  destruct st as [p s]. rewrite rmatch_opt, rmatch_char. cbn [fst snd].
  rewrite in_app_iff, filter_In. split.
  - intros [[H _] | [<- | []]]; [| now left]. right.
    destruct s as [| x s]; [destruct H |].
    destruct (char_matches true c0 x) eqn:Hc; [| destruct H].
    destruct H as [<- | []]. apply char_matches_ci in Hc. eauto.
  - intros [-> | (x & Hc & -> & Hp)]; [right; now left |]. left.
    apply char_matches_ci in Hc. rewrite Hc. split.
    + left. destruct st'; simpl in *; now subst.
    + unfold consumed. cbn [snd length]. apply Nat.ltb_lt. lia.
Qed.

Lemma ROneOf_stands_for units : stands_for (ROneOf units) units.
Proof.
  intros st st'. induction units as [| u units IH]; cbn [ROneOf].
  - destruct st as [p s]. rewrite rmatch_class. split.
    + destruct s; intros [].
    + intros (u & m & [] & _).
  - rewrite rmatch_alt, in_app_iff, in_rmatch_lit, IH. split.
    + intros [(m & Hs & Hw & Hp) | (u' & m & Hin & H)].
      * exists u, m. split; [now left | auto].
      * exists u', m. split; [now right | auto].
    + intros (u' & m & [<- | Hin] & Hw & Hs & Hp).
      * left. eauto.
      * right. exists u', m. auto.
Qed.

Lemma in_rmatch_lit_opt_s w st st' :
  In st' (rmatch true (RSeq (RLit w) (ROpt (RChar 115))) st)
  <-> exists u m, In u [w; w ++ [115%N]] /\ same_word u m
                  /\ snd st = m ++ snd st' /\ fst st' = last_or (fst st) m.
Proof.
  rewrite rmatch_seq, in_flat_map. split.
  - intros (st1 & H1 & H2). apply in_rmatch_lit in H1.
    destruct H1 as (m & Hs & Hw & Hp). apply in_rmatch_opt_char in H2.
    destruct H2 as [-> | (x & Hx & Hs' & Hp')].
    + exists w, m. split; [now left | auto].
    + exists (w ++ [115%N]), (m ++ [x]). split; [right; now left |].
      split; [apply same_word_app; [assumption | now repeat constructor] |].
      split.
      * rewrite Hs, Hs', <- app_assoc. reflexivity.
      * now rewrite last_or_snoc.
  - intros (u & m & [<- | [<- | []]] & Hw & Hs & Hp).
    + exists st'. split.
      * apply in_rmatch_lit. exists m. auto.
      * apply in_rmatch_opt_char. now left.
    + apply same_word_app_inv in Hw. destruct Hw as (m1 & m2 & -> & H1 & H2).
      inversion H2 as [| ? x ? m3 Hx H3]; subst. inversion H3; subst.
      exists (last_or (fst st) m1, x :: snd st'). split.
      * apply in_rmatch_lit. exists m1. cbn [fst snd].
        rewrite Hs, <- app_assoc. auto.
      * apply in_rmatch_opt_char. right. exists x. cbn [fst snd].
        rewrite Hp, last_or_snoc. auto.
Qed.

(** The unit pattern of the source stands for min, minute, minutes, hour
    and hours. *)
Lemma unitPattern_stands_for : stands_for unitPattern accepted_units.
Proof.
  intros st st'. unfold unitPattern. rewrite !rmatch_alt, !in_app_iff.
  rewrite in_rmatch_lit, !in_rmatch_lit_opt_s. unfold accepted_units.
  change (js "minute" ++ [115%N]) with (js "minutes").
  change (js "hour" ++ [115%N]) with (js "hours").
  split.
  - intros [(m & H) | [(u & m & Hin & H) | (u & m & Hin & H)]].
    + exists (js "min"), m. split; [now left | tauto].
    + exists u, m. split; [| assumption].
      destruct Hin as [<- | [<- | []]]; simpl; auto.
    + exists u, m. split; [| assumption].
      destruct Hin as [<- | [<- | []]]; simpl; auto 6.
  - intros (u & m & Hin & H).
    destruct Hin as [<- | [<- | [<- | [<- | [<- | []]]]]].
    + left. exists m. tauto.
    + right. left. exists (js "minute"), m. split; [now left | assumption].
    + right. left. exists (js "minutes"), m.
      split; [right; now left | assumption].
    + right. right. exists (js "hour"), m. split; [now left | assumption].
    + right. right. exists (js "hours"), m.
      split; [right; now left | assumption].
Qed.

(** A numeric duration at a position. *)
Lemma rmatch_duration ru units p s :
  stands_for ru units -> Forall lower_word units ->
  rmatch true
    (RSeq RWordB
       (RSeq (RPlus (RClass is_digit))
          (RSeq (ROpt (RClass is_ws)) (RSeq ru RWordB)))) (p, s) <> []
  <-> exists digits gap unit post,
        s = digits ++ gap ++ unit ++ post
        /\ digits <> [] /\ Forall (fun c => is_digit c = true) digits
        /\ (gap = [] \/ exists c, gap = [c] /\ is_ws c = true)
        /\ (exists u, In u units /\ same_word u unit)
        /\ is_word_opt p = false /\ is_word_opt (head post) = false.
Proof.
  intros Hru Hlow. split.
  - intros Hne.
    destruct (rmatch _ _ _) as [| st' l] eqn:Hm; [congruence |].
    assert (Hin : In st' (st' :: l)) by now left.
    rewrite <- Hm in Hin. rewrite rmatch_seq in Hin. apply in_flat_map in Hin.
    destruct Hin as (st1 & H1 & Hin). rewrite rmatch_seq in Hin.
    apply in_flat_map in Hin. destruct Hin as (st2 & H2 & Hin).
    rewrite rmatch_seq in Hin. apply in_flat_map in Hin.
    destruct Hin as (st3 & H3 & Hin). rewrite rmatch_seq in Hin.
    apply in_flat_map in Hin. destruct Hin as (st4 & H4 & H5).
    apply in_rmatch_wordb in H1, H5. destruct H1 as [-> Hb1].
    destruct H5 as [-> Hb5]. apply in_rmatch_plus in H2.
    destruct H2 as (digits & Hdne & Hdig & Hs & Hp2). cbn [fst snd] in *.
    apply Hru in H4. destruct H4 as (u & unit & Hu & Hw & Hs3 & Hp4).
    assert (Hlu : lower_word u).
    { rewrite List.Forall_forall in Hlow. now apply Hlow. }
    assert (Hleft : is_word_opt p = false).
    { unfold at_word_boundary in Hb1. cbn [fst snd] in Hb1. rewrite Hs in Hb1.
      destruct digits as [| d digits]; [congruence |].
      inversion Hdig as [| ? ? Hd _]; subst. cbn [app head is_word_opt] in Hb1.
      rewrite (is_digit_word _ Hd) in Hb1.
      destruct (is_word_opt p); [discriminate | reflexivity]. }
    assert (Hright : is_word_opt (head (snd st4)) = false).
    { unfold at_word_boundary in Hb5. rewrite Hp4 in Hb5.
      rewrite (last_or_word _ _ _ Hlu Hw) in Hb5.
      destruct (is_word_opt (head (snd st4))); [discriminate | reflexivity]. }
    apply in_rmatch_opt_class in H3.
    destruct H3 as [-> | (c & Hc & Hs2 & Hp3)].
    + exists digits, [], unit, (snd st4). rewrite Hs, Hs3. cbn [app].
      repeat split; eauto.
    + exists digits, [c], unit, (snd st4). rewrite Hs, Hs2, Hs3. cbn [app].
      repeat split; eauto.
  - intros (digits & gap & unit & post & -> & Hdne & Hdig & Hgap
            & (u & Hu & Hw) & Hp & Hpost).
    assert (Hlu : lower_word u).
    { rewrite List.Forall_forall in Hlow. now apply Hlow. }
    apply (In_not_nil (last_or (last_or (last_or p digits) gap) unit, post)).
    rewrite rmatch_seq. apply in_flat_map.
    exists (p, digits ++ gap ++ unit ++ post). split.
    { apply in_rmatch_wordb. split; [reflexivity |].
      unfold at_word_boundary. cbn [fst snd].
      destruct digits as [| d digits]; [congruence |].
      inversion Hdig as [| ? ? Hd _]; subst. cbn [app head is_word_opt].
      now rewrite (is_digit_word _ Hd), Hp. }
    rewrite rmatch_seq. apply in_flat_map.
    exists (last_or p digits, gap ++ unit ++ post). split.
    { apply in_rmatch_plus. exists digits. auto. }
    rewrite rmatch_seq. apply in_flat_map.
    exists (last_or (last_or p digits) gap, unit ++ post). split.
    { apply in_rmatch_opt_class.
      destruct Hgap as [-> | (c & -> & Hc)]; [now left |].
      right. exists c. auto. }
    rewrite rmatch_seq. apply in_flat_map.
    exists (last_or (last_or (last_or p digits) gap) unit, post). split.
    { apply Hru. exists u, unit. auto. }
    apply in_rmatch_wordb. split; [reflexivity |].
    unfold at_word_boundary. cbn [fst snd].
    now rewrite (last_or_word _ _ _ Hlu Hw), Hpost.
Qed.

Lemma app_not_nil_l {A : Type} (l1 l2 : list A) : l1 <> [] -> l1 ++ l2 <> [].
Proof. destruct l1; [congruence | discriminate]. Qed.

Lemma app_not_nil_inv {A : Type} (l1 l2 : list A) :
  l1 ++ l2 <> [] -> l1 <> [] \/ l2 <> [].
Proof. destruct l1; [now right | left; discriminate]. Qed.

Lemma lower_daily : lower_word (js "daily").
Proof. split; [discriminate | repeat constructor; vm_compute; discriminate]. Qed.
Lemma lower_weekly : lower_word (js "weekly").
Proof. split; [discriminate | repeat constructor; vm_compute; discriminate]. Qed.
Lemma lower_morning : lower_word (js "morning").
Proof. split; [discriminate | repeat constructor; vm_compute; discriminate]. Qed.
Lemma lower_evening : lower_word (js "evening").
Proof. split; [discriminate | repeat constructor; vm_compute; discriminate]. Qed.

(** A time-box pattern finds a numeric duration in the units that its
    unit pattern stands for, or one of the four frequency words. *)
Lemma test_timeboxPatternOf ru units text :
  stands_for ru units -> Forall lower_word units ->
  RegExp_test true (timeboxPatternOf ru) text = true
  <-> has_timebox units text.
Proof.
  intros Hru Hlow. rewrite RegExp_test_true.
  unfold has_timebox, has_duration, frequencyWords, timeboxPatternOf. split.
  - intros (pre & post & -> & Hne). rewrite !rmatch_alt in Hne.
    apply app_not_nil_inv in Hne. destruct Hne as [Hne | Hne].
    { left. apply (rmatch_duration ru units _ _ Hru Hlow) in Hne.
      destruct Hne as (digits & gap & unit & post' & -> & H).
      exists pre, digits, gap, unit, post'. unfold delimited. tauto. }
    right.
    assert (Hw : forall w, lower_word w ->
               rmatch true (RSeq RWordB (RSeq (RLit w) RWordB))
                      (last_or None pre, post) <> [] ->
               has_whole_word w (pre ++ post)).
    { intros w Hl H. apply test_whole_word; [assumption |].
      apply RegExp_test_true. eauto. }
    apply app_not_nil_inv in Hne. destruct Hne as [Hne | Hne].
    { exists (js "daily"). split; [simpl; auto | apply Hw; auto using lower_daily]. }
    apply app_not_nil_inv in Hne. destruct Hne as [Hne | Hne].
    { exists (js "weekly").
      split; [simpl; auto | apply Hw; auto using lower_weekly]. }
    apply app_not_nil_inv in Hne. destruct Hne as [Hne | Hne].
    { exists (js "morning").
      split; [simpl; auto | apply Hw; auto using lower_morning]. }
    exists (js "evening").
    split; [simpl; auto 6 | apply Hw; auto using lower_evening].
  - intros [(pre & digits & gap & unit & post & -> & H) | (w & Hin & Hw)].
    { exists pre, (digits ++ gap ++ unit ++ post). split; [reflexivity |].
      rewrite rmatch_alt. apply app_not_nil_l.
      apply (rmatch_duration ru units _ _ Hru Hlow).
      exists digits, gap, unit, post. unfold delimited in H. tauto. }
    assert (Hl : lower_word w).
    { destruct Hin as [<- | [<- | [<- | [<- | []]]]];
        auto using lower_daily, lower_weekly, lower_morning, lower_evening. }
    apply (test_whole_word w _ Hl) in Hw. apply RegExp_test_true in Hw.
    destruct Hw as (pre & post & -> & Hne). exists pre, post.
    split; [reflexivity |]. rewrite !rmatch_alt. intros Hnil.
    apply app_eq_nil in Hnil. destruct Hnil as [_ Hnil].
    apply app_eq_nil in Hnil. destruct Hnil as [H1 Hnil].
    apply app_eq_nil in Hnil. destruct Hnil as [H2 Hnil].
    apply app_eq_nil in Hnil. destruct Hnil as [H3 H4].
    destruct Hin as [<- | [<- | [<- | [<- | []]]]]; congruence.
Qed.

Lemma lower_words_of (l : list jsstring) :
  forallb (fun w => negb (bool_decide (w = []))
                    && forallb (fun c => (97 <=? c) && (c <=? 122))%N w) l
  = true ->
  Forall lower_word l.
Proof.
  rewrite forallb_forall, List.Forall_forall. intros H w Hin.
  specialize (H w Hin). apply andb_true_iff in H. destruct H as [Hne Hall].
  split.
  - apply negb_true_iff, bool_decide_eq_false in Hne. exact Hne.
  - rewrite forallb_forall in Hall. rewrite List.Forall_forall.
    intros c Hc. specialize (Hall c Hc). apply andb_true_iff in Hall.
    destruct Hall as [H1 H2]. apply N.leb_le in H1, H2. lia.
Qed.

Lemma lower_accepted_units : Forall lower_word accepted_units.
Proof. apply lower_words_of. vm_compute. reflexivity. Qed.

Lemma lower_claimed_units : Forall lower_word claimed_units.
Proof. apply lower_words_of. vm_compute. reflexivity. Qed.

Lemma lower_imperativeVerbs : Forall lower_word imperativeVerbs.
Proof. apply lower_words_of. vm_compute. reflexivity. Qed.

Lemma test_imperative text :
  existsb (fun verb => RegExp_test true (verbPattern verb) (toLowerCase text))
          imperativeVerbs = true
  <-> has_imperative text.
Proof.
  rewrite existsb_exists. unfold has_imperative, verbPattern.
  pose proof lower_imperativeVerbs as Hlow.
  rewrite List.Forall_forall in Hlow.
  split; intros (verb & Hin & H); exists verb; (split; [assumption |]);
    now apply (test_whole_word verb _ (Hlow verb Hin)).
Qed.

Lemma test_timeboxPattern text :
  RegExp_test true timeboxPattern text = true
  <-> has_timebox accepted_units text.
Proof.
  rewrite timeboxPattern_shape.
  apply test_timeboxPatternOf;
    [exact unitPattern_stands_for | exact lower_accepted_units].
Qed.

(** C9, amended.  V3 accepts a focus exactly when it contains, letter
    case apart, a whole-word verb of the vocabulary and a time-box or
    frequency token: digits, at most one whitespace character and one of
    min, minute, minutes, hour, hours as a whole word, or one of daily,
    weekly, morning, evening as a whole word.  It rejects
    "Try your best to keep learning." and accepts
    "Schedule a 15-minute daily review each evening.". *)
Theorem validateV3_accepts_iff (result : LLMResult) :
  (validateV3_Actionability result = Ok tt
   <-> has_imperative (focus result)
       /\ has_timebox accepted_units (focus result))
  /\ (focus result = js "Try your best to keep learning." ->
      exists e, validateV3_Actionability result = Throw e)
  /\ (focus result = js "Schedule a 15-minute daily review each evening." ->
      validateV3_Actionability result = Ok tt).
Proof.
  split; [| split].
  - unfold validateV3_Actionability.
    destruct (existsb _ imperativeVerbs) eqn:Hv; cbn [negb].
    + apply test_imperative in Hv.
      destruct (RegExp_test true timeboxPattern (focus result)) eqn:Ht;
        cbn [negb].
      * apply test_timeboxPattern in Ht. tauto.
      * split; [discriminate |]. intros [_ H].
        apply test_timeboxPattern in H. congruence.
    + split; [discriminate |]. intros [H _].
      apply test_imperative in H. congruence.
  - intros Hf. unfold validateV3_Actionability. rewrite Hf.
    eexists. vm_compute. reflexivity.
  - intros Hf. unfold validateV3_Actionability. rewrite Hf.
    vm_compute. reflexivity.
Qed.

Lemma validateV3_accepts_iff_witness :
  validateV3_Actionability
    (mkLLMResult (js "A steady week.")
                 (js "Schedule a 15-minute daily review each evening."))
  = Ok tt.
Proof.
  apply (proj2 (proj2 (validateV3_accepts_iff
                         (mkLLMResult
                            (js "A steady week.")
                            (js "Schedule a 15-minute daily review each evening."))))).
  reflexivity.
Defined.

(** C9, as stated, fails on the focus "Plan 1 minute": V3 accepts it,
    yet it holds no duration in min, minutes, hour or hours and no
    frequency word. *)
Lemma validateV3_minute_counterexample :
  ~ (validateV3_Actionability (mkLLMResult (js "A steady week.")
                                           (js "Plan 1 minute"))
     = Ok tt
     <-> has_imperative (js "Plan 1 minute")
         /\ has_timebox claimed_units (js "Plan 1 minute")).
Proof.
  intros [Himp _].
  assert (Hok : validateV3_Actionability
                  (mkLLMResult (js "A steady week.") (js "Plan 1 minute"))
                = Ok tt) by (vm_compute; reflexivity).
  destruct (Himp Hok) as [_ Ht].
  apply (test_timeboxPatternOf (ROneOf claimed_units) claimed_units) in Ht;
    [| apply ROneOf_stands_for | exact lower_claimed_units].
  vm_compute in Ht. discriminate Ht.
Qed.

(** ** The parser of the reply *)

Lemma closing_cons p x rest :
  closing p (x :: rest)
  = closing (Some x) rest ++ rmatch false (RChar 125) (p, x :: rest).
Proof.
  unfold closing. cbn [run_positions].
  replace (is_ws x || negb (is_ws x)) with true by now destruct (is_ws x).
  rewrite flat_map_app. cbn [flat_map]. now rewrite app_nil_r.
Qed.

Lemma closing_nil p rest : ~ In 125%N rest -> closing p rest = [].
Proof.
  revert p. induction rest as [| x rest IH]; intros p Hnot.
  - reflexivity.
  - rewrite closing_cons, IH by (intros H; apply Hnot; now right).
    rewrite rmatch_char. unfold char_matches.
    destruct (125 =? x)%N eqn:Hx; [| reflexivity].
    apply N.eqb_eq in Hx. exfalso. apply Hnot. now left.
Qed.

Lemma closing_head p mid after :
  ~ In 125%N after ->
  exists l, closing p (mid ++ 125%N :: after) = (Some 125%N, after) :: l.
Proof.
  intros Hnot. revert p. induction mid as [| x mid IH]; intros p.
  - cbn [app]. rewrite closing_cons, (closing_nil _ _ Hnot), rmatch_char.
    unfold char_matches. rewrite N.eqb_refl. eauto.
  - cbn [app]. rewrite closing_cons. destruct (IH (Some x)) as (l & ->).
    cbn [app]. eauto.
Qed.

Lemma rmatch_jsonPattern p s :
  rmatch false jsonPattern (p, s)
  = match s with
    | x :: rest => if (123 =? x)%N then closing (Some x) rest else []
    | [] => []
    end.
Proof.
  unfold jsonPattern. rewrite rmatch_seq, rmatch_char. unfold char_matches.
  destruct s as [| x rest]; [reflexivity |].
  destruct (123 =? x)%N; [| reflexivity]. cbn [flat_map].
  rewrite app_nil_r, rmatch_seq, rmatch_star_class. reflexivity.
Qed.

Lemma exec_jsonPattern_none k p s :
  ~ In 125%N s -> exec_from false jsonPattern k p s = None.
Proof.
  revert k p. induction s as [| x s IH]; intros k p Hnot; cbn [exec_from];
    rewrite rmatch_jsonPattern.
  - reflexivity.
  - destruct (123 =? x)%N.
    + rewrite closing_nil by (intros H; apply Hnot; now right).
      apply IH. intros H. apply Hnot. now right.
    + apply IH. intros H. apply Hnot. now right.
Qed.

Lemma last_occurrence (c : N) (s : jsstring) :
  In c s -> exists a b, s = a ++ c :: b /\ ~ In c b.
Proof.
  intros H. apply list_elem_of_In in H.
  destruct (list_elem_of_split_r s c H) as (a & b & -> & Hb).
  exists a, b. split; [reflexivity |]. now rewrite <- list_elem_of_In.
Qed.

Lemma from_first_skip c a b :
  ~ In c a -> from_first c (a ++ c :: b) = Some (c :: b).
Proof.
  induction a as [| x a IH]; intros Hnot; cbn [app from_first].
  - now rewrite N.eqb_refl.
  - destruct (x =? c)%N eqn:Hx.
    + apply N.eqb_eq in Hx. exfalso. apply Hnot. now left.
    + apply IH. intros H. apply Hnot. now right.
Qed.

Lemma from_first_none c s : ~ In c s -> from_first c s = None.
Proof.
  induction s as [| x s IH]; intros Hnot; cbn [from_first]; [reflexivity |].
  destruct (x =? c)%N eqn:Hx.
  - apply N.eqb_eq in Hx. exfalso. apply Hnot. now left.
  - apply IH. intros H. apply Hnot. now right.
Qed.

Lemma upto_last_split c a b :
  ~ In c b -> upto_last c (a ++ c :: b) = Some (a ++ [c]).
Proof.
  intros Hnot. unfold upto_last.
  rewrite rev_app_distr. cbn [rev]. rewrite <- app_assoc. cbn [app].
  rewrite from_first_skip by (now rewrite <- in_rev).
  cbn [option_map rev]. now rewrite rev_involutive.
Qed.

Lemma upto_last_none c s : ~ In c s -> upto_last c s = None.
Proof.
  intros Hnot. unfold upto_last.
  now rewrite from_first_none by (now rewrite <- in_rev).
Qed.

(** The match of the JSON pattern is the text from the first opening
    brace to the last closing one. *)
Lemma String_match_jsonPattern text :
  String_match false jsonPattern text = brace_span text.
Proof.
  unfold String_match, brace_span. generalize (@None N) as p, 0%nat as k.
  induction text as [| x text IH]; intros p k; cbn [exec_from from_first];
    rewrite rmatch_jsonPattern; [reflexivity |].
  rewrite (N.eqb_sym x 123). destruct (123 =? x)%N eqn:Hx; [| apply IH].
  destruct (in_dec N.eq_dec 125%N text) as [Hin | Hnot].
  - destruct (last_occurrence _ _ Hin) as (a & b & -> & Hb).
    destruct (closing_head (Some x) a b Hb) as (l & ->).
    rewrite (upto_last_split _ _ _ Hb). unfold match_length. cbn [snd].
    f_equal. cbn [length]. rewrite length_app. cbn [length].
    replace (S (length a + S (length b)) - length b)%nat
      with (S (length (a ++ [125%N])))
      by (rewrite length_app; simpl; lia).
    cbn [firstn]. apply N.eqb_eq in Hx. subst x. f_equal.
    replace (a ++ 125%N :: b) with ((a ++ [125%N]) ++ b)
      by (now rewrite <- app_assoc).
    apply take_app_length.
  - rewrite (closing_nil _ _ Hnot), (upto_last_none _ _ Hnot).
    now rewrite exec_jsonPattern_none.
Qed.

Lemma usable_or_not (v : option json) :
  (exists s, v = Some (JString s) /\ s <> []) \/ unusable v.
Proof.
  unfold unusable.
  destruct v as [[| b | m e | s | l | l] |];
    try (right; right; left; eexists; split; [reflexivity | discriminate]);
    [| right; now left].
  destruct s as [| c s]; [right; right; now right |].
  left. eexists. split; [reflexivity | discriminate].
Qed.

Lemma unusable_not_text v s : unusable v -> v = Some (JString s) -> s = [].
Proof.
  intros [-> | [(j & -> & Hj) | ->]] [=]; [| congruence].
  subst j. now destruct (Hj s).
Qed.

Lemma unusable_cases v :
  unusable v -> truthy v = false \/ forall s, v <> Some (JString s).
Proof.
  intros [-> | [(j & -> & Hj) | ->]].
  - now left.
  - right. intros s [= ->]. now apply (Hj s).
  - now left.
Qed.

Lemma not_strings_l vs vf :
  (forall s, vs <> Some (JString s)) ->
  match vs, vf with
  | Some (JString s), Some (JString f) => Ok {| summary := s; focus := f |}
  | _, _ => Throw NotStrings
  end = Throw NotStrings.
Proof.
  intros H. destruct vs as [[| b | m e | s | l | l] |]; try reflexivity.
  now destruct (H s).
Qed.

Lemma not_strings_r vs vf :
  (forall s, vf <> Some (JString s)) ->
  match vs, vf with
  | Some (JString s), Some (JString f) => Ok {| summary := s; focus := f |}
  | _, _ => Throw NotStrings
  end = Throw NotStrings.
Proof.
  intros H. destruct vs as [[| b | m e | s | l | l] |]; try reflexivity.
  destruct vf as [[| b | m e | f | l | l] |]; try reflexivity.
  now destruct (H f).
Qed.

(** The two checks of the parser on the values under [summary] and
    [focus]. *)
Lemma field_checks (vs vf : option json) :
  let r :=
    if negb (truthy vs) || negb (truthy vf)
    then Throw MissingSummaryOrFocus
    else match vs, vf with
         | Some (JString s), Some (JString f) =>
             Ok {| summary := s; focus := f |}
         | _, _ => Throw NotStrings
         end in
  (forall s f, r = Ok {| summary := s; focus := f |}
               <-> vs = Some (JString s) /\ vf = Some (JString f)
                   /\ s <> [] /\ f <> [])
  /\ ((exists e, r = Throw e) <-> unusable vs \/ unusable vf).
Proof.
  intros r.
  assert (Hbad : unusable vs \/ unusable vf -> exists e, r = Throw e).
  { subst r. intros [H | H]; apply unusable_cases in H; destruct H as [H | H].
    - rewrite H. eexists. reflexivity.
    - rewrite (not_strings_l _ _ H). destruct (_ || _); eexists; reflexivity.
    - rewrite H, orb_true_r. eexists. reflexivity.
    - rewrite (not_strings_r _ _ H). destruct (_ || _); eexists; reflexivity. }
  destruct (usable_or_not vs) as [(s0 & Hs & Hs0) | Hus];
    [destruct (usable_or_not vf) as [(f0 & Hf & Hf0) | Huf] |].
  - assert (Hr : r = Ok {| summary := s0; focus := f0 |}).
    { subst r vs vf. cbn [truthy].
      rewrite !bool_decide_eq_false_2 by assumption. reflexivity. }
    rewrite Hr. split.
    + intros s f. split.
      * intros [= <- <-]. auto.
      * intros (H1 & H2 & _). congruence.
    + split; [intros [e [=]] |].
      intros [H | H]; exfalso;
        [apply Hs0, (unusable_not_text _ _ H Hs)
        | apply Hf0, (unusable_not_text _ _ H Hf)].
  - destruct (Hbad (or_intror Huf)) as [e Hr]. rewrite Hr. split.
    + intros s f. split; [discriminate |]. intros (_ & H2 & _ & Hne).
      exfalso. apply Hne, (unusable_not_text _ _ Huf H2).
    + split; eauto.
  - destruct (Hbad (or_introl Hus)) as [e Hr]. rewrite Hr. split.
    + intros s f. split; [discriminate |]. intros (H1 & _ & Hne & _).
      exfalso. apply Hne, (unusable_not_text _ _ Hus H1).
    + split; eauto.
Qed.

(** C3, amended.  [parseLLMResponse] returns the two values exactly when
    the text between the first opening and the last closing brace parses
    as JSON with a non-empty string under [summary] and under [focus].
    It fails, with a parse error, exactly when there is no such text, or
    it is not valid JSON, or one of the two keys is lacking, or holds a
    value that is not a string, or holds the empty string. *)
Theorem parseLLMResponse_cases (text : jsstring) :
  (forall s f, parseLLMResponse text = Ok {| summary := s; focus := f |}
               <-> reply_holds text s f /\ s <> [] /\ f <> [])
  /\ ((exists e, parseLLMResponse text = Throw e)
      <-> brace_span text = None
          \/ exists sub,
               brace_span text = Some sub
               /\ (JSON_parse sub = None
                   \/ exists response,
                        JSON_parse sub = Some response
                        /\ (unusable (get_member response (js "summary"))
                            \/ unusable (get_member response (js "focus")))))
  /\ (forall e, parseLLMResponse text = Throw e -> is_ParseError e = true).
Proof.
  split; [| split; [| apply parseLLMResponse_error]].
  - intros s f. unfold parseLLMResponse, reply_holds.
    rewrite String_match_jsonPattern.
    destruct (brace_span text) as [sub |].
    2:{ split; [discriminate | now intros ((? & ? & [=] & _) & _)]. }
    destruct (JSON_parse sub) as [response |] eqn:Hj.
    2:{ split; [discriminate |].
        intros ((sub' & response' & [= <-] & Hj' & _) & _). congruence. }
    destruct (field_checks (get_member response (js "summary"))
                           (get_member response (js "focus"))) as [Hok _].
    cbn zeta in Hok. rewrite Hok. split.
    + intros (H1 & H2 & H3 & H4). split; [| auto]. exists sub, response. auto.
    + intros ((sub' & response' & [= <-] & Hj' & H1 & H2) & H3 & H4).
      rewrite Hj in Hj'. injection Hj' as <-. auto.
  - unfold parseLLMResponse. rewrite String_match_jsonPattern.
    destruct (brace_span text) as [sub |].
    2:{ split; [now left | intros _; eexists; reflexivity]. }
    destruct (JSON_parse sub) as [response |] eqn:Hj.
    2:{ split; [| intros _; eexists; reflexivity].
        intros _. right. exists sub. auto. }
    destruct (field_checks (get_member response (js "summary"))
                           (get_member response (js "focus"))) as [_ Hbad].
    cbn zeta in Hbad. rewrite Hbad. split.
    + intros H. right. exists sub. split; [reflexivity |]. right.
      exists response. auto.
    + intros [[=] | (sub' & [= <-] & [H | (response' & H1 & H2)])];
        [congruence |].
      rewrite Hj in H1. now injection H1 as <-.
Qed.

Lemma parseLLMResponse_cases_witness :
  parseLLMResponse other_passing_reply
  = Ok {| summary := js "Two entries, both rated 1.";
          focus := js "Plan a 10 minutes review every morning." |}.
Proof.
  apply (proj1 (parseLLMResponse_cases other_passing_reply)).
  split; [| split; discriminate].
  exists other_passing_reply.
  exists (JObject [(js "summary", JString (js "Two entries, both rated 1."));
                   (js "focus",
                    JString (js "Plan a 10 minutes review every morning."))]).
  repeat split; vm_compute; reflexivity.
Defined.

(** C3, as stated, fails on the reply [{"summary":"","focus":"x"}]: the
    text between the braces parses as an object with both keys and two
    strings, the first one empty, and the parser throws. *)
Lemma parseLLMResponse_empty_counterexample :
  ~ (reply_holds empty_summary_reply [] (js "x") ->
     parseLLMResponse empty_summary_reply
     = Ok {| summary := []; focus := js "x" |}).
Proof.
  intros H.
  assert (Hholds : reply_holds empty_summary_reply [] (js "x")).
  { exists empty_summary_reply.
    exists (JObject [(js "summary", JString []); (js "focus", JString (js "x"))]).
    repeat split; vm_compute; reflexivity. }
  specialize (H Hholds). vm_compute in H. discriminate H.
Qed.

(** C2.  On a reply with a key besides [summary] and [focus], the parser
    returns an object with those two keys only, V1 and the whole chain
    accept it, and the summary is stored: the extra key is neither kept
    nor rejected.  No reply at all makes V1 fail on an extra key. *)
Theorem extra_key_reply_accepted :
  JSON_parse extra_key_reply
  = Some (JObject [(js "summary", JString (js "Two entries, both rated 1."));
                   (js "focus",
                    JString (js "Plan a 10 minutes review every morning."));
                   (js "confidence", JNumber 9 (-1))])
  /\ (exists result,
        parseLLMResponse extra_key_reply = Ok result
        /\ Object_keys result = [js "summary"; js "focus"]
        /\ validateV1_ShapeAndLimits result = Ok tt
        /\ validateLLMOutput result monday = Ok tt)
  /\ (exists s store prompt,
        run_summarizeWeek (fun _ => Replied extra_key_reply) 0 exp1_store
          (js "user-exp1") monday base = (Ok s, store, [prompt])
        /\ getWeeklySummary store (js "user-exp1") monday = Some s)
  /\ (forall text result extraKeys,
        parseLLMResponse text = Ok result ->
        validateV1_ShapeAndLimits result <> Throw (V1_ExtraKeys extraKeys)).
Proof.
  split; [vm_compute; reflexivity |]. split.
  { eexists. split; [vm_compute; reflexivity |].
    repeat split; vm_compute; reflexivity. }
  split.
  { destruct (run_summarizeWeek (fun _ => Replied extra_key_reply) 0 exp1_store
                (js "user-exp1") monday base) as [[r store] calls] eqn:Hrun.
    assert (Hr : exists s, r = Ok s).
    { replace r with (fst (fst (run_summarizeWeek
                                  (fun _ => Replied extra_key_reply) 0
                                  exp1_store (js "user-exp1") monday base)))
        by now rewrite Hrun.
      eexists. vm_compute. reflexivity. }
    destruct Hr as [s ->].
    destruct (run_success _ _ _ _ _ _ _ _ _ Hrun) as (prompt & we & -> & Hres).
    exists s, store, prompt. split; [reflexivity |].
    apply resume_success in Hres.
    destruct Hres as (_ & _ & _ & _ & _ & _ & ->).
    unfold getWeeklySummary. cbn [weeklySummaries]. apply lookup_insert_eq. }
  intros text result extraKeys _ Hv. apply validateV1_error in Hv as He.
  unfold validateV1_ShapeAndLimits in Hv. cbn [Object_keys List.filter] in Hv.
  replace (includes [js "summary"; js "focus"] (js "summary")) with true in Hv
    by (vm_compute; reflexivity).
  replace (includes [js "summary"; js "focus"] (js "focus")) with true in Hv
    by (vm_compute; reflexivity).
  cbn [negb length] in Hv. change (0 <? 0)%nat with false in Hv. cbv iota in Hv.
  repeat match type of Hv with
         | (if ?c then _ else _) = _ => destruct c; try discriminate Hv
         end.
Qed.

(** ** Dates: the calendar date of a time value *)

Lemma era_scan_all : era_scan 146097 = (146097, true).
Proof. vm_compute. reflexivity. Qed.

Lemma era_check_all (doe : Z) : 0 <= doe < 146097 -> era_check doe = true.
Proof.
  intros Hdoe.
  assert (Hinv : let st := era_scan 146097 in
                 0 <= fst st
                 /\ (snd st = true ->
                     forall i, 0 <= i < fst st -> era_check i = true)).
  { unfold era_scan. apply Pos.iter_invariant.
    - intros [z ok] [Hz Hok]. cbn [fst snd] in *. split; [lia |].
      intros Hb i Hi. apply andb_true_iff in Hb. destruct Hb as [Hb Hc].
      destruct (Z.eq_dec i z) as [-> | Hne]; [exact Hc |].
      apply Hok; [exact Hb | lia].
    - cbn [fst snd]. split; [lia |]. intros _ i Hi. lia. }
  rewrite era_scan_all in Hinv. cbn [fst snd] in Hinv.
  now apply Hinv.
Qed.

(** [civil_from_days] through the era of the day. *)
Lemma civil_from_days_era (z : Z) :
  civil_from_days z
  = (let era := (z + 719468) / 146097 in
     let '(yoe, m, d) := era_civil ((z + 719468) mod 146097) in
     (if m <=? 2 then yoe + era * 400 + 1 else yoe + era * 400, m, d)).
Proof.
  unfold civil_from_days.
  replace (z + 719468 - (z + 719468) / 146097 * 146097)
    with ((z + 719468) mod 146097)
    by (rewrite Z.mod_eq by discriminate; ring).
  reflexivity.
Qed.

(** The day number of the calendar date of a day number is that day
    number, and the calendar date has a month and a day of the month. *)
Lemma days_from_civil_from_days (z y m d : Z) :
  civil_from_days z = (y, m, d) ->
  days_from_civil y m d = z
  /\ 1 <= m <= 12 /\ 1 <= d <= 31
  /\ (z + 719468) / 146097 * 400 <= y <= (z + 719468) / 146097 * 400 + 400.
Proof.
  rewrite civil_from_days_era.
  pose proof (Z.mod_pos_bound (z + 719468) 146097 ltac:(lia)) as Hdoe.
  pose proof (era_check_all _ Hdoe) as Hc. unfold era_check in Hc.
  set (era := (z + 719468) / 146097) in *.
  assert (Hz : z = era * 146097 + (z + 719468) mod 146097 - 719468).
  { unfold era. rewrite Z.mod_eq by discriminate. ring. }
  destruct (era_civil ((z + 719468) mod 146097)) as [[yoe m'] d'].
  cbv zeta. intros [= <- <- <-].
  rewrite !andb_true_iff, !Z.leb_le, Z.eqb_eq in Hc.
  destruct Hc as [[[[[[Hy0 Hy1] Hm0] Hm1] Hd0] Hd1] Hdays].
  split; [| split; [lia | split; [lia |]]].
  - unfold days_from_civil.
    set (y' := if m' <=? 2
               then (if m' <=? 2 then yoe + era * 400 + 1 else yoe + era * 400) - 1
               else (if m' <=? 2 then yoe + era * 400 + 1 else yoe + era * 400)).
    assert (Hy' : y' = yoe + era * 400)
      by (unfold y'; destruct (m' <=? 2); ring).
    cbv zeta. fold y'. rewrite Hy'.
    rewrite Z.div_add by discriminate.
    rewrite (Z.div_small yoe 400) by lia.
    replace (yoe + era * 400 - (0 + era) * 400) with yoe by ring.
    unfold era_days in Hdays. cbv zeta in Hdays. lia.
  - destruct (m' <=? 2); lia.
Qed.

Lemma pad_decimal_length (k : nat) (n : Z) : length (pad_decimal k n) = k.
Proof.
  revert n. induction k as [| k IH]; intros n; cbn [pad_decimal];
    [reflexivity |].
  rewrite length_app, IH. cbn. lia.
Qed.

Lemma pad_decimal_inj (k : nat) (a b : Z) :
  0 <= a < 10 ^ Z.of_nat k -> 0 <= b < 10 ^ Z.of_nat k ->
  pad_decimal k a = pad_decimal k b -> a = b.
Proof.
  revert a b. induction k as [| k IH]; intros a b Ha Hb.
  - cbn in Ha, Hb. lia.
  - rewrite Nat2Z.inj_succ, Z.pow_succ_r in Ha, Hb by lia.
    cbn [pad_decimal]. intros H. apply app_inj_tail in H.
    destruct H as [Hhi Hlo].
    apply IH in Hhi; [| Z.div_mod_to_equations; lia ..].
    apply (f_equal Z.of_N) in Hlo.
    pose proof (Z.mod_pos_bound a 10 ltac:(lia)).
    pose proof (Z.mod_pos_bound b 10 ltac:(lia)).
    rewrite !Z2N.id in Hlo by lia.
    rewrite (Z.div_mod a 10), (Z.div_mod b 10) by lia. lia.
Qed.

Lemma digits_value_snoc (s : jsstring) (c : N) :
  digits_value (s ++ [c]) = 10 * digits_value s + (Z.of_N c - 48).
Proof. unfold digits_value. now rewrite fold_left_app. Qed.

Lemma digits_value_pad (k : nat) (n : Z) :
  0 <= n < 10 ^ Z.of_nat k -> digits_value (pad_decimal k n) = n.
Proof.
  revert n. induction k as [| k IH]; intros n Hn.
  - cbn in Hn. cbn. lia.
  - rewrite Nat2Z.inj_succ, Z.pow_succ_r in Hn by lia.
    cbn [pad_decimal]. rewrite digits_value_snoc, IH
      by (Z.div_mod_to_equations; lia).
    pose proof (Z.mod_pos_bound n 10 ltac:(lia)).
    rewrite Z2N.id by lia. rewrite (Z.div_mod n 10) at 3 by lia. lia.
Qed.

Lemma iso_year_inj (y1 y2 : Z) :
  -999999 <= y1 <= 999999 -> -999999 <= y2 <= 999999 ->
  iso_year y1 = iso_year y2 -> y1 = y2.
Proof.
  intros H1 H2. unfold iso_year.
  destruct ((0 <=? y1) && (y1 <=? 9999)) eqn:E1;
    destruct ((0 <=? y2) && (y2 <=? 9999)) eqn:E2; intros H.
  - rewrite andb_true_iff, !Z.leb_le in E1, E2.
    apply pad_decimal_inj in H; [assumption | cbn; lia ..].
  - apply (f_equal (@length N)) in H. cbn [length] in H.
    rewrite !pad_decimal_length in H. discriminate.
  - apply (f_equal (@length N)) in H. cbn [length] in H.
    rewrite !pad_decimal_length in H. discriminate.
  - pose proof (f_equal (@tl N) H) as Hp.
    pose proof (f_equal (hd 0%N) H) as Hs. cbn [tl hd] in Hp, Hs.
    apply pad_decimal_inj in Hp; [| cbn; lia ..].
    destruct (y1 <? 0) eqn:L1; destruct (y2 <? 0) eqn:L2;
      try discriminate; rewrite ?Z.ltb_lt, ?Z.ltb_ge in L1, L2; lia.
Qed.

(** The calendar date that [toISODate] prints is the one of the day
    number. *)
Lemma toISODate_civil (t y m d : Z) :
  civil_from_days (t / msPerDay) = (y, m, d) ->
  toISODate t = iso_year y ++ 45%N :: pad_decimal 2 m ++ 45%N :: pad_decimal 2 d.
Proof. unfold toISODate. now intros ->. Qed.

Lemma time_value_year (t y m d : Z) :
  time_value t -> civil_from_days (t / msPerDay) = (y, m, d) ->
  -999999 <= y <= 999999.
Proof.
  unfold time_value, msPerDay. intros Ht Hc.
  apply days_from_civil_from_days in Hc. destruct Hc as (_ & _ & _ & Hy).
  assert (-272000 <= (t / 86400000 + 719468) / 146097 * 400 <= 276000)
    by (Z.div_mod_to_equations; lia).
  lia.
Qed.

Lemma pad_decimal_2_inj (a b : Z) :
  0 <= a < 100 -> 0 <= b < 100 -> pad_decimal 2 a = pad_decimal 2 b -> a = b.
Proof. intros Ha Hb. apply pad_decimal_inj; cbn; lia. Qed.

(** Two time values that print the same date are on the same day. *)
Lemma toISODate_inj (t1 t2 : Date) :
  time_value t1 -> time_value t2 ->
  toISODate t1 = toISODate t2 -> t1 / msPerDay = t2 / msPerDay.
Proof.
  intros H1 H2.
  destruct (civil_from_days (t1 / msPerDay)) as [[y1 m1] d1] eqn:E1.
  destruct (civil_from_days (t2 / msPerDay)) as [[y2 m2] d2] eqn:E2.
  rewrite (toISODate_civil _ _ _ _ E1), (toISODate_civil _ _ _ _ E2).
  pose proof (time_value_year _ _ _ _ H1 E1) as Hy1.
  pose proof (time_value_year _ _ _ _ H2 E2) as Hy2.
  apply days_from_civil_from_days in E1, E2.
  destruct E1 as (R1 & Hm1 & Hd1 & _), E2 as (R2 & Hm2 & Hd2 & _).
  intros H. apply app_inj_2 in H;
    [| cbn [length]; now rewrite !length_app, !pad_decimal_length].
  destruct H as [Hy H]. apply (f_equal (@tl N)) in H. cbn [tl] in H.
  apply app_inj_1 in H; [| now rewrite !pad_decimal_length].
  destruct H as [Hm Hd]. apply (f_equal (@tl N)) in Hd. cbn [tl] in Hd.
  apply iso_year_inj in Hy; [| assumption ..].
  apply pad_decimal_2_inj in Hm; [| lia ..].
  apply pad_decimal_2_inj in Hd; [| lia ..].
  rewrite <- R1, <- R2. now subst.
Qed.

(** The date that [new Date(dateStr)] reads from dddd-dd-dd. *)
Lemma Date_of_iso_parts (Y M D : jsstring) :
  length Y = 4%nat -> length M = 2%nat -> length D = 2%nat ->
  Date_of_iso (Y ++ 45%N :: M ++ 45%N :: D)
  = if (1 <=? digits_value M) && (digits_value M <=? 12)
       && (1 <=? digits_value D) && (digits_value D <=? 31)
    then Some (days_from_civil (digits_value Y) (digits_value M)
                               (digits_value D) * msPerDay)
    else None.
Proof.
  intros HY HM HD.
  do 4 (destruct Y as [| ? Y]; [discriminate |]).
  destruct Y; [| discriminate].
  do 2 (destruct M as [| ? M]; [discriminate |]).
  destruct M; [| discriminate].
  do 2 (destruct D as [| ? D]; [discriminate |]).
  destruct D; [| discriminate].
  reflexivity.
Qed.

(** Read back, the date that [toISODate] prints is the midnight (UTC)
    that starts the day. *)
Lemma Date_of_iso_toISODate_day (t : Date) :
  0 <= year_of t <= 9999 ->
  Date_of_iso (toISODate t) = Some (t / msPerDay * msPerDay).
Proof.
  unfold year_of.
  destruct (civil_from_days (t / msPerDay)) as [[y m] d] eqn:E.
  cbn [fst]. intros Hy. rewrite (toISODate_civil _ _ _ _ E).
  apply days_from_civil_from_days in E. destruct E as (R & Hm & Hd & _).
  unfold iso_year.
  replace ((0 <=? y) && (y <=? 9999)) with true
    by (symmetry; apply andb_true_iff; split; apply Z.leb_le; lia).
  rewrite Date_of_iso_parts by apply pad_decimal_length.
  rewrite !digits_value_pad by (cbn; lia).
  replace ((1 <=? m) && (m <=? 12) && (1 <=? d) && (d <=? 31)) with true
    by (symmetry; rewrite !andb_true_iff, !Z.leb_le; lia).
  now rewrite R.
Qed.

(** ** Keys and ids *)

Lemma decimal_fuel_app (fuel : nat) (n : N) (acc : jsstring) :
  decimal_fuel fuel n acc = decimal_fuel fuel n [] ++ acc.
Proof.
  revert n acc. induction fuel as [| fuel IH]; intros n acc;
    cbn [decimal_fuel]; [reflexivity |].
  destruct (n <? 10)%N; [reflexivity |].
  rewrite IH, (IH _ [_]), <- app_assoc. reflexivity.
Qed.

Lemma decimal_fuel_value (fuel : nat) (n : N) :
  (n < 2 ^ N.of_nat fuel)%N ->
  digits_value (decimal_fuel fuel n []) = Z.of_N n.
Proof.
  revert n. induction fuel as [| fuel IH]; intros n Hn.
  - cbn in Hn. cbn. lia.
  - rewrite Nat2N.inj_succ, N.pow_succ_r' in Hn.
    cbn [decimal_fuel].
    pose proof (N.mod_upper_bound n 10 ltac:(lia)) as Hm.
    pose proof (N.div_mod n 10 ltac:(lia)) as Hd.
    destruct (n <? 10)%N eqn:E.
    + apply N.ltb_lt in E. rewrite N.mod_small by assumption.
      unfold digits_value. cbn [fold_left]. lia.
    + apply N.ltb_ge in E. rewrite decimal_fuel_app, digits_value_snoc.
      rewrite IH; [lia |].
      apply N.Div0.div_lt_upper_bound. lia.
Qed.

Lemma decimal_value (n : N) : digits_value (decimal n) = Z.of_N n.
Proof.
  unfold decimal. apply decimal_fuel_value.
  rewrite Nat2N.inj_succ, N2Nat.id.
  destruct (N.eq_dec n 0%N) as [-> | Hne]; [reflexivity |].
  apply N.log2_spec. lia.
Qed.

Lemma entry_id_inj (k1 k2 : N) : entry_id k1 = entry_id k2 -> k1 = k2.
Proof.
  unfold entry_id. intros H. apply app_inv_head in H.
  apply (f_equal digits_value) in H. rewrite !decimal_value in H. lia.
Qed.

Lemma pad_decimal_digits (k : nat) (n : Z) :
  Forall (fun c => is_digit c = true) (pad_decimal k n).
Proof.
  revert n. induction k as [| k IH]; intros n; cbn [pad_decimal];
    [constructor |].
  apply Forall_app. split; [apply IH |].
  constructor; [apply pad_decimal_digit | constructor].
Qed.

(** [toISODate] prints digits and signs only. *)
Lemma toISODate_chars (t : Date) :
  Forall (fun c => is_digit c = true \/ c = 45%N \/ c = 43%N) (toISODate t).
Proof.
  assert (Hpad : forall k n,
             Forall (fun c => is_digit c = true \/ c = 45%N \/ c = 43%N)
                    (pad_decimal k n)).
  { intros k n. eapply List.Forall_impl; [| apply pad_decimal_digits].
    cbn. tauto. }
  unfold toISODate. destruct (civil_from_days _) as [[y m] d].
  assert (Hdash : Forall (fun c => is_digit c = true \/ c = 45%N \/ c = 43%N)
                         [45%N])
    by (constructor; [tauto | constructor]).
  rewrite !Forall_app. repeat split; try apply Hpad; try exact Hdash.
  unfold iso_year. destruct (_ && _); [apply Hpad |].
  constructor; [| apply Hpad]. destruct (y <? 0); tauto.
Qed.

Lemma toISODate_no_colon (t : Date) : ~ In 58%N (toISODate t).
Proof.
  intros Hin. pose proof (toISODate_chars t) as H.
  rewrite List.Forall_forall in H. destruct (H _ Hin) as [Hd | [Hd | Hd]];
    discriminate.
Qed.

(** A text is cut in one way only at the last occurrence of a
    character. *)
Lemma split_at_last (c : N) (u1 u2 s1 s2 : jsstring) :
  ~ In c s1 -> ~ In c s2 ->
  u1 ++ c :: s1 = u2 ++ c :: s2 -> u1 = u2 /\ s1 = s2.
Proof.
  intros H1 H2. revert u2. induction u1 as [| a u1 IH]; intros [| b u2] H;
    cbn [app] in H.
  - now injection H.
  - injection H as -> ->. exfalso. apply H1, in_elt.
  - injection H as <- <-. exfalso. apply H2, in_elt.
  - injection H as -> H. destruct (IH _ H) as [-> ->]. auto.
Qed.

Lemma getDateKey_inj (u1 u2 : jsstring) (d1 d2 : Date) :
  getDateKey u1 d1 = getDateKey u2 d2 ->
  u1 = u2 /\ toISODate d1 = toISODate d2.
Proof.
  unfold getDateKey. change (js ":") with [58%N]. cbn [app].
  apply split_at_last; apply toISODate_no_colon.
Qed.

Lemma getWeeklySummaryKey_inj (u1 u2 : jsstring) (w1 w2 : Date) :
  getWeeklySummaryKey u1 w1 = getWeeklySummaryKey u2 w2 ->
  u1 = u2 /\ toISODate w1 = toISODate w2.
Proof. apply getDateKey_inj. Qed.

(** ** The entries of a reachable store *)

Lemma valid_rating_range (r : Z) : valid_rating r = true <-> -2 <= r <= 2.
Proof.
  unfold valid_rating. cbn [existsb].
  rewrite !orb_true_iff, !Z.eqb_eq. lia.
Qed.

Lemma valid_rating_false (r : Z) : valid_rating r = false <-> ~ -2 <= r <= 2.
Proof.
  rewrite <- valid_rating_range. destruct (valid_rating r); split; auto;
    try discriminate. intros H. now destruct H.
Qed.

Lemma Map_values_app {V : Type} (m1 m2 : list (jsstring * V)) :
  Map_values (m1 ++ m2) = Map_values m1 ++ Map_values m2.
Proof. apply List.map_app. Qed.

(** What a successful [createEntry] returns and stores. *)
Lemma createEntry_Ok this u d g dt p t r :
  valid_rating r = true ->
  Map_has (entries this) (getDateKey u d) = false ->
  createEntry this u d g dt p t r
  = (Ok (mkJournalEntry (entry_id (nextId this)) u d g dt p t r),
     {| entries :=
          entries this
          ++ [(getDateKey u d,
               mkJournalEntry (entry_id (nextId this)) u d g dt p t r)];
        weeklySummaries := weeklySummaries this;
        nextId := (nextId this + 1)%N |}).
Proof.
  intros Hr Hhas. unfold createEntry. rewrite Hr, Hhas. cbn [negb].
  now rewrite (Map_set_fresh _ _ _ Hhas).
Qed.

(** In a store whose bindings sit under the keys of their entries, the
    key of a user and a date is taken when the user has an entry whose
    date prints alike. *)
Lemma Map_has_entry_on this u d :
  entries_ok this ->
  Map_has (entries this) (getDateKey u d) = true <-> has_entry_on this u d.
Proof.
  intros [_ Hall]. rewrite List.Forall_forall in Hall.
  rewrite Map_has_In, in_map_iff. unfold has_entry_on, stored, Map_values.
  split.
  - intros ([k e] & Hk & Hin). cbn [fst] in Hk. subst k.
    destruct (Hall _ Hin) as [Hkey _]. cbn [fst snd] in Hkey.
    apply getDateKey_inj in Hkey. destruct Hkey as [Hu Hd].
    exists e. split; [| auto].
    apply in_map_iff. now exists (getDateKey u d, e).
  - intros (e & Hin & Hu & Hd). apply in_map_iff in Hin.
    destruct Hin as ([k e'] & He & Hin). cbn [snd] in He. subst e'.
    exists (k, e). split; [| assumption]. cbn [fst].
    destruct (Hall _ Hin) as [Hkey _]. cbn [fst snd] in Hkey.
    rewrite Hkey. unfold getDateKey. now rewrite Hu, Hd.
Qed.

Lemma resume_nextId user weekStart weekEnd weekEntries reply now store :
  nextId (snd (summarizeWeek_resume user weekStart weekEnd weekEntries
                 reply now store)) = nextId store.
Proof.
  unfold summarizeWeek_resume. destruct reply; [| reflexivity].
  destruct (parseLLMResponse _); [| reflexivity].
  destruct (validateLLMOutput _ _); reflexivity.
Qed.

Lemma ids_ok_createEntry this u d g dt p t r :
  ids_ok this -> ids_ok (snd (createEntry this u d g dt p t r)).
Proof.
  intros (Hn & Hnd & Hall). unfold createEntry.
  destruct (valid_rating r) eqn:Hr; cbn [negb]; [| now repeat split].
  destruct (Map_has _ _) eqn:Hhas; [now repeat split |].
  rewrite (Map_set_fresh _ _ _ Hhas). cbn [snd].
  unfold ids_ok. cbn [entries nextId].
  rewrite Map_values_app, List.map_app. cbn [Map_values List.map snd id].
  rewrite List.Forall_forall in Hall. split; [lia |]. split.
  - apply List.NoDup_app; auto.
    + repeat constructor. intros [].
    + intros i Hin [<- | []]. apply in_map_iff in Hin.
      destruct Hin as (e & He & Hin).
      destruct (Hall _ Hin) as (k & Hk & Hid).
      rewrite Hid in He. apply entry_id_inj in He. lia.
  - apply Forall_app. split.
    + apply List.Forall_forall. intros e Hin.
      destruct (Hall _ Hin) as (k & Hk & Hid). exists k. split; [lia | auto].
    + constructor; [| constructor]. exists (nextId this).
      cbn [id]. split; [lia | reflexivity].
Qed.

Lemma ids_ok_editEntry this entryId updates :
  ids_ok this -> ids_ok (snd (editEntry this entryId updates)).
Proof.
  intros (Hn & Hnd & Hall).
  destruct (editEntry_cases this entryId updates)
    as [(err & ->) | (pre & k & e & post & Hent & Hid & ->)]; cbn [snd];
    [now repeat split |].
  unfold ids_ok in *. cbn [entries nextId]. rewrite Hent in Hnd, Hall.
  rewrite Map_values_app in *. cbn [Map_values List.map snd] in *.
  rewrite List.map_app in *. cbn [List.map] in *.
  split; [assumption |]. split; [assumption |].
  apply Forall_app in Hall. destruct Hall as [Hpre Hpost].
  apply Forall_app. split; [assumption |].
  inversion Hpost; subst. constructor; assumption.
Qed.

Lemma ids_ok_deleteEntry this entryId :
  ids_ok this -> ids_ok (snd (deleteEntry this entryId)).
Proof.
  intros (Hn & Hnd & Hall). unfold deleteEntry.
  destruct (findEntryById this entryId); cbn [snd]; [| now repeat split].
  unfold ids_ok, Map_delete, Map_values in *. cbn [entries nextId].
  split; [assumption |]. split.
  - rewrite List.map_map in *.
    apply (NoDup_map_filter (fun kv : jsstring * JournalEntry => id (snd kv))).
    assumption.
  - rewrite List.Forall_forall in *. intros e Hin. apply Hall.
    apply in_map_iff in Hin. destruct Hin as (kv & <- & Hin).
    apply filter_In in Hin. apply in_map. tauto.
Qed.

Lemma reachable_ids_ok this : reachable this -> ids_ok this.
Proof.
  induction 1 as [| this u d g dt p t r _ IH
                  | this entryId updates _ IH
                  | this entryId _ IH
                  | this0 this u w v prompt resume reply now _ _ _ IH Hsw].
  - unfold ids_ok. cbn. split; [lia |]. split; constructor.
  - now apply ids_ok_createEntry.
  - now apply ids_ok_editEntry.
  - now apply ids_ok_deleteEntry.
  - apply summarizeWeek_await in Hsw. destruct Hsw as [-> _].
    unfold ids_ok. now rewrite resume_entries, resume_nextId.
Qed.

Lemma NoDup_map_In_inj {A B : Type} (f : A -> B) (l : list A) (x y : A) :
  List.NoDup (List.map f l) -> In x l -> In y l -> f x = f y -> x = y.
Proof.
  induction l as [| a l IH]; cbn [List.map]; [intros _ [] |].
  intros Hnd. inversion Hnd as [| ? ? Hnotin Hnd']; subst.
  intros [-> | Hx] [-> | Hy] Heq; auto.
  - exfalso. apply Hnotin. rewrite Heq. now apply in_map.
  - exfalso. apply Hnotin. rewrite <- Heq. now apply in_map.
Qed.

Lemma findEntryById_Some this entryId e :
  findEntryById this entryId = Some e -> stored this e /\ id e = entryId.
Proof.
  unfold findEntryById, stored. intros H. apply find_some in H.
  destruct H as [Hin Hid]. now apply jsstring_eqb_eq in Hid.
Qed.

Lemma findEntryById_None this entryId :
  findEntryById this entryId = None
  <-> forall e, stored this e -> id e <> entryId.
Proof.
  unfold findEntryById, stored. split.
  - intros H e Hin Hid. apply (find_none _ _ H) in Hin.
    apply jsstring_eqb_neq in Hin. contradiction.
  - intros H. destruct (List.find _ _) as [e |] eqn:Hf; [| reflexivity].
    apply find_some in Hf. destruct Hf as [Hin Hid].
    apply jsstring_eqb_eq in Hid. now destruct (H e Hin).
Qed.

Lemma findEntryById_stored this e :
  ids_ok this -> stored this e -> findEntryById this (id e) = Some e.
Proof.
  intros (_ & Hnd & _) Hin.
  destruct (findEntryById this (id e)) as [x |] eqn:Hf.
  - apply findEntryById_Some in Hf. destruct Hf as [Hx Hid].
    f_equal. now apply (NoDup_map_In_inj id (Map_values (entries this))).
  - rewrite findEntryById_None in Hf. now destruct (Hf e Hin).
Qed.

Lemma find_mutate_first (m : list (jsstring * JournalEntry))
    (i i' : jsstring) (f : JournalEntry -> JournalEntry) :
  (forall x, id (f x) = id x) ->
  List.find (fun e => jsstring_eqb (id e) i') (Map_values (mutate_first i f m))
  = option_map (fun x => if jsstring_eqb i' i then f x else x)
      (List.find (fun e => jsstring_eqb (id e) i') (Map_values m)).
Proof.
  intros Hf. induction m as [| [k x] m IH]; [reflexivity |].
  cbn [mutate_first snd fst].
  destruct (jsstring_eqb (id x) i) eqn:Ei.
  - cbn [Map_values List.map snd List.find]. rewrite Hf.
    apply jsstring_eqb_eq in Ei.
    destruct (jsstring_eqb (id x) i') eqn:Ei'.
    + apply jsstring_eqb_eq in Ei'. cbn [option_map].
      replace (jsstring_eqb i' i) with true; [reflexivity |].
      symmetry. apply jsstring_eqb_eq. congruence.
    + apply jsstring_eqb_neq in Ei'.
      replace (jsstring_eqb i' i) with false
        by (symmetry; apply jsstring_eqb_neq; congruence).
      match goal with |- ?a = _ => destruct a end; reflexivity.
  - cbn [Map_values List.map snd List.find].
    fold (Map_values (mutate_first i f m)). fold (Map_values m).
    destruct (jsstring_eqb (id x) i') eqn:Ei'; [| exact IH].
    apply jsstring_eqb_eq in Ei'. apply jsstring_eqb_neq in Ei.
    cbn [option_map].
    replace (jsstring_eqb i' i) with false; [reflexivity |].
    symmetry. apply jsstring_eqb_neq. congruence.
Qed.

(** ** The sorted lists of entries *)

Lemma insert_by_date_In e l x : In x (insert_by_date e l) <-> x = e \/ In x l.
Proof.
  induction l as [| a l IH]; cbn [insert_by_date In]; [intuition congruence |].
  destruct (date e <=? date a); cbn [In]; [intuition congruence |].
  rewrite IH. intuition congruence.
Qed.

Lemma insert_by_date_sorted e l :
  StronglySorted by_date l -> StronglySorted by_date (insert_by_date e l).
Proof.
  induction 1 as [| a l Hs IH Ha]; cbn [insert_by_date].
  - repeat constructor.
  - pose proof Ha as Ha'. rewrite List.Forall_forall in Ha.
    destruct (date e <=? date a) eqn:E.
    + apply Z.leb_le in E. constructor; [now constructor |].
      constructor; [exact E |]. apply List.Forall_forall. intros x Hx.
      specialize (Ha x Hx). unfold by_date in *. lia.
    + apply Z.leb_gt in E. constructor; [exact IH |].
      apply List.Forall_forall. intros x Hx. apply insert_by_date_In in Hx.
      destruct Hx as [-> | Hx]; [unfold by_date; lia | now apply Ha].
Qed.

Lemma sort_by_date_sorted l : StronglySorted by_date (sort_by_date l).
Proof.
  induction l as [| e l IH]; [constructor |].
  now apply insert_by_date_sorted.
Qed.

(** A test that is applied after the sort can be applied before it. *)
Lemma filter_insert_by_date (p : JournalEntry -> bool) e l :
  StronglySorted by_date l ->
  List.filter p (insert_by_date e l)
  = if p e then insert_by_date e (List.filter p l) else List.filter p l.
Proof.
  induction 1 as [| a l Hs IH Ha]; cbn [insert_by_date List.filter].
  - now destruct (p e).
  - rewrite List.Forall_forall in Ha.
    destruct (date e <=? date a) eqn:E; cbn [List.filter].
    + destruct (p e) eqn:Pe; [| reflexivity].
      destruct (p a); cbn [insert_by_date]; [now rewrite E |].
      apply Z.leb_le in E.
      assert (Hall : forall x, In x (List.filter p l) -> date e <= date x).
      { intros x Hx. apply filter_In in Hx. destruct Hx as [Hx _].
        specialize (Ha x Hx). unfold by_date in Ha. lia. }
      destruct (List.filter p l) as [| b l']; [reflexivity |].
      cbn [insert_by_date].
      replace (date e <=? date b) with true; [reflexivity |].
      symmetry. apply Z.leb_le. apply Hall. now left.
    + rewrite IH. destruct (p a), (p e); cbn [insert_by_date];
        rewrite ?E; reflexivity.
Qed.

Lemma filter_sort_by_date (p : JournalEntry -> bool) l :
  List.filter p (sort_by_date l) = sort_by_date (List.filter p l).
Proof.
  induction l as [| e l IH]; [reflexivity |].
  cbn [sort_by_date fold_right List.filter].
  fold (sort_by_date l).
  rewrite filter_insert_by_date by apply sort_by_date_sorted.
  rewrite IH. now destruct (p e).
Qed.

(** A change of the entries that keeps their dates goes through the
    sort. *)
Lemma map_insert_by_date (g : JournalEntry -> JournalEntry) e l :
  (forall x, date (g x) = date x) ->
  List.map g (insert_by_date e l) = insert_by_date (g e) (List.map g l).
Proof.
  intros Hg. induction l as [| a l IH]; [reflexivity |].
  cbn [insert_by_date List.map]. rewrite !Hg.
  destruct (date e <=? date a); cbn [List.map]; [reflexivity |].
  now rewrite IH.
Qed.

Lemma map_sort_by_date (g : JournalEntry -> JournalEntry) l :
  (forall x, date (g x) = date x) ->
  List.map g (sort_by_date l) = sort_by_date (List.map g l).
Proof.
  intros Hg. induction l as [| e l IH]; [reflexivity |].
  cbn [sort_by_date fold_right List.map]. fold (sort_by_date l).
  fold (sort_by_date (List.map g l)).
  now rewrite map_insert_by_date, IH.
Qed.

Lemma filter_andb {A : Type} (p q : A -> bool) (l : list A) :
  List.filter (fun x => p x && q x) l = List.filter q (List.filter p l).
Proof.
  induction l as [| x l IH]; [reflexivity |]. cbn [List.filter].
  destruct (p x); cbn [andb List.filter]; [| exact IH].
  destruct (q x); now rewrite IH.
Qed.

Lemma getEntriesForUser_In this user e :
  In e (getEntriesForUser this user) <-> stored this e /\ userId e = user.
Proof.
  unfold getEntriesForUser, stored.
  split.
  - intros H. apply (Permutation_in _ (sort_by_date_perm _)) in H.
    apply filter_In in H. now rewrite jsstring_eqb_eq in H.
  - intros [Hin Hu].
    apply (Permutation_in _ (Permutation_sym (sort_by_date_perm _))).
    apply filter_In. now rewrite jsstring_eqb_eq.
Qed.

Lemma sorted_earlier (l : list JournalEntry) :
  StronglySorted by_date l -> List.NoDup (List.map date l) ->
  StronglySorted earlier l.
Proof.
  induction 1 as [| a l Hs IH Ha]; cbn [List.map]; [constructor |].
  intros Hnd. inversion Hnd as [| ? ? Hnotin Hnd']; subst.
  constructor; [now apply IH |].
  rewrite List.Forall_forall in *. intros x Hx. specialize (Ha x Hx).
  unfold by_date, earlier in *.
  assert (date a <> date x) by (intros Heq; apply Hnotin; rewrite Heq;
                                now apply in_map).
  lia.
Qed.

(** In a reachable store the entries of a user have different dates. *)
Lemma user_dates_NoDup this user :
  reachable this ->
  List.NoDup (List.map date
                (List.filter (fun e => jsstring_eqb (userId e) user)
                             (Map_values (entries this)))).
Proof.
  intros Hr. apply reachable_one_entry_per_day in Hr.
  unfold one_entry_per_day in Hr.
  apply (NoDup_map_inv (fun z => (user, toISODate z))).
  rewrite List.map_map.
  rewrite (map_ext_in _ (fun e => (userId e, toISODate (date e)))).
  - now apply NoDup_map_filter.
  - intros e Hin. apply filter_In in Hin. destruct Hin as [_ Hu].
    apply jsstring_eqb_eq in Hu. now rewrite Hu.
Qed.

(** ** createEntry, editEntry, deleteEntry and the two listings *)

Lemma map_filter_ext_in {A B : Type} (f : A -> B) (p : A -> bool)
    (q : B -> bool) (l : list A) :
  (forall x, In x l -> p x = q (f x)) ->
  List.map f (List.filter p l) = List.filter q (List.map f l).
Proof.
  induction l as [| a l IH]; intros H; [reflexivity |].
  cbn [List.filter List.map]. rewrite <- (H a) by now left.
  destruct (p a); cbn [List.map]; rewrite IH; auto;
    intros x Hx; apply H; now right.
Qed.

(** In a reachable store, [deleteEntry] by the id of a stored entry
    removes the entries with that id. *)
Lemma deleteEntry_stored this e :
  reachable this -> stored this e ->
  deleteEntry this (id e)
  = (Ok tt,
     {| entries := Map_delete (entries this)
                     (getDateKey (userId e) (date e));
        weeklySummaries := weeklySummaries this;
        nextId := nextId this |})
  /\ Map_values (Map_delete (entries this) (getDateKey (userId e) (date e)))
     = List.filter (fun x => negb (jsstring_eqb (id x) (id e)))
                   (Map_values (entries this)).
Proof.
  intros Hr Hin.
  pose proof (reachable_ids_ok _ Hr) as Hids.
  pose proof (reachable_one_entry_per_day _ Hr) as Hday.
  destruct (reachable_ok _ Hr) as [[_ Hall] _].
  rewrite List.Forall_forall in Hall.
  split.
  - unfold deleteEntry. now rewrite (findEntryById_stored _ _ Hids Hin).
  - unfold Map_delete, Map_values. apply map_filter_ext_in.
    intros [k x] Hkv. cbn [fst snd]. f_equal.
    destruct (Hall _ Hkv) as [Hk _]. cbn [fst snd] in Hk.
    assert (Hx : stored this x)
      by (apply in_map_iff; now exists (k, x)).
    destruct (jsstring_eqb (id x) (id e)) eqn:Ei.
    + apply jsstring_eqb_eq in Ei. apply jsstring_eqb_eq.
      destruct Hids as (_ & Hnd & _).
      rewrite (NoDup_map_In_inj id _ x e Hnd Hx Hin Ei) in Hk. exact Hk.
    + apply jsstring_eqb_neq in Ei. apply jsstring_eqb_neq.
      intros Heq. apply Ei. rewrite Hk in Heq.
      apply getDateKey_inj in Heq. destruct Heq as [Hu Hd].
      f_equal.
      apply (NoDup_map_In_inj (fun e => (userId e, toISODate (date e)))
               (Map_values (entries this))); auto.
      now rewrite Hu, Hd.
Qed.

(** In a reachable store, [editEntry] rewrites the entries with the id
    it is given. *)
Lemma mutate_first_map this entryId f :
  ids_ok this ->
  (forall x, id (f x) = id x) ->
  Map_values (mutate_first entryId f (entries this))
  = List.map (fun x => if jsstring_eqb (id x) entryId then f x else x)
             (Map_values (entries this)).
Proof.
  intros (_ & Hnd & _) Hf. unfold Map_values in *.
  induction (entries this) as [| [k x] m IH]; [reflexivity |].
  cbn [List.map snd] in Hnd. inversion Hnd as [| ? ? Hnotin Hnd']; subst.
  cbn [mutate_first snd fst List.map].
  destruct (jsstring_eqb (id x) entryId) eqn:Ei; cbn [List.map snd].
  - f_equal. apply jsstring_eqb_eq in Ei. subst entryId.
    rewrite <- (map_id (List.map snd m)) at 1.
    apply map_ext_in. intros y Hy.
    replace (jsstring_eqb (id y) (id x)) with false; [reflexivity |].
    symmetry. apply jsstring_eqb_neq. intros Heq. apply Hnotin.
    rewrite <- Heq. now apply in_map.
  - f_equal. now apply IH.
Qed.

Lemma createEntry_fresh_id this e :
  ids_ok this -> stored this e -> id e <> entry_id (nextId this).
Proof.
  intros (_ & _ & Hall) Hin Heq. rewrite List.Forall_forall in Hall.
  destruct (Hall _ Hin) as (k & Hk & Hid). rewrite Hid in Heq.
  apply entry_id_inj in Heq. lia.
Qed.

(** X1. [createEntry] on a store that the public methods can produce.
    A rating outside -2..2 is refused first; then a second entry of the
    user on a date that prints like the date of one of their entries is
    refused; in both cases the store is the same.  Otherwise the entry is
    appended under the next id, which no stored entry has, the summaries
    are kept, and the new entry is found by its id. *)
Theorem createEntry_outcome (this : JournalEntries) (user : jsstring)
    (d : Date) (g dt p t : jsstring) (r : Z) :
  reachable this ->
  let res := createEntry this user d g dt p t r in
  (~ -2 <= r <= 2 -> res = (Throw InvalidRating, this))
  /\ (-2 <= r <= 2 -> has_entry_on this user d ->
      res = (Throw EntryExists, this))
  /\ (-2 <= r <= 2 -> ~ has_entry_on this user d ->
      let created := mkJournalEntry (entry_id (nextId this)) user d g dt p t r in
      fst res = Ok created
      /\ Map_values (entries (snd res)) = Map_values (entries this) ++ [created]
      /\ weeklySummaries (snd res) = weeklySummaries this
      /\ nextId (snd res) = (nextId this + 1)%N
      /\ (forall e, stored this e -> id e <> id created)
      /\ findEntryById (snd res) (id created) = Some created
      /\ has_entry_on (snd res) user d).
Proof.
  intros Hr res.
  pose proof (reachable_ids_ok _ Hr) as Hids.
  destruct (reachable_ok _ Hr) as [Hok _].
  pose proof (Map_has_entry_on this user d Hok) as Hhas.
  split; [| split].
  - intros Hrt. apply valid_rating_false in Hrt.
    unfold res, createEntry. now rewrite Hrt.
  - intros Hrt Hon. apply valid_rating_range in Hrt. apply Hhas in Hon.
    unfold res, createEntry. now rewrite Hrt, Hon.
  - intros Hrt Hon created. apply valid_rating_range in Hrt.
    assert (Hfree : Map_has (entries this) (getDateKey user d) = false).
    { apply not_true_is_false. intros E. apply Hhas in E. contradiction. }
    assert (Hres : res = createEntry this user d g dt p t r) by reflexivity.
    rewrite (createEntry_Ok _ _ _ g dt p t _ Hrt Hfree) in Hres.
    fold created in Hres.
    assert (Hstored : stored (snd res) created).
    { rewrite Hres. unfold stored. cbn [snd entries].
      rewrite Map_values_app. apply in_or_app. right. now left. }
    rewrite Hres at 1 2 3 4. cbn [fst snd entries weeklySummaries nextId].
    rewrite Map_values_app.
    repeat split.
    + intros e He. now apply createEntry_fresh_id.
    + apply findEntryById_stored; [| exact Hstored].
      apply reachable_ids_ok. unfold res. now constructor.
    + exists created. auto.
Qed.

Lemma createEntry_outcome_witness :
  createEntry new_JournalEntries (js "user-error") monday
    (js "Test") (js "Test") (js "Test") (js "Test") 5
  = (Throw InvalidRating, new_JournalEntries).
Proof.
  destruct (createEntry_outcome new_JournalEntries (js "user-error") monday
              (js "Test") (js "Test") (js "Test") (js "Test") 5 reach_new)
    as [H _].
  apply H. lia.
Defined.

(** X2. In a store that the public methods can produce, an entry is
    found by its id: ids are [entry-k] for a [k] from 1 to below the
    counter, no two stored entries share an id, [findEntryById] returns
    the stored entry that has the id, and nothing when no stored entry
    has it. *)
Theorem findEntryById_stored_entry (this : JournalEntries) :
  reachable this ->
  (forall e, stored this e -> findEntryById this (id e) = Some e)
  /\ (forall e, stored this e ->
                exists k, (1 <= k < nextId this)%N /\ id e = entry_id k)
  /\ (forall e1 e2, stored this e1 -> stored this e2 -> id e1 = id e2 ->
                    e1 = e2)
  /\ (forall entryId,
        findEntryById this entryId = None
        <-> forall e, stored this e -> id e <> entryId).
Proof.
  intros Hr. pose proof (reachable_ids_ok _ Hr) as Hids.
  split; [| split; [| split]].
  - intros e He. now apply findEntryById_stored.
  - destruct Hids as (_ & _ & Hall). rewrite List.Forall_forall in Hall.
    exact Hall.
  - destruct Hids as (_ & Hnd & _). intros e1 e2 H1 H2 Heq.
    now apply (NoDup_map_In_inj id (Map_values (entries this))).
  - apply findEntryById_None.
Qed.

Lemma findEntryById_stored_entry_witness :
  findEntryById exp1_store (js "entry-2")
  = Some (mkJournalEntry (js "entry-2") (js "user-exp1")
            (Date_addDays monday 3) (js "Thankful for progress")
            (js "Made good headway on project")
            (js "Stayed focused despite challenges")
            (js "Keep pushing forward") 1).
Proof.
  destruct (findEntryById_stored_entry exp1_store) as [H _].
  - unfold exp1_store. repeat constructor.
  - apply (H (mkJournalEntry (js "entry-2") (js "user-exp1")
                (Date_addDays monday 3) (js "Thankful for progress")
                (js "Made good headway on project")
                (js "Stayed focused despite challenges")
                (js "Keep pushing forward") 1)).
    vm_compute. right. left. reflexivity.
Defined.

(** X3. [editEntry] on a store that the public methods can produce.
    An id that no stored entry has is refused; for the entry that has
    the id, a provided rating outside -2..2 is refused, whatever else is
    provided; in both cases the store is the same.  Otherwise the edited
    entry is returned, it is what [findEntryById] then finds under the
    id, every other id finds what it found, and the listing of every
    user keeps its order, with the edited entry in the place of the old
    one. *)
Theorem editEntry_outcome (this : JournalEntries) (entryId : jsstring)
    (updates : EntryUpdates) :
  reachable this ->
  let res := editEntry this entryId updates in
  ((forall e, stored this e -> id e <> entryId) ->
   res = (Throw EntryNotFound, this))
  /\ (forall e, stored this e -> id e = entryId ->
        ((exists r, u_rating updates = Some r /\ ~ -2 <= r <= 2) ->
         res = (Throw InvalidRating, this))
        /\ ((forall r, u_rating updates = Some r -> -2 <= r <= 2) ->
            fst res = Ok (apply_updates updates e)
            /\ findEntryById (snd res) entryId
               = Some (apply_updates updates e)
            /\ (forall other, other <> entryId ->
                  findEntryById (snd res) other = findEntryById this other)
            /\ (forall user,
                  getEntriesForUser (snd res) user
                  = List.map (fun x => if jsstring_eqb (id x) entryId
                                       then apply_updates updates x else x)
                             (getEntriesForUser this user)))).
Proof.
  intros Hr res. pose proof (reachable_ids_ok _ Hr) as Hids. split.
  - intros Hnone. apply findEntryById_None in Hnone.
    unfold res, editEntry. now rewrite Hnone.
  - intros e He Hid. subst entryId.
    pose proof (findEntryById_stored _ _ Hids He) as Hfind. split.
    + intros (r & Hu & Hrt). apply valid_rating_false in Hrt.
      unfold res, editEntry. now rewrite Hfind, Hu, Hrt.
    + intros Hrt.
      assert (Hres : res
                = (Ok (apply_updates updates e),
                   {| entries := mutate_first (id e) (apply_updates updates)
                                   (entries this);
                      weeklySummaries := weeklySummaries this;
                      nextId := nextId this |})).
      { unfold res, editEntry. rewrite Hfind.
        destruct (u_rating updates) as [r |]; [| reflexivity].
        specialize (Hrt r eq_refl). apply valid_rating_range in Hrt.
        now rewrite Hrt. }
      rewrite Hres. cbn [fst snd]. split; [reflexivity |].
      assert (Hkeep : forall x, id (apply_updates updates x) = id x)
        by reflexivity.
      split; [| split].
      * unfold findEntryById in *. cbn [entries].
        rewrite find_mutate_first by exact Hkeep. rewrite Hfind.
        cbn [option_map]. now rewrite jsstring_eqb_refl.
      * intros other Hne. unfold findEntryById. cbn [entries].
        rewrite find_mutate_first by exact Hkeep.
        replace (jsstring_eqb other (id e)) with false
          by (symmetry; now apply jsstring_eqb_neq).
        now destruct (List.find _ _).
      * intros user. unfold getEntriesForUser. cbn [entries].
        rewrite (mutate_first_map _ _ _ Hids Hkeep).
        rewrite filter_map_comm.
        rewrite map_sort_by_date
          by (intros x; now destruct (jsstring_eqb (id x) (id e))).
        f_equal. f_equal. apply filter_ext. intros x.
        now destruct (jsstring_eqb (id x) (id e)).
Qed.

Lemma editEntry_outcome_witness :
  editEntry exp1_store (js "entry-7") test_updates
  = (Throw EntryNotFound, exp1_store).
Proof.
  destruct (editEntry_outcome exp1_store (js "entry-7") test_updates)
    as [H _].
  - unfold exp1_store. repeat constructor.
  - apply H. vm_compute. intros e [<- | [<- | []]]; discriminate.
Defined.

(** X4. [deleteEntry] on a store that the public methods can produce.
    An id that no stored entry has is refused and the store is the same.
    Otherwise exactly the entry with the id leaves the store: it is not
    found any more, its user has no entry on its date, the listing of
    every user loses it and nothing else, and the summaries and the
    counter are kept. *)
Theorem deleteEntry_outcome (this : JournalEntries) (entryId : jsstring) :
  reachable this ->
  let res := deleteEntry this entryId in
  ((forall e, stored this e -> id e <> entryId) ->
   res = (Throw EntryNotFound, this))
  /\ (forall e, stored this e -> id e = entryId ->
        fst res = Ok tt
        /\ (forall x, stored (snd res) x <-> stored this x /\ x <> e)
        /\ findEntryById (snd res) entryId = None
        /\ ~ has_entry_on (snd res) (userId e) (date e)
        /\ (forall user,
              getEntriesForUser (snd res) user
              = List.filter (fun x => negb (jsstring_eqb (id x) entryId))
                            (getEntriesForUser this user))
        /\ weeklySummaries (snd res) = weeklySummaries this
        /\ nextId (snd res) = nextId this).
Proof.
  intros Hr res. pose proof (reachable_ids_ok _ Hr) as Hids. split.
  - intros Hnone. apply findEntryById_None in Hnone.
    unfold res, deleteEntry. now rewrite Hnone.
  - intros e He Hid. subst entryId.
    destruct (deleteEntry_stored _ _ Hr He) as [Hres Hvals].
    fold res in Hres.
    assert (Hstored : forall x, stored (snd res) x <-> stored this x /\ x <> e).
    { intros x. rewrite Hres. unfold stored. cbn [snd entries].
      rewrite Hvals, filter_In, negb_true_iff, jsstring_eqb_neq.
      split; intros [Hx Hne]; (split; [exact Hx |]).
      - intros ->. now apply Hne.
      - intros Heq. apply Hne. destruct Hids as (_ & Hnd & _).
        now apply (NoDup_map_In_inj id (Map_values (entries this))). }
    split; [now rewrite Hres |]. split; [exact Hstored |].
    split; [| split; [| split; [| now rewrite Hres]]].
    + apply findEntryById_None. intros x Hx Heq. apply Hstored in Hx.
      destruct Hx as [Hx Hne]. apply Hne. destruct Hids as (_ & Hnd & _).
      now apply (NoDup_map_In_inj id (Map_values (entries this))).
    + intros (x & Hx & Hu & Hd). apply Hstored in Hx.
      destruct Hx as [Hx Hne]. apply Hne.
      apply (NoDup_map_In_inj (fun e => (userId e, toISODate (date e)))
               (Map_values (entries this))); auto.
      * now apply reachable_one_entry_per_day.
      * now rewrite Hu, Hd.
    + intros user. rewrite Hres. unfold getEntriesForUser.
      cbn [snd entries]. rewrite Hvals, filter_sort_by_date.
      f_equal. rewrite <- !filter_andb. apply filter_ext. intros x.
      apply andb_comm.
Qed.

Lemma deleteEntry_outcome_witness :
  deleteEntry exp1_store (js "entry-7") = (Throw EntryNotFound, exp1_store).
Proof.
  destruct (deleteEntry_outcome exp1_store (js "entry-7")) as [H _].
  - unfold exp1_store. repeat constructor.
  - apply H. vm_compute. intros e [<- | [<- | []]]; discriminate.
Defined.

(** X5. Deleting an entry frees its day but not its id: in a store that
    the public methods can produce, after [deleteEntry] of a stored
    entry, [createEntry] for the same user and date with a rating in
    -2..2 succeeds, and the entry it creates has an id that differs from
    the deleted one. *)
Theorem deleteEntry_then_createEntry (this : JournalEntries)
    (e : JournalEntry) (g dt p t : jsstring) (r : Z) :
  reachable this -> stored this e -> -2 <= r <= 2 ->
  let store1 := snd (deleteEntry this (id e)) in
  let res := createEntry store1 (userId e) (date e) g dt p t r in
  let created :=
    mkJournalEntry (entry_id (nextId this)) (userId e) (date e) g dt p t r in
  fst res = Ok created
  /\ id created <> id e
  /\ stored (snd res) created
  /\ ~ stored (snd res) e.
Proof.
  intros Hr He Hrt store1 res created.
  pose proof (reachable_ids_ok _ Hr) as Hids.
  destruct (deleteEntry_stored _ _ Hr He) as [Hdel Hvals].
  assert (Hr1 : reachable store1) by (unfold store1; now constructor).
  assert (Hnext : nextId store1 = nextId this)
    by (unfold store1; now rewrite Hdel).
  assert (Hfree : ~ has_entry_on store1 (userId e) (date e)).
  { intros (x & Hx & Hu & Hd). unfold store1, stored in Hx.
    rewrite Hdel in Hx. cbn [snd entries] in Hx. rewrite Hvals in Hx.
    apply filter_In in Hx. destruct Hx as [Hx Hne].
    apply negb_true_iff, jsstring_eqb_neq in Hne. apply Hne. f_equal.
    apply (NoDup_map_In_inj (fun e => (userId e, toISODate (date e)))
             (Map_values (entries this))); auto.
    - now apply reachable_one_entry_per_day.
    - now rewrite Hu, Hd. }
  destruct (reachable_ok _ Hr1) as [Hok1 _].
  assert (Hhas : Map_has (entries store1) (getDateKey (userId e) (date e))
                 = false).
  { apply not_true_is_false. intros E.
    apply (Map_has_entry_on _ _ _ Hok1) in E. contradiction. }
  apply valid_rating_range in Hrt.
  assert (Hres : res = createEntry store1 (userId e) (date e) g dt p t r)
    by reflexivity.
  rewrite (createEntry_Ok _ _ _ g dt p t _ Hrt Hhas), Hnext in Hres.
  fold created in Hres.
  assert (Hid : id created <> id e).
  { intros Heq. now apply (createEntry_fresh_id this e Hids He). }
  rewrite Hres. cbn [fst snd]. unfold stored. cbn [entries].
  rewrite Map_values_app. cbn [Map_values List.map snd].
  split; [reflexivity |]. split; [exact Hid |]. split.
  - apply in_or_app. right. now left.
  - intros Hin. apply in_app_or in Hin. destruct Hin as [Hin | [Heq | []]].
    + unfold store1 in Hin. rewrite Hdel in Hin. cbn [snd entries] in Hin.
      fold (Map_values (Map_delete (entries this)
                          (getDateKey (userId e) (date e)))) in Hin.
      rewrite Hvals in Hin. apply filter_In in Hin.
      destruct Hin as [_ Hne]. now rewrite jsstring_eqb_refl in Hne.
    + apply Hid. now rewrite Heq.
Qed.

Lemma deleteEntry_then_createEntry_witness :
  fst (createEntry (snd (deleteEntry exp1_store (js "entry-1")))
         (js "user-exp1") monday (js "Again") [] [] [] 2)
  = Ok (mkJournalEntry (js "entry-3") (js "user-exp1") monday
          (js "Again") [] [] [] 2).
Proof.
  destruct (deleteEntry_then_createEntry exp1_store
              (mkJournalEntry (js "entry-1") (js "user-exp1") monday
                 (js "Grateful for a fresh start")
                 (js "Started new project, went for a walk")
                 (js "Took initiative on new work")
                 (js "Continue building momentum") 1)
              (js "Again") [] [] [] 2) as [H _].
  - unfold exp1_store. repeat constructor.
  - vm_compute. left. reflexivity.
  - lia.
  - exact H.
Defined.

(** X6. [getEntriesForUser] lists the stored entries of the user, each
    as often as the store holds it, by date, no entry after one of a
    later date; in a store that the public methods can produce the dates
    of the list go strictly up. *)
Theorem getEntriesForUser_sorted (this : JournalEntries) (user : jsstring) :
  let l := getEntriesForUser this user in
  StronglySorted by_date l
  /\ Permutation l
       (List.filter (fun e => jsstring_eqb (userId e) user)
                    (Map_values (entries this)))
  /\ (forall e, In e l <-> stored this e /\ userId e = user)
  /\ (reachable this -> StronglySorted earlier l).
Proof.
  intros l. split; [apply sort_by_date_sorted |].
  split; [apply sort_by_date_perm |].
  split; [apply getEntriesForUser_In |].
  intros Hr. apply sorted_earlier; [apply sort_by_date_sorted |].
  apply (Permutation_NoDup
           (l := List.map date
                   (List.filter (fun e => jsstring_eqb (userId e) user)
                                (Map_values (entries this))))).
  - apply Permutation_map, Permutation_sym, sort_by_date_perm.
  - now apply user_dates_NoDup.
Qed.

Lemma getEntriesForUser_sorted_witness :
  StronglySorted earlier (getEntriesForUser exp1_store (js "user-exp1")).
Proof.
  destruct (getEntriesForUser_sorted exp1_store (js "user-exp1"))
    as (_ & _ & _ & H).
  apply H. unfold exp1_store. repeat constructor.
Defined.

(** X7. [getEntriesInRange] is [getEntriesForUser] restricted to the
    dates from [startDate] to [endDate], both included, in the same
    order; it is empty when [endDate] is before [startDate]. *)
Theorem getEntriesInRange_of_user (this : JournalEntries) (user : jsstring)
    (startDate endDate : Date) :
  getEntriesInRange this user startDate endDate
  = List.filter (in_range startDate endDate) (getEntriesForUser this user)
  /\ (endDate < startDate ->
      getEntriesInRange this user startDate endDate = []).
Proof.
  assert (H : getEntriesInRange this user startDate endDate
              = List.filter (in_range startDate endDate)
                            (getEntriesForUser this user)).
  { unfold getEntriesInRange, getEntriesForUser.
    rewrite filter_sort_by_date. f_equal. rewrite <- filter_andb.
    apply filter_ext. intros e. unfold in_range. now rewrite andb_assoc. }
  split; [exact H |]. intros Hlt. rewrite H. clear H.
  induction (getEntriesForUser this user) as [| e l IH]; [reflexivity |].
  cbn [List.filter]. rewrite IH. unfold in_range.
  destruct (startDate <=? date e) eqn:E1; [| reflexivity].
  destruct (date e <=? endDate) eqn:E2; [| reflexivity].
  apply Z.leb_le in E1, E2. lia.
Qed.

Lemma getEntriesInRange_of_user_witness :
  getEntriesInRange exp1_store (js "user-exp1") (Date_addDays monday 6) monday
  = [].
Proof.
  apply (getEntriesInRange_of_user exp1_store (js "user-exp1")
           (Date_addDays monday 6) monday).
  vm_compute. reflexivity.
Defined.

(** ** Dates and keys *)

(** X8. Two dates print the same YYYY-MM-DD exactly when they fall on the
    same day of UTC, whatever their time of day. *)
Theorem toISODate_same_day (t1 t2 : Date) :
  time_value t1 -> time_value t2 ->
  (toISODate t1 = toISODate t2 <-> day_number t1 = day_number t2).
Proof.
  intros H1 H2. unfold day_number. split.
  - now apply toISODate_inj.
  - apply toISODate_day.
Qed.

Lemma toISODate_same_day_witness :
  toISODate monday = toISODate (monday + 3600000)
  /\ toISODate monday <> toISODate (monday - 1).
Proof.
  assert (H1 : time_value monday) by (vm_compute; split; discriminate).
  assert (H2 : time_value (monday + 3600000))
    by (vm_compute; split; discriminate).
  assert (H3 : time_value (monday - 1)) by (vm_compute; split; discriminate).
  split.
  - apply (toISODate_same_day monday (monday + 3600000) H1 H2).
    vm_compute. reflexivity.
  - intros H. apply (toISODate_same_day monday (monday - 1) H1 H3) in H.
    vm_compute in H. discriminate.
Defined.

(** X9. For a date of the years 0 to 9999, [new Date] of what
    [toISODate] prints is the midnight of UTC that starts the day of the
    date: it is not after the date, less than a day before it, and it
    prints the same. *)
Theorem Date_of_iso_toISODate (t : Date) :
  0 <= year_of t <= 9999 ->
  exists t0,
    Date_of_iso (toISODate t) = Some t0
    /\ t0 = day_number t * msPerDay
    /\ t0 <= t < t0 + msPerDay
    /\ toISODate t0 = toISODate t.
Proof.
  intros Hy. exists (day_number t * msPerDay). unfold day_number.
  split; [now apply Date_of_iso_toISODate_day |].
  split; [reflexivity |]. split.
  - unfold msPerDay. Z.div_mod_to_equations. lia.
  - apply toISODate_day. now rewrite Z.div_mul.
Qed.

Lemma Date_of_iso_toISODate_witness :
  exists t0,
    Date_of_iso (toISODate (monday + 3600000)) = Some t0
    /\ t0 = day_number (monday + 3600000) * msPerDay
    /\ t0 <= monday + 3600000 < t0 + msPerDay
    /\ toISODate t0 = toISODate (monday + 3600000).
Proof.
  apply (Date_of_iso_toISODate (monday + 3600000)).
  vm_compute. split; discriminate.
Defined.

(** X10. The keys of the two maps tell users and days apart: two keys
    are the same exactly for the same user and dates that print the
    same, a colon in a user name notwithstanding. *)
Theorem getDateKey_same (u1 u2 : jsstring) (d1 d2 : Date) :
  (getDateKey u1 d1 = getDateKey u2 d2
   <-> u1 = u2 /\ toISODate d1 = toISODate d2)
  /\ (getWeeklySummaryKey u1 d1 = getWeeklySummaryKey u2 d2
      <-> u1 = u2 /\ toISODate d1 = toISODate d2)
  /\ getDateKey u1 d1 = getWeeklySummaryKey u1 d1.
Proof.
  split; [| split; [| reflexivity]].
  - split; [apply getDateKey_inj |].
    intros [-> H]. unfold getDateKey. now rewrite H.
  - split; [apply getWeeklySummaryKey_inj |].
    intros [-> H]. unfold getWeeklySummaryKey. now rewrite H.
Qed.

(** The date that V2 reads from the printed date of a day of the
    window. *)
Lemma window_day_outside (weekStart : Date) (i : Z) :
  0 <= i <= 6 ->
  0 <= year_of (Date_addDays weekStart i) <= 9999 ->
  outside_window (Date_of_iso (toISODate (Date_addDays weekStart i)))
    weekStart (Date_addDays weekStart 6) = true
  <-> i = 0 /\ weekStart mod msPerDay <> 0.
Proof.
  intros Hi Hy. rewrite (Date_of_iso_toISODate_day _ Hy).
  rewrite outside_window_true. unfold Date_addDays, msPerDay in *.
  split.
  - intros (t & [= <-] & Ht). Z.div_mod_to_equations. lia.
  - intros [-> Hr]. eexists. split; [reflexivity |].
    Z.div_mod_to_equations. lia.
Qed.

(** X11. V2 and the dates of the week itself.  Of the seven dates of the
    window, as [toISODate] prints them, V2 takes the first for a date
    outside the window unless [weekStart] is a midnight of UTC, and the
    six others never; so a reply that quotes the first date of its own
    week is refused when [weekStart] has a time of day. *)
Theorem validateV2_week_days (result : LLMResult) (weekStart : Date) (i : Z) :
  0 <= i <= 6 ->
  0 <= year_of (Date_addDays weekStart i) <= 9999 ->
  let tok := toISODate (Date_addDays weekStart i) in
  (outside_window (Date_of_iso tok) weekStart (Date_addDays weekStart 6) = true
   <-> i = 0 /\ weekStart mod msPerDay <> 0)
  /\ (has_date_token tok (combinedText result) ->
      i = 0 -> weekStart mod msPerDay <> 0 ->
      exists e, validateV2_WindowAndLinks result weekStart = Throw e).
Proof.
  intros Hi Hy tok. split; [now apply window_day_outside |].
  intros Htok H0 Hr. unfold validateV2_WindowAndLinks.
  destruct (RegExp_test true urlPattern (combinedText result)); [eauto |].
  destruct (List.find _ _) as [d |] eqn:Hf; [eauto |].
  exfalso. apply String_match_g_dates in Htok.
  apply (find_none _ _ Hf) in Htok. cbv beta in Htok.
  assert (Hout : outside_window (Date_of_iso tok) weekStart
                   (Date_addDays weekStart 6) = true)
    by now apply window_day_outside.
  congruence.
Qed.

Lemma validateV2_week_days_witness :
  exists e,
    validateV2_WindowAndLinks
      (mkLLMResult (js "The week of 2025-10-06 went well.")
                   (js "Plan 10 minutes daily."))
      (monday + 14400000) = Throw e.
Proof.
  destruct (validateV2_week_days
              (mkLLMResult (js "The week of 2025-10-06 went well.")
                           (js "Plan 10 minutes daily."))
              (monday + 14400000) 0) as [_ H].
  - lia.
  - vm_compute. split; discriminate.
  - apply H.
    + exists (js "The week of "), (js " went well. Plan 10 minutes daily.").
      vm_compute. repeat split; auto.
    + reflexivity.
    + vm_compute. discriminate.
Defined.

(** ** The aggregates and the stored summaries *)

Lemma NoDup_map_inj_in {A B : Type} (f : A -> B) (l : list A) :
  (forall x y, In x l -> In y l -> f x = f y -> x = y) ->
  List.NoDup l -> List.NoDup (List.map f l).
Proof.
  intros Hinj. induction 1 as [| a l Hnotin Hnd IH]; cbn [List.map];
    [constructor |].
  constructor.
  - intros Hin. apply in_map_iff in Hin. destruct Hin as (y & Heq & Hy).
    apply Hnotin. rewrite (Hinj a y); auto; [now left | now right].
  - apply IH. intros x y Hx Hy. apply Hinj; now right.
Qed.

Lemma filter_length_negb {A : Type} (p : A -> bool) (l : list A) :
  (length (List.filter (fun x => negb (p x)) l) + length (List.filter p l)
   = length l)%nat.
Proof.
  induction l as [| a l IH]; [reflexivity |]. cbn [List.filter].
  destruct (p a); cbn [negb length]; lia.
Qed.

(** Of a list without repetition, the elements that are not in a part of
    it. *)
Lemma missing_count (W E : list jsstring) :
  List.NoDup W -> List.NoDup E -> incl E W ->
  (length (List.filter (fun d => negb (includes E d)) W) + length E
   = length W)%nat.
Proof.
  intros HW HE Hincl.
  rewrite <- (filter_length_negb (includes E) W). f_equal.
  apply Permutation_length, Permutation.NoDup_Permutation;
    [exact HE | now apply List.NoDup_filter |].
  intros x. rewrite filter_In, includes_In. split; [| tauto].
  intros Hx. split; [now apply Hincl | exact Hx].
Qed.

Lemma time_value_window (weekStart : Date) (i : Z) :
  time_value weekStart -> time_value (Date_addDays weekStart 6) ->
  0 <= i <= 6 -> time_value (Date_addDays weekStart i).
Proof. unfold time_value, Date_addDays, msPerDay. lia. Qed.

(** The seven dates of a window are different. *)
Lemma window_days_NoDup (weekStart : Date) :
  time_value weekStart -> time_value (Date_addDays weekStart 6) ->
  List.NoDup (window_days weekStart).
Proof.
  intros H0 H6. unfold window_days.
  apply NoDup_map_inj_in; [| apply List.seq_NoDup].
  intros i j Hi Hj Heq. apply in_seq in Hi, Hj.
  apply toISODate_inj in Heq; [| apply time_value_window; auto; lia ..].
  unfold Date_addDays in Heq. rewrite !Z.div_add in Heq by discriminate.
  lia.
Qed.

(** The entries of a window of a reachable store: their dates print
    differently, as dates of the window, and their ids differ. *)
Lemma window_entries this user weekStart :
  reachable this ->
  let weekEntries :=
    getEntriesInRange this user weekStart (Date_addDays weekStart 6) in
  List.NoDup (List.map (fun e => toISODate (date e)) weekEntries)
  /\ incl (List.map (fun e => toISODate (date e)) weekEntries)
          (window_days weekStart)
  /\ List.NoDup (List.map id weekEntries)
  /\ (length weekEntries <= 7)%nat.
Proof.
  intros Hr weekEntries.
  pose proof (getEntriesInRange_perm this user weekStart) as Hperm.
  fold weekEntries in Hperm.
  assert (HF : forall e, In e weekEntries ->
             stored this e /\ userId e = user
             /\ weekStart <= date e <= Date_addDays weekStart 6).
  { intros e Hin. apply (Permutation_in _ Hperm) in Hin.
    now apply in_range_filter in Hin. }
  split; [| split; [| split]].
  - apply (Permutation_NoDup
             (l := List.map (fun e => toISODate (date e))
                            (entries_in_window this user weekStart))).
    + apply Permutation_map, Permutation_sym, Hperm.
    + apply (NoDup_map_inv (fun s : jsstring => (user, s))).
      rewrite List.map_map.
      rewrite (map_ext_in _ (fun e => (userId e, toISODate (date e)))).
      * apply NoDup_map_filter. now apply reachable_one_entry_per_day.
      * intros e Hin. apply in_range_filter in Hin.
        destruct Hin as (_ & -> & _). reflexivity.
  - intros s Hs. apply in_map_iff in Hs. destruct Hs as (e & <- & Hin).
    destruct (HF e Hin) as (_ & _ & Hlo & Hhi).
    unfold window_days. apply in_map_iff.
    exists (Z.to_nat (date e / msPerDay - weekStart / msPerDay)).
    assert (Hd1 : weekStart / msPerDay <= date e / msPerDay)
      by (apply Z.div_le_mono; [reflexivity | assumption]).
    assert (Hd2 : date e / msPerDay <= weekStart / msPerDay + 6).
    { unfold Date_addDays in Hhi.
      rewrite <- (Z.div_add weekStart 6 msPerDay) by discriminate.
      apply Z.div_le_mono; [reflexivity | assumption]. }
    split; [| apply in_seq; lia].
    apply toISODate_day. unfold Date_addDays.
    rewrite Z.div_add by discriminate. lia.
  - apply (Permutation_NoDup
             (l := List.map id (entries_in_window this user weekStart))).
    + apply Permutation_map, Permutation_sym, Hperm.
    + apply NoDup_map_filter. now destruct (reachable_ids_ok _ Hr) as (_ & H & _).
  - rewrite (Permutation_length Hperm). now apply window_at_most_seven.
Qed.

(** The days without an entry are the days of the window that are left
    over. *)
Lemma missingDays_count this user weekStart :
  reachable this ->
  time_value weekStart -> time_value (Date_addDays weekStart 6) ->
  let weekEntries :=
    getEntriesInRange this user weekStart (Date_addDays weekStart 6) in
  (entryCount weekEntries + length (missingDays weekEntries weekStart)
   = 7)%nat.
Proof.
  intros Hr H0 H6 weekEntries.
  destruct (window_entries this user weekStart Hr) as (HE & Hincl & _ & _).
  fold weekEntries in HE, Hincl.
  rewrite missingDays_filter.
  pose proof (missing_count _ _ (window_days_NoDup _ H0 H6) HE Hincl) as H.
  rewrite length_map in H. unfold window_days in H at 2.
  rewrite length_map, length_seq in H. unfold entryCount. lia.
Qed.

(** What a successful resumption stores is a validated summary. *)
Lemma resume_validated this0 user weekStart reply now store s store' :
  reachable this0 ->
  getEntriesInRange this0 user weekStart (Date_addDays weekStart 6) <> [] ->
  summarizeWeek_resume user weekStart (Date_addDays weekStart 6)
    (getEntriesInRange this0 user weekStart (Date_addDays weekStart 6))
    reply now store = (Ok s, store') ->
  validated_summary s.
Proof.
  intros Hr Hne Hres. apply resume_success in Hres.
  destruct Hres as (text & result & _ & _ & Hv & -> & _).
  destruct (window_entries this0 user weekStart Hr) as (_ & _ & Hids & Hlen).
  unfold validated_summary.
  cbn [ws_weekEnd ws_weekStart ws_summary ws_focus ws_entryCount
       ws_sourceEntryIds ws_missingDays].
  split; [reflexivity |]. split; [now destruct result |].
  unfold entryCount, sourceEntryIds. split.
  - split; [| exact Hlen].
    destruct (getEntriesInRange this0 user weekStart (Date_addDays weekStart 6));
      [contradiction | cbn [length]; lia].
  - split; [apply length_map |]. split; [exact Hids |]. split.
    + rewrite missingDays_filter. intros d Hd. now apply filter_In in Hd.
    + intros H0 H6. now apply (missingDays_count this0 user weekStart).
Qed.

Lemma reachable_validated this :
  reachable this ->
  forall k s, weeklySummaries this !! k = Some s -> validated_summary s.
Proof.
  induction 1 as [| this u d g dt p t r _ IH
                  | this entryId updates _ IH
                  | this entryId _ IH
                  | this0 this u w v prompt resume reply now Hr0 _ _ IH Hsw].
  - intros k s. cbn. now rewrite lookup_empty.
  - destruct (createEntry_cases this u d g dt p t r)
      as [(err & ->) | (_ & _ & e & _ & _ & _ & ->)]; exact IH.
  - destruct (editEntry_cases this entryId updates)
      as [(err & ->) | (pre & k & e & post & _ & _ & ->)]; exact IH.
  - unfold deleteEntry. destruct (findEntryById _ _); exact IH.
  - apply summarizeWeek_await in Hsw. destruct Hsw as [-> Hne].
    destruct (summarizeWeek_resume _ _ _ _ _ _ _) as [[s | e] store'] eqn:Hres.
    + pose proof (resume_validated _ _ _ _ _ _ _ _ Hr0 Hne Hres) as Hs.
      apply resume_success in Hres.
      destruct Hres as (_ & _ & _ & _ & _ & _ & ->). cbn [snd weeklySummaries].
      intros k s'. rewrite lookup_insert. case_decide as Hk.
      * now intros [= <-].
      * apply IH.
    + assert (Hf : fst (summarizeWeek_resume u w (Date_addDays w 6)
                          (getEntriesInRange this0 u w (Date_addDays w 6))
                          reply now this) = Throw e) by now rewrite Hres.
      apply resume_failure_cases in Hf. destruct Hf as [Hf _].
      rewrite Hres in Hf. cbn [snd] in *. now subst.
Qed.

(** X12. Every summary that a store produced by the public methods
    holds was validated: [getWeeklySummary] answers with a summary of the
    user it is asked for, of a week that starts on the day it is asked
    for, whose two texts pass V1, V2 and V3 for that week, which counts
    between one and seven entries, as many as it lists ids, all
    different, and whose missing days are days of its window, as many as
    the window has days without an entry. *)
Theorem stored_summary_validated (this : JournalEntries) (user : jsstring)
    (weekStart : Date) (s : WeeklySummary) :
  reachable this ->
  getWeeklySummary this user weekStart = Some s ->
  ws_userId s = user
  /\ toISODate (ws_weekStart s) = toISODate weekStart
  /\ validated_summary s.
Proof.
  intros Hr Hget. unfold getWeeklySummary in Hget.
  destruct (reachable_ok _ Hr) as [_ Hok].
  pose proof (Hok _ _ Hget) as Hkey.
  apply getWeeklySummaryKey_inj in Hkey. destruct Hkey as [Hu Hw].
  split; [now symmetry |]. split; [now symmetry |].
  exact (reachable_validated _ Hr _ _ Hget).
Qed.

Lemma exp1_summarized_reachable : reachable exp1_summarized.
Proof.
  apply (reach_summarizeWeek exp1_store exp1_store (js "user-exp1") monday
           strict exp1_prompt exp1_resume (Replied exp1_passing_reply) 1).
  - unfold exp1_store. repeat constructor.
  - unfold exp1_store. repeat constructor.
  - reflexivity.
Qed.

Lemma stored_summary_validated_witness :
  validated_summary (exp1_summary exp1_passing_reply 1).
Proof.
  apply (stored_summary_validated exp1_summarized (js "user-exp1") monday
           (exp1_summary exp1_passing_reply 1)).
  - exact exp1_summarized_reachable.
  - vm_compute. reflexivity.
Defined.

(** X13. The aggregates of a week of seven days, in a store that the
    public methods can produce: the entries of the window and the missing
    days add up to seven, the missing days are all different, none is
    the date of an entry of the window, and the ids of the entries are
    all different. *)
Theorem aggregates_count (this : JournalEntries) (user : jsstring)
    (weekStart : Date) :
  reachable this ->
  time_value weekStart -> time_value (Date_addDays weekStart 6) ->
  let weekEntries :=
    getEntriesInRange this user weekStart (Date_addDays weekStart 6) in
  (entryCount weekEntries + length (missingDays weekEntries weekStart)
   = 7)%nat
  /\ List.NoDup (missingDays weekEntries weekStart)
  /\ (forall e, In e weekEntries ->
                ~ In (toISODate (date e)) (missingDays weekEntries weekStart))
  /\ length (sourceEntryIds weekEntries) = entryCount weekEntries
  /\ List.NoDup (sourceEntryIds weekEntries).
Proof.
  intros Hr H0 H6 weekEntries.
  destruct (window_entries this user weekStart Hr) as (_ & _ & Hids & _).
  split; [now apply missingDays_count |].
  unfold weekEntries. rewrite missingDays_filter.
  split; [apply List.NoDup_filter; now apply window_days_NoDup |].
  split; [| split; [apply length_map | exact Hids]].
  intros e He Hin. apply filter_In in Hin. destruct Hin as [_ Hin].
  apply negb_true_iff in Hin.
  assert (Hinc : includes
                   (List.map (fun e => toISODate (date e))
                      (getEntriesInRange this user weekStart
                         (Date_addDays weekStart 6)))
                   (toISODate (date e)) = true).
  { apply includes_In.
    exact (in_map (fun e => toISODate (date e)) _ _ He). }
  congruence.
Qed.

Lemma aggregates_count_witness :
  (entryCount (getEntriesInRange exp1_store (js "user-exp1") monday
                 (Date_addDays monday 6))
   + length (missingDays
               (getEntriesInRange exp1_store (js "user-exp1") monday
                  (Date_addDays monday 6)) monday) = 7)%nat.
Proof.
  apply (aggregates_count exp1_store (js "user-exp1") monday).
  - unfold exp1_store. repeat constructor.
  - vm_compute. split; discriminate.
  - vm_compute. split; discriminate.
Defined.

(** X14. A synthesis that succeeds writes one slot.  The entries and the
    counter are kept; [getWeeklySummary] then answers with the new
    summary for the user and every date that prints like [weekStart],
    whatever its time of day, and with what it answered before for every
    other user and every date that prints otherwise. *)
Theorem summarizeWeek_writes_one_slot (llm : Prompt -> LLMReply) (now : Date)
    (this store : JournalEntries) (user : jsstring) (weekStart : Date)
    (variant : PromptVariant) (s : WeeklySummary) (calls : list Prompt) :
  run_summarizeWeek llm now this user weekStart variant = (Ok s, store, calls) ->
  entries store = entries this
  /\ nextId store = nextId this
  /\ (forall u, getEntriesForUser store u = getEntriesForUser this u)
  /\ (forall w, toISODate w = toISODate weekStart ->
                getWeeklySummary store user w = Some s)
  /\ (forall u w, u <> user \/ toISODate w <> toISODate weekStart ->
                  getWeeklySummary store u w = getWeeklySummary this u w).
Proof.
  intros Hrun. apply run_success in Hrun.
  destruct Hrun as (prompt & weekEntries & _ & Hres).
  apply resume_success in Hres.
  destruct Hres as (_ & _ & _ & _ & _ & _ & ->).
  cbn [entries nextId]. split; [reflexivity |]. split; [reflexivity |].
  split; [reflexivity |]. unfold getWeeklySummary. cbn [weeklySummaries].
  split.
  - intros w Hw. unfold getWeeklySummaryKey. rewrite Hw.
    apply lookup_insert_eq.
  - intros u w Hne. apply lookup_insert_ne. intros Heq.
    apply getWeeklySummaryKey_inj in Heq. destruct Heq as [Hu Hw].
    destruct Hne as [Hne | Hne]; apply Hne; congruence.
Qed.

Lemma summarizeWeek_writes_one_slot_witness :
  getWeeklySummary exp1_summarized (js "user-exp1") (monday + 3600000)
  = Some (exp1_summary exp1_passing_reply 1).
Proof.
  destruct (summarizeWeek_writes_one_slot
              (fun _ => Replied exp1_passing_reply) 1 exp1_store
              exp1_summarized (js "user-exp1") monday strict
              (exp1_summary exp1_passing_reply 1) [exp1_prompt])
    as (_ & _ & _ & H & _).
  - vm_compute. reflexivity.
  - apply H. vm_compute. reflexivity.
Defined.

(** ** The reply and the request *)

Lemma brace_span_wrapped (pre mid suf : jsstring) :
  ~ In 123%N pre -> ~ In 125%N suf ->
  brace_span (pre ++ 123%N :: mid ++ 125%N :: suf)
  = Some (123%N :: mid ++ [125%N]).
Proof.
  intros Hpre Hsuf. unfold brace_span.
  rewrite (from_first_skip _ _ _ Hpre).
  now rewrite (upto_last_split _ _ _ Hsuf).
Qed.

(** X15. What surrounds the object of a reply does not count: a text
    before it without an opening brace and a text after it without a
    closing brace, a Markdown fence for one, leave the result of
    [parseLLMResponse], a value or an error, as it is for the object
    alone. *)
Theorem parseLLMResponse_wrapped (pre mid suf : jsstring) :
  ~ In 123%N pre -> ~ In 125%N suf ->
  parseLLMResponse (pre ++ 123%N :: mid ++ 125%N :: suf)
  = parseLLMResponse (123%N :: mid ++ [125%N]).
Proof.
  intros Hpre Hsuf. unfold parseLLMResponse.
  rewrite !String_match_jsonPattern.
  rewrite (brace_span_wrapped pre mid suf Hpre Hsuf).
  pose proof (brace_span_wrapped [] mid [] (fun H => H) (fun H => H)) as H.
  cbn [app] in H. now rewrite H.
Qed.

Lemma parseLLMResponse_wrapped_witness :
  parseLLMResponse
    (js "Here is the JSON: "
     ++ 123%N :: jsq "'summary':'a','focus':'b'" ++ 125%N :: js " Done.")
  = parseLLMResponse (123%N :: jsq "'summary':'a','focus':'b'" ++ [125%N]).
Proof.
  apply (parseLLMResponse_wrapped (js "Here is the JSON: ")
           (jsq "'summary':'a','focus':'b'") (js " Done.")).
  - vm_compute. intros H.
    repeat (destruct H as [H | H]; [discriminate H |]). exact H.
  - vm_compute. intros H.
    repeat (destruct H as [H | H]; [discriminate H |]). exact H.
Defined.

(** X16. For a [weekStart] whose sixth day after it is still a time
    value, so that [weekEnd] is a Date and not an invalid one: when the
    user has an entry in the window, [summarizeWeek] does not throw
    before the request: it sends one request, made of the entries of the
    window by date, their number, their average rating and the missing
    days, and goes on from the reply. *)
Theorem summarizeWeek_sends_one_request (this : JournalEntries)
    (user : jsstring) (weekStart : Date) (variant : PromptVariant)
    (llm : Prompt -> LLMReply) (now : Date) (e : JournalEntry) :
  time_value weekStart -> time_value (Date_addDays weekStart 6) ->
  stored this e -> userId e = user ->
  weekStart <= date e <= Date_addDays weekStart 6 ->
  let weekEntries :=
    getEntriesInRange this user weekStart (Date_addDays weekStart 6) in
  let prompt :=
    createWeeklySummaryPrompt weekEntries (entryCount weekEntries)
      (avgRating weekEntries) (missingDays weekEntries weekStart)
      weekStart variant in
  In e weekEntries
  /\ StronglySorted by_date weekEntries
  /\ summarizeWeek this user weekStart variant
     = AwaitLLM prompt
         (summarizeWeek_resume user weekStart (Date_addDays weekStart 6)
            weekEntries)
  /\ snd (run_summarizeWeek llm now this user weekStart variant) = [prompt].
Proof.
  intros _ _ He Hu Hd weekEntries prompt.
  assert (Hin : In e weekEntries).
  { unfold weekEntries, getEntriesInRange.
    apply (Permutation_in _ (Permutation_sym (sort_by_date_perm _))).
    apply in_range_filter. auto. }
  assert (Hsw : summarizeWeek this user weekStart variant
                = AwaitLLM prompt
                    (summarizeWeek_resume user weekStart
                       (Date_addDays weekStart 6) weekEntries)).
  { unfold summarizeWeek. fold weekEntries.
    destruct weekEntries as [| x l]; [destruct Hin | reflexivity]. }
  split; [exact Hin |]. split; [apply sort_by_date_sorted |].
  split; [exact Hsw |].
  unfold run_summarizeWeek. now rewrite Hsw.
Qed.

Lemma summarizeWeek_sends_one_request_witness :
  snd (run_summarizeWeek (fun _ => Rejected) 0 exp1_store (js "user-exp1")
         monday strict) = [exp1_prompt].
Proof.
  pose proof (summarizeWeek_sends_one_request exp1_store (js "user-exp1")
                monday strict (fun _ => Rejected) 0
                (mkJournalEntry (js "entry-1") (js "user-exp1") monday
                   (js "Grateful for a fresh start")
                   (js "Started new project, went for a walk")
                   (js "Took initiative on new work")
                   (js "Continue building momentum") 1)) as H.
  destruct H as (_ & _ & _ & H).
  - vm_compute. split; discriminate.
  - vm_compute. split; discriminate.
  - vm_compute. left. reflexivity.
  - reflexivity.
  - vm_compute. split; discriminate.
  - rewrite H. vm_compute. reflexivity.
Defined.

(** X17. The store that a synthesis resumes on.  Whatever the public
    methods did to the store while the request was pending, the
    resumption keeps the entries and the counter of the store as it is
    then and every summary under another key; when it succeeds, the
    summary it stores counts and lists the entries of the window as they
    were when the request was made, is dated by the clock at the
    resumption, and is what [getWeeklySummary] answers. *)
Theorem summarizeWeek_resumption (this : JournalEntries) (user : jsstring)
    (weekStart : Date) (variant : PromptVariant) (prompt : Prompt)
    (resume : LLMReply -> Date -> JournalEntries
              -> Result WeeklySummary * JournalEntries)
    (reply : LLMReply) (now : Date) (store : JournalEntries) :
  summarizeWeek this user weekStart variant = AwaitLLM prompt resume ->
  let weekEntries :=
    getEntriesInRange this user weekStart (Date_addDays weekStart 6) in
  p_entries prompt = weekEntries
  /\ entries (snd (resume reply now store)) = entries store
  /\ nextId (snd (resume reply now store)) = nextId store
  /\ (forall k, k <> getWeeklySummaryKey user weekStart ->
                weeklySummaries (snd (resume reply now store)) !! k
                = weeklySummaries store !! k)
  /\ (forall s, fst (resume reply now store) = Ok s ->
                ws_sourceEntryIds s = List.map id weekEntries
                /\ ws_entryCount s = length weekEntries
                /\ ws_generatedAt s = now
                /\ getWeeklySummary (snd (resume reply now store))
                     user weekStart = Some s).
Proof.
  intros Hsw weekEntries.
  assert (Hp : p_entries prompt = weekEntries).
  { unfold summarizeWeek in Hsw. fold weekEntries in Hsw.
    destruct (length weekEntries =? 0)%nat; [discriminate |].
    now injection Hsw as <- _. }
  apply summarizeWeek_await in Hsw. destruct Hsw as [-> _].
  fold weekEntries.
  split; [exact Hp |]. split; [apply resume_entries |].
  split; [apply resume_nextId |].
  destruct (summarizeWeek_resume user weekStart (Date_addDays weekStart 6)
              weekEntries reply now store) as [[s | err] store'] eqn:Hres.
  - apply resume_success in Hres.
    destruct Hres as (text & result & _ & _ & _ & Hs & ->).
    cbn [fst snd weeklySummaries]. split.
    + intros k Hk. now apply lookup_insert_ne.
    + intros s' [= <-]. rewrite Hs at 1 2 3.
      cbn [ws_sourceEntryIds ws_entryCount ws_generatedAt].
      repeat split. unfold getWeeklySummary. cbn [weeklySummaries].
      apply lookup_insert_eq.
  - assert (Hf : fst (summarizeWeek_resume user weekStart
                        (Date_addDays weekStart 6) weekEntries reply now store)
                 = Throw err) by now rewrite Hres.
    apply resume_failure_cases in Hf. destruct Hf as [Hf _].
    rewrite Hres in Hf. cbn [fst snd] in *. subst store'.
    split; [reflexivity | discriminate].
Qed.

Lemma summarizeWeek_resumption_witness :
  entries (snd (exp1_resume (Replied exp1_passing_reply) 5
                  (snd (deleteEntry exp1_store (js "entry-1")))))
  = entries (snd (deleteEntry exp1_store (js "entry-1"))).
Proof.
  destruct (summarizeWeek_resumption exp1_store (js "user-exp1") monday
              strict exp1_prompt exp1_resume (Replied exp1_passing_reply) 5
              (snd (deleteEntry exp1_store (js "entry-1"))))
    as (_ & H & _).
  - reflexivity.
  - exact H.
Defined.

(** ** The store over time *)

(** X18. What every store produced by the public methods keeps: a
    stored rating is one of -2..2, and a user has at most one entry on a
    day of UTC, two stored entries of a user whose dates print the same,
    or fall on the same day, being one entry. *)
Theorem one_entry_per_user_and_day (this : JournalEntries) :
  reachable this ->
  (forall e, stored this e -> -2 <= rating e <= 2)
  /\ (forall e1 e2, stored this e1 -> stored this e2 ->
        userId e1 = userId e2 ->
        toISODate (date e1) = toISODate (date e2) -> e1 = e2)
  /\ (forall e1 e2, stored this e1 -> stored this e2 ->
        userId e1 = userId e2 ->
        day_number (date e1) = day_number (date e2) -> e1 = e2).
Proof.
  intros Hr.
  pose proof (reachable_one_entry_per_day _ Hr) as Hday.
  destruct (reachable_ok _ Hr) as [[_ Hall] _].
  rewrite List.Forall_forall in Hall.
  assert (Hsame : forall e1 e2, stored this e1 -> stored this e2 ->
            userId e1 = userId e2 ->
            toISODate (date e1) = toISODate (date e2) -> e1 = e2).
  { intros e1 e2 H1 H2 Hu Hd.
    apply (NoDup_map_In_inj (fun e => (userId e, toISODate (date e)))
             (Map_values (entries this))); auto.
    now rewrite Hu, Hd. }
  split; [| split; [exact Hsame |]].
  - intros e He. apply in_map_iff in He. destruct He as (kv & <- & Hin).
    destruct (Hall _ Hin) as [_ Hv]. now apply valid_rating_range.
  - intros e1 e2 H1 H2 Hu Hd. apply Hsame; auto.
    now apply toISODate_day.
Qed.

Lemma one_entry_per_user_and_day_witness :
  -2 <= rating (mkJournalEntry (js "entry-1") (js "user-exp1") monday
                  (js "Grateful for a fresh start")
                  (js "Started new project, went for a walk")
                  (js "Took initiative on new work")
                  (js "Continue building momentum") 1) <= 2.
Proof.
  destruct (one_entry_per_user_and_day exp1_summarized) as [H _].
  - exact exp1_summarized_reachable.
  - apply H. vm_compute. left. reflexivity.
Defined.

Lemma apply_updates_twice updates e :
  apply_updates updates (apply_updates updates e) = apply_updates updates e.
Proof.
  unfold apply_updates. cbn.
  destruct updates as [[g |] [d |] [p |] [t |] [r |]]; reflexivity.
Qed.

Lemma mutate_first_twice entryId f m :
  (forall x, id (f x) = id x) -> (forall x, f (f x) = f x) ->
  mutate_first entryId f (mutate_first entryId f m) = mutate_first entryId f m.
Proof.
  intros Hid Hf. induction m as [| [k x] m IH]; [reflexivity |].
  cbn [mutate_first fst snd].
  destruct (jsstring_eqb (id x) entryId) eqn:E; cbn [mutate_first fst snd].
  - now rewrite Hid, E, Hf.
  - now rewrite E, IH.
Qed.

Lemma mutate_first_same entryId f m :
  (forall x, f x = x) -> mutate_first entryId f m = m.
Proof.
  intros Hf. induction m as [| [k x] m IH]; [reflexivity |].
  cbn [mutate_first fst snd].
  destruct (jsstring_eqb (id x) entryId); [now rewrite Hf | now rewrite IH].
Qed.

(** X19. [editEntry] can be repeated, and an edit that provides no
    field changes nothing: in any store, the same edit a second time
    returns what it returned, an error included, and leaves the store as
    the first edit left it; an [updates] without fields leaves the store
    as it is. *)
Theorem editEntry_again (this : JournalEntries) (entryId : jsstring)
    (updates : EntryUpdates) :
  let store1 := snd (editEntry this entryId updates) in
  editEntry store1 entryId updates
  = (fst (editEntry this entryId updates), store1)
  /\ snd (editEntry this entryId no_updates) = this.
Proof.
  intros store1. split.
  - unfold store1, editEntry at 2 3.
    destruct (findEntryById this entryId) as [e |] eqn:Hfind.
    + destruct (match u_rating updates with
                | Some r => negb (valid_rating r)
                | None => false
                end) eqn:Hr; cbn [fst snd].
      * unfold editEntry. now rewrite Hfind, Hr.
      * unfold editEntry, findEntryById. cbn [entries].
        rewrite find_mutate_first by reflexivity.
        unfold findEntryById in Hfind. rewrite Hfind. cbn [option_map].
        rewrite jsstring_eqb_refl, Hr.
        rewrite apply_updates_twice.
        rewrite mutate_first_twice;
          [reflexivity | reflexivity | intros x; apply apply_updates_twice].
    + cbn [fst snd]. unfold editEntry. now rewrite Hfind.
  - unfold editEntry. destruct (findEntryById this entryId); [| reflexivity].
    cbn [u_rating no_updates snd].
    rewrite mutate_first_same by (intros [? ? ? ? ? ? ? ?]; reflexivity).
    now destruct this.
Qed.

(** ** The model on concrete inputs *)

Example toISODate_examples :
  List.map toISODate [monday; 0; -1; 253402300800000]
  = [js "2025-10-06"; js "1970-01-01"; js "1969-12-31"; js "+010000-01-01"].
Proof. vm_compute. reflexivity. Qed.

Example Date_of_iso_examples :
  List.map Date_of_iso [js "2025-10-06"; js "2025-13-01"; js "2025-02-30"]
  = [Some monday; None; Some (Date_addDays 1740787200000 1)].
Proof. vm_compute. reflexivity. Qed.

Example decimal_examples :
  List.map decimal [0; 7; 10; 1234567890]%N
  = [js "0"; js "7"; js "10"; js "1234567890"].
Proof. vm_compute. reflexivity. Qed.

Example split_examples :
  List.map (String_split false wsPattern) [js "ab  c d"; js " ab  c d "]
  = [[js "ab"; js "c"; js "d"]; [[]; js "ab"; js "c"; js "d"; []]]
  /\ String_split false REps (js "abc") = [js "a"; js "b"; js "c"].
Proof. vm_compute. split; reflexivity. Qed.

Example match_g_example :
  String_match_g false (RStar (RChar 97)) (js "aabaa")
  = [js "aa"; []; js "aa"; []].
Proof. vm_compute. reflexivity. Qed.

Example JSON_parse_accepts :
  JSON_parse
    (jsq "{'summary': 'aA\n', 'focus' : [1, -2.50e+3, true, null, {'x':{}} ] } ")
  = Some (JObject
            [(js "summary", JString [97; 65; 10]%N);
             (js "focus",
              JArray [JNumber 1 0; JNumber (-250) 1; JBool true; JNull;
                      JObject [(js "x", JObject [])]])])
  /\ List.map JSON_parse [jsq "0"; jsq " -0.0e5 "; jsq "[[[[]]]]"; jsq "'\/A'"]
     = [Some (JNumber 0 0); Some (JNumber 0 4);
        Some (JArray [JArray [JArray [JArray []]]]);
        Some (JString [47; 65]%N)].
Proof. vm_compute. split; reflexivity. Qed.

Example JSON_parse_rejects :
  List.map JSON_parse
    [jsq "{'a':01}"; jsq "{'a':1,}"; jsq "{'a':1} x"; jsq "{a:1}"; jsq "[1 2]";
     jsq "'x"; jsq "-"; jsq "1."; jsq "1e"; []; jsq "[]]"]
  = [None; None; None; None; None; None; None; None; None; None; None].
Proof. vm_compute. reflexivity. Qed.

Example parseLLMResponse_examples :
  List.map parseLLMResponse
    [jsq "xx {'summary':'a','focus':'b','c':1} yy"; jsq "{'summary':'','focus':'b'}";
     jsq "no"; jsq "}{"; jsq "{'summary':'a'}"; jsq "{'summary':'a','focus':3}";
     jsq "{'summary':'a','focus':0}"; jsq "{a}"]
  = [Ok (mkLLMResult (js "a") (js "b")); Throw MissingSummaryOrFocus;
     Throw NoJSONFound; Throw NoJSONFound; Throw MissingSummaryOrFocus;
     Throw NotStrings; Throw MissingSummaryOrFocus; Throw JSONSyntaxError].
Proof. vm_compute. reflexivity. Qed.

Example validateV1_examples :
  List.map (fun t => validateV1_ShapeAndLimits (mkLLMResult t (js "f")))
           [js "  a b   c "; js "   "; []]
  = [Ok tt; Throw V1_EmptySummary; Throw V1_EmptySummary].
Proof. vm_compute. reflexivity. Qed.

Example validateV2_examples :
  List.map (fun f => validateV2_WindowAndLinks (mkLLMResult (js "s") f) monday)
           [js "see https://example.com"; js "on 2025-10-20"; js "on 2025-10-12.";
            js "on 2025-10-06"; js "on 2025-10-05"; js "x2025-10-20";
            js "2025-10-201"; js "2025-13-40"; js "HTTP://"; js "http:/ /"]
  = [Throw V2_URL; Throw (V2_Date (js "2025-10-20")); Ok tt; Ok tt;
     Throw (V2_Date (js "2025-10-05")); Ok tt; Ok tt; Ok tt; Throw V2_URL; Ok tt].
Proof. vm_compute. reflexivity. Qed.

Example validateV3_examples :
  List.map (fun f => validateV3_Actionability (mkLLMResult [] f))
           [js "Try your best to keep learning.";
            js "Schedule a 15-minute daily review each evening.";
            js "Plan a 15-minute walk"; js "Plan 1 minute"; js "plan 5  min";
            js "plan 5 min"; js "plan 5mins"; js "PLAN 2 Hours";
            js "set_up daily"; js "re-read weekly"]
  = [Throw V3_NoImperative; Ok tt; Throw V3_NoTimebox; Ok tt;
     Throw V3_NoTimebox; Ok tt; Throw V3_NoTimebox; Ok tt;
     Throw V3_NoImperative; Ok tt].
Proof. vm_compute. reflexivity. Qed.

(** The end-to-end scenario: the reply with a URL is rejected by V2 and
    nothing is stored; the reply without it is accepted and stored. *)
Example scenario_exp1 :
  run_summarizeWeek (fun _ => Replied exp1_failing_reply) 0 exp1_store
    (js "user-exp1") monday base
  = (Throw V2_URL, exp1_store,
     [createWeeklySummaryPrompt
        (getEntriesInRange exp1_store (js "user-exp1") monday
           (Date_addDays monday 6))
        2 1%float
        [js "2025-10-07"; js "2025-10-08"; js "2025-10-10"; js "2025-10-11";
         js "2025-10-12"]
        monday base])
  /\ getWeeklySummary
       (snd (fst (run_summarizeWeek (fun _ => Replied exp1_passing_reply) 0
                    exp1_store (js "user-exp1") monday strict)))
       (js "user-exp1") monday
     = Some (exp1_summary exp1_passing_reply 0).
Proof. vm_compute. split; reflexivity. Qed.

